(** * pg_pathman: index-range algebra and partition scheme cache

    A shallow embedding of [src/rangeset.c] (set operations over lists of
    partition-ordinal ranges tagged exact/lossy) and of the cache and delayed
    invalidation routines of [src/relation_info.c], together with the
    properties the specification states about them. *)

From Stdlib Require Import ZArith List Bool Lia Sorted String.
From stdpp Require Import base option list gmap.
Import ListNotations.
Local Open Scope Z_scope.

(** ** rangeset.c *)

Module RangeSet.

(** Modelled from the spec: [rangeset.h] (the [IndexRange] type and its
    accessors) is not among the sources.  The spec's data model gives a range
    as [{ lower: u32, upper: u32 (inclusive), lossy: bool }]; the validity
    mark tested by [is_irange_valid] and cleared in [InvalidIndexRange] is
    kept as a field of its own. *)
Record IndexRange : Type := mk_irange {
  is_irange_valid : bool;
  irange_lower : Z;
  irange_upper : Z;
  is_irange_lossy : bool
}.

(** Modelled from the spec: largest ordinal a range boundary can hold
    ([rangeset.h] keeps one bit of each 32-bit field for the marks).  The
    general results below use only that it is not negative. *)
Definition IRANGE_BOUNDARY_MASK : Z := 2 ^ 31 - 1.

(** Modelled from the spec: the range that is not there yet. *)
Definition InvalidIndexRange : IndexRange := mk_irange false 0 0 false.

(** Modelled from the spec: constructor of a valid range. *)
Definition make_irange (lower upper : Z) (lossy : bool) : IndexRange :=
  mk_irange true lower upper lossy.

(** Modelled from the spec: predecessor of a boundary, 0 stays 0. *)
Definition irb_pred (boundary : Z) : Z :=
  if 0 <? boundary then boundary - 1 else 0.

(** Modelled from the spec: successor of a boundary, the largest boundary
    stays as it is. *)
Definition irb_succ (boundary : Z) : Z :=
  if IRANGE_BOUNDARY_MASK <=? boundary then IRANGE_BOUNDARY_MASK
  else boundary + 1.

(** [lappend_irange]: append at the tail of a [List]. *)
Definition lappend_irange (l : list IndexRange) (r : IndexRange)
  : list IndexRange := l ++ [r].

Inductive ir_cmp_lossiness : Type :=
  | IR_EQ_LOSSINESS
  | IR_A_LOSSY
  | IR_B_LOSSY.

(* Check if two ranges intersect *)
Definition iranges_intersect (a b : IndexRange) : bool :=
  (irange_lower a <=? irange_upper b) && (irange_lower b <=? irange_upper a).

(* Check if two ranges adjoin *)
Definition iranges_adjoin (a b : IndexRange) : bool :=
  (irange_upper a =? irb_pred (irange_lower b)) ||
  (irange_upper b =? irb_pred (irange_lower a)).

(* Check if two ranges cover the same area *)
Definition irange_eq_bounds (a b : IndexRange) : bool :=
  (irange_lower a =? irange_lower b) && (irange_upper a =? irange_upper b).

(* Compare lossiness factor of two ranges *)
Definition irange_cmp_lossiness (a b : IndexRange) : ir_cmp_lossiness :=
  if Bool.eqb (is_irange_lossy a) (is_irange_lossy b) then IR_EQ_LOSSINESS
  else if is_irange_lossy a then IR_A_LOSSY
  else if is_irange_lossy b then IR_B_LOSSY
  else IR_EQ_LOSSINESS.

Definition is_eq_lossiness (c : ir_cmp_lossiness) : bool :=
  match c with IR_EQ_LOSSINESS => true | _ => false end.

(* Make union of two conjuncted ranges *)
Definition irange_union_simple (a b : IndexRange) : IndexRange :=
  make_irange (Z.min (irange_lower a) (irange_lower b))
              (Z.max (irange_upper a) (irange_upper b))
              (is_irange_lossy a && is_irange_lossy b).

(* Get intersection of two conjuncted ranges *)
Definition irange_intersection_simple (a b : IndexRange) : IndexRange :=
  make_irange (Z.max (irange_lower a) (irange_lower b))
              (Z.min (irange_upper a) (irange_upper b))
              (is_irange_lossy a || is_irange_lossy b).

(* Split covering IndexRange into several IndexRanges if needed.
   The out-parameter [new_iranges] is threaded through: the function returns
   the rightmost range and the list after the appends. *)
Definition irange_handle_cover_internal
    (ir_covering ir_inner : IndexRange) (new_iranges : list IndexRange)
  : IndexRange * list IndexRange :=
  if negb (is_irange_lossy ir_covering) then (ir_covering, new_iranges)
  else
    let left_range_lower := irange_lower ir_covering in
    let left_range_upper :=
      Z.max (irb_pred (irange_lower ir_inner)) left_range_lower in
    let right_range_upper := irange_upper ir_covering in
    let right_range_lower :=
      Z.min (irb_succ (irange_upper ir_inner)) right_range_upper in
    let new_iranges1 :=
      if left_range_upper <? irange_lower ir_inner
      then lappend_irange new_iranges
             (make_irange left_range_lower left_range_upper true)
      else new_iranges in
    if irange_upper ir_inner <? right_range_lower
    then (make_irange right_range_lower right_range_upper true,
          lappend_irange new_iranges1 ir_inner)
    else (ir_inner, new_iranges1).

(* Calculate union of two IndexRanges, return rightmost IndexRange *)
Definition irange_union_internal
    (first0 second0 : IndexRange) (new_iranges : list IndexRange)
  : IndexRange * list IndexRange :=
  (* Swap 'first' and 'second' if order is incorrect *)
  let swap := irange_lower second0 <? irange_lower first0 in
  let first := if swap then second0 else first0 in
  let second := if swap then first0 else second0 in
  if iranges_intersect first second then
    let ir_union := irange_union_simple first second in
    if Bool.eqb (is_irange_lossy first) (is_irange_lossy second)
    then (ir_union, new_iranges)
    else if irange_eq_bounds ir_union first
    then irange_handle_cover_internal first second new_iranges
    else if irange_eq_bounds ir_union second
    then irange_handle_cover_internal second first new_iranges
    else if negb (is_irange_lossy first)
    then (make_irange (irb_succ (irange_upper first)) (irange_upper second)
                      (is_irange_lossy second),
          lappend_irange new_iranges first)
    else (second,
          lappend_irange new_iranges
            (make_irange (irange_lower first) (irb_pred (irange_lower second))
                         (is_irange_lossy first)))
  else
    if is_eq_lossiness (irange_cmp_lossiness first second)
       && iranges_adjoin first second
    then (irange_union_simple first second, new_iranges)
    else (second, lappend_irange new_iranges first).

(* One turn of the loop of [irange_list_union] once [next] is fetched:
   [cur] takes [next] when it holds nothing yet, otherwise the two are
   united. *)
Definition union_step (next : IndexRange)
    (st : IndexRange * list IndexRange) : IndexRange * list IndexRange :=
  let '(cur, result) := st in
  if negb (is_irange_valid cur) then (next, result)
  else irange_union_internal cur next result.

(* The [while (ca || cb)] loop of [irange_list_union], on the two cursors
   and the pair ([cur], [result]). *)
Fixpoint union_loop (ca : list IndexRange)
  : list IndexRange -> IndexRange * list IndexRange ->
    IndexRange * list IndexRange :=
  fix union_loop_b (cb : list IndexRange)
      (st : IndexRange * list IndexRange) {struct cb} :=
    match ca, cb with
    | ra :: ca', rb :: cb' =>
        if irange_lower ra <=? irange_lower rb
        then union_loop ca' cb (union_step ra st)
        else union_loop_b cb' (union_step rb st)
    | ra :: ca', [] => union_loop ca' [] (union_step ra st)
    | [], rb :: cb' => union_loop_b cb' (union_step rb st)
    | [], [] => st
    end.

(* Make union of two index range lists. *)
Definition irange_list_union (a b : list IndexRange) : list IndexRange :=
  let '(cur, result) := union_loop a b (InvalidIndexRange, []) in
  if is_irange_valid cur then lappend_irange result cur else result.

(* [llast_irange] and the assignment to [llast(result)]. *)
Definition llast_irange (l : list IndexRange) : IndexRange :=
  List.last l InvalidIndexRange.

Definition set_llast (l : list IndexRange) (r : IndexRange)
  : list IndexRange := List.removelast l ++ [r].

(* What one turn of the loop of [irange_list_intersection] does to
   [result] for the ranges [ra] and [rb] under the cursors. *)
Definition intersection_step (ra rb : IndexRange)
    (result : list IndexRange) : list IndexRange :=
  if iranges_intersect ra rb then
    let intersect := irange_intersection_simple ra rb in
    match result with
    | [] => lappend_irange result intersect
    | _ :: _ =>
        let last := llast_irange result in
        if iranges_adjoin last intersect
           && Bool.eqb (is_irange_lossy last) (is_irange_lossy intersect)
        then set_llast result (irange_union_simple last intersect)
        else lappend_irange result intersect
    end
  else result.

(* The [while (ca && cb)] loop of [irange_list_intersection]. *)
Fixpoint intersection_loop (ca : list IndexRange)
  : list IndexRange -> list IndexRange -> list IndexRange :=
  fix intersection_loop_b (cb : list IndexRange)
      (result : list IndexRange) {struct cb} :=
    match ca, cb with
    | ra :: ca', rb :: cb' =>
        let result' := intersection_step ra rb result in
        if irange_upper ra <=? irange_upper rb
        then if irange_upper rb <=? irange_upper ra
             then intersection_loop ca' cb' result'
             else intersection_loop ca' cb result'
        else intersection_loop_b cb' result'
    | _, _ => result
    end.

(* Find intersection of two range lists. *)
Definition irange_list_intersection (a b : list IndexRange)
  : list IndexRange := intersection_loop a b [].

(* Find particular index in range list: [None] when [index] is not
   covered, otherwise the lossiness of the first range that covers it. *)
Fixpoint irange_list_find (rangeset : list IndexRange) (index : Z)
  : option bool :=
  match rangeset with
  | [] => None
  | irange :: rest =>
      if (irange_lower irange <=? index) && (index <=? irange_upper irange)
      then Some (is_irange_lossy irange)
      else irange_list_find rest index
  end.


(** *** Validity of range lists and what a list says about an ordinal *)

(** A range of a list is marked valid, has [lower <= upper] and bounds that
    fit a boundary field. *)
Definition irange_wf (r : IndexRange) : Prop :=
  is_irange_valid r = true /\
  0 <= irange_lower r /\ irange_lower r <= irange_upper r /\
  irange_upper r <= IRANGE_BOUNDARY_MASK.

(** A valid range list: well-formed ranges, sorted by lower bound, no two
    of them overlapping. *)
Definition irange_list_valid (l : list IndexRange) : Prop :=
  Forall irange_wf l /\
  StronglySorted (fun r r' => irange_lower r <= irange_lower r') l /\
  ForallOrdPairs (fun r r' => iranges_intersect r r' = false) l.

(** The same, decided. *)
Fixpoint irange_list_validb (l : list IndexRange) : bool :=
  match l with
  | [] => true
  | r :: rest =>
      is_irange_valid r && (0 <=? irange_lower r)
      && (irange_lower r <=? irange_upper r)
      && (irange_upper r <=? IRANGE_BOUNDARY_MASK)
      && forallb (fun r' => (irange_lower r <=? irange_lower r')
                            && negb (iranges_intersect r r')) rest
      && irange_list_validb rest
  end.

(** [r] ends before [r'] starts. *)
Definition irange_before (r r' : IndexRange) : Prop :=
  irange_upper r < irange_lower r'.

(** Working form of validity: every range ends before the later ones
    start. *)
Fixpoint ordered (l : list IndexRange) : Prop :=
  match l with
  | [] => True
  | r :: rest => irange_wf r /\ Forall (irange_before r) rest /\ ordered rest
  end.

(** Lossiness of an ordinal in the union of two lists, from what each list
    says about it: AND when both cover it, otherwise the one that does. *)
Definition union_lossiness (x y : option bool) : option bool :=
  match x, y with
  | Some la, Some lb => Some (la && lb)
  | Some la, None => Some la
  | None, _ => y
  end.

(** Lossiness of an ordinal in the intersection: covered by both, OR. *)
Definition intersection_lossiness (x y : option bool) : option bool :=
  match x, y with
  | Some la, Some lb => Some (la || lb)
  | _, _ => None
  end.

(** [i] lies within the bounds of [r]. *)
Definition irange_covers (r : IndexRange) (i : Z) : Prop :=
  irange_lower r <= i <= irange_upper r.

(** *** Notions used in the proofs *)

(** What [irange_union_internal] does with the accumulator [c] and the next
    range [n]: the ranges it appends ([emitted]) followed by the range it
    returns ([ret]) are ordered, say about every ordinal what [c] and [n]
    say together, and start no earlier than [c]; [ret] starts no later than
    [n], or right after the part [c] and [n] share; [ret] lies within [c]
    and [n]. *)
Record union_step_spec (c n ret : IndexRange) (emitted : list IndexRange)
  : Prop := {
  uss_ordered : ordered (emitted ++ [ret]);
  uss_find :
    forall i, irange_list_find (emitted ++ [ret]) i =
      union_lossiness (irange_list_find [c] i) (irange_list_find [n] i);
  uss_lower :
    Forall (fun r => irange_lower c <= irange_lower r) (emitted ++ [ret]);
  uss_ret_lower :
    irange_lower ret <= irange_lower n \/
    (irange_lower n <= Z.min (irange_upper c) (irange_upper n) /\
     irange_lower ret = Z.min (irange_upper c) (irange_upper n) + 1);
  uss_ret_covers :
    forall i, irange_covers ret i -> irange_covers c i \/ irange_covers n i
}.

(** The list [irange_list_union] would return from the state ([cur],
    [result]) of its loop: "put current value into result list if any". *)
Definition flush (st : IndexRange * list IndexRange) : list IndexRange :=
  if is_irange_valid (fst st) then lappend_irange (snd st) (fst st)
  else snd st.

(** No ordinal of [cur] is covered by a range of [a] and by a range of [b]
    at once. *)
Definition no_triple (cur : IndexRange) (a b : list IndexRange) : Prop :=
  forall ra rb i, In ra a -> In rb b ->
    irange_covers cur i -> irange_covers ra i -> irange_covers rb i -> False.

(** Invariant of the loop of [irange_list_union], on the ranges [a] and [b]
    still to fetch: once the accumulator holds a range, the flushed ranges
    and the accumulator are ordered, the accumulator starts no later than
    any range to come, and it shares no ordinal with both inputs. *)
Definition union_inv (a b : list IndexRange)
    (st : IndexRange * list IndexRange) : Prop :=
  ordered a /\ ordered b /\
  if is_irange_valid (fst st) then
    ordered (snd st ++ [fst st]) /\
    Forall (fun n => irange_lower (fst st) <= irange_lower n) a /\
    Forall (fun n => irange_lower (fst st) <= irange_lower n) b /\
    no_triple (fst st) a b
  else snd st = [].

(** Invariant of the loop of [irange_list_intersection]: every range
    already in [result] ends before any intersection still to come. *)
Definition intersection_inv (a b result : list IndexRange) : Prop :=
  ordered a /\ ordered b /\ ordered result /\
  forall r ra rb, In r result -> In ra a -> In rb b ->
    irange_upper r < Z.max (irange_lower ra) (irange_lower rb).

(** Some range of [l] covers the ordinal [i]. *)
Definition irange_list_covers (l : list IndexRange) (i : Z) : Prop :=
  exists r, In r l /\ irange_covers r i.

(** The lists of the worked example of the spec. *)
Definition example_a : list IndexRange :=
  [make_irange 0 2 false; make_irange 5 5 true].

Definition example_b : list IndexRange := [make_irange 2 4 true].

(** Two coalesced lists whose unions in the two orders are different
    lists. *)
Definition commute_a : list IndexRange :=
  [make_irange 0 0 true; make_irange 1 1 false].

Definition commute_b : list IndexRange :=
  [make_irange 0 0 false; make_irange 1 1 true].

(** *** Further routines of rangeset.c *)

(** Arithmetic on [uint32], and the conversion of a [uint32] to [int] as
    the two's complement machines the extension runs on do it. *)
Definition uint32 (z : Z) : Z := z mod 2 ^ 32.

Definition int_of_uint32 (z : Z) : Z :=
  if z <? 2 ^ 31 then z else z - 2 ^ 32.

(* Get total number of elements in range list *)
Definition irange_list_length (rangeset : list IndexRange) : Z :=
  int_of_uint32
    (fold_left
       (fun result irange =>
          let diff := uint32 (irange_upper irange - irange_lower irange) in
          uint32 (result + uint32 (diff + 1)))
       rangeset 0).

(** The number of ordinals below [n] that [l] covers. *)
Fixpoint count_covered (l : list IndexRange) (n : nat) : Z :=
  match n with
  | O => 0
  | S k =>
      count_covered l k +
      match irange_list_find l (Z.of_nat k) with
      | Some _ => 1
      | None => 0
      end
  end.

(** No two neighbours of the list adjoin with the same lossiness. *)
Fixpoint coalesced (l : list IndexRange) : Prop :=
  match l with
  | [] => True
  | r :: rest =>
      match rest with
      | [] => True
      | r' :: _ =>
          ~ (irange_upper r + 1 = irange_lower r' /\
             is_irange_lossy r = is_irange_lossy r')
      end /\ coalesced rest
  end.

(** Three lists on the ordinals 0..9 for the examples. *)
Definition sample_c : list IndexRange :=
  [make_irange 1 3 true; make_irange 7 9 false].

End RangeSet.

(** ** relation_info.c

    The caches are finite maps from relids; a pointer to a cache entry is
    the relid of the entry, and an assignment through it updates the entry
    in the map, so that what an error leaves behind is what the source
    leaves behind.  Debug logging, relation locks (but for the outcome of
    the conditional lock) and memory contexts are left out: the modelled
    state does not depend on them. *)

Module RelationInfo.

Definition Oid : Type := Z.
Definition InvalidOid : Oid := 0.
Definition OidIsValid (o : Oid) : bool := negb (o =? InvalidOid).
Definition Datum : Type := Z.

(** Expression trees are opaque here and stand in their serialized form
    (the spec treats expression analysis as a black box that yields a
    serialized tree). *)
Definition Node : Type := string.

(** Modelled from the spec: [relation_info.h] is not among the sources.  The
    partitioning method of the spec (hash | range) with the two further
    tags the source uses, [PT_ANY] and [PT_NULL]. *)
Inductive PartType : Type := PT_ANY | PT_HASH | PT_RANGE | PT_NULL.

(** Modelled from the spec: a bound is a finite value or one of the two
    infinity sentinels. *)
Inductive Bound : Type :=
  | MINUS_INFINITY
  | FINITE (value : Datum)
  | PLUS_INFINITY.

Record RangeEntry : Type := mk_range_entry {
  child_oid : Oid;
  min : Bound;
  max : Bound
}.

Record PartBoundInfo : Type := mk_pbin {
  child_rel : Oid;
  pbin_parttype : PartType;
  part_idx : nat;
  range_min : Bound;
  range_max : Bound;
  byval : bool
}.

Inductive PartParentSearch : Type :=
  | PPS_ENTRY_NOT_FOUND
  | PPS_ENTRY_PARENT
  | PPS_ENTRY_PART_PARENT
  | PPS_NOT_SURE.

Inductive find_children_status : Type :=
  | FCS_NO_CHILDREN
  | FCS_COULD_NOT_LOCK
  | FCS_FOUND.

Inductive HASHACTION : Type := HASH_FIND | HASH_ENTER | HASH_REMOVE.

(** Modelled from the spec: the cache entry of a partitioned table
    ([PartRelationInfo] of [relation_info.h]); a null array pointer is
    [None]. *)
Record PartRelationInfo : Type := mk_prel {
  key : Oid;
  valid : bool;
  enable_parent : bool;
  children_count : nat;
  children : option (list Oid);
  ranges : option (list RangeEntry);
  has_null_partition : bool;
  parttype : PartType;
  expr_cstr : option string;
  expr : option Node;
  expr_vars : list Node;
  expr_atts : list Z;
  ev_type : Oid;
  ev_typmod : Z;
  ev_byval : bool;
  ev_len : Z;
  ev_align : Z;
  ev_collid : Oid;
  cmp_proc : Oid;
  hash_proc : Oid
}.

Definition set_valid (v : bool) (prel : PartRelationInfo)
  : PartRelationInfo :=
  mk_prel (key prel) v (enable_parent prel) (children_count prel) (children
    prel) (ranges prel) (has_null_partition prel) (parttype prel) (expr_cstr
    prel) (expr prel) (expr_vars prel) (expr_atts prel) (ev_type prel)
    (ev_typmod prel) (ev_byval prel) (ev_len prel) (ev_align prel)
    (ev_collid prel) (cmp_proc prel) (hash_proc prel).

Definition set_enable_parent (v : bool) (prel : PartRelationInfo)
  : PartRelationInfo :=
  mk_prel (key prel) (valid prel) v (children_count prel) (children prel)
    (ranges prel) (has_null_partition prel) (parttype prel) (expr_cstr prel)
    (expr prel) (expr_vars prel) (expr_atts prel) (ev_type prel) (ev_typmod
    prel) (ev_byval prel) (ev_len prel) (ev_align prel) (ev_collid prel)
    (cmp_proc prel) (hash_proc prel).

Definition set_children_count (v : nat) (prel : PartRelationInfo)
  : PartRelationInfo :=
  mk_prel (key prel) (valid prel) (enable_parent prel) v (children prel)
    (ranges prel) (has_null_partition prel) (parttype prel) (expr_cstr prel)
    (expr prel) (expr_vars prel) (expr_atts prel) (ev_type prel) (ev_typmod
    prel) (ev_byval prel) (ev_len prel) (ev_align prel) (ev_collid prel)
    (cmp_proc prel) (hash_proc prel).

Definition set_children (v : option (list Oid)) (prel : PartRelationInfo)
  : PartRelationInfo :=
  mk_prel (key prel) (valid prel) (enable_parent prel) (children_count prel)
    v (ranges prel) (has_null_partition prel) (parttype prel) (expr_cstr
    prel) (expr prel) (expr_vars prel) (expr_atts prel) (ev_type prel)
    (ev_typmod prel) (ev_byval prel) (ev_len prel) (ev_align prel)
    (ev_collid prel) (cmp_proc prel) (hash_proc prel).

Definition set_ranges (v : option (list RangeEntry)) (prel : PartRelationInfo)
  : PartRelationInfo :=
  mk_prel (key prel) (valid prel) (enable_parent prel) (children_count prel)
    (children prel) v (has_null_partition prel) (parttype prel) (expr_cstr
    prel) (expr prel) (expr_vars prel) (expr_atts prel) (ev_type prel)
    (ev_typmod prel) (ev_byval prel) (ev_len prel) (ev_align prel)
    (ev_collid prel) (cmp_proc prel) (hash_proc prel).

Definition set_has_null_partition (v : bool) (prel : PartRelationInfo)
  : PartRelationInfo :=
  mk_prel (key prel) (valid prel) (enable_parent prel) (children_count prel)
    (children prel) (ranges prel) v (parttype prel) (expr_cstr prel) (expr
    prel) (expr_vars prel) (expr_atts prel) (ev_type prel) (ev_typmod prel)
    (ev_byval prel) (ev_len prel) (ev_align prel) (ev_collid prel) (cmp_proc
    prel) (hash_proc prel).

Definition set_parttype (v : PartType) (prel : PartRelationInfo)
  : PartRelationInfo :=
  mk_prel (key prel) (valid prel) (enable_parent prel) (children_count prel)
    (children prel) (ranges prel) (has_null_partition prel) v (expr_cstr
    prel) (expr prel) (expr_vars prel) (expr_atts prel) (ev_type prel)
    (ev_typmod prel) (ev_byval prel) (ev_len prel) (ev_align prel)
    (ev_collid prel) (cmp_proc prel) (hash_proc prel).

Definition set_expr_cstr (v : option string) (prel : PartRelationInfo)
  : PartRelationInfo :=
  mk_prel (key prel) (valid prel) (enable_parent prel) (children_count prel)
    (children prel) (ranges prel) (has_null_partition prel) (parttype prel)
    v (expr prel) (expr_vars prel) (expr_atts prel) (ev_type prel)
    (ev_typmod prel) (ev_byval prel) (ev_len prel) (ev_align prel)
    (ev_collid prel) (cmp_proc prel) (hash_proc prel).

Definition set_expr (v : option Node) (prel : PartRelationInfo)
  : PartRelationInfo :=
  mk_prel (key prel) (valid prel) (enable_parent prel) (children_count prel)
    (children prel) (ranges prel) (has_null_partition prel) (parttype prel)
    (expr_cstr prel) v (expr_vars prel) (expr_atts prel) (ev_type prel)
    (ev_typmod prel) (ev_byval prel) (ev_len prel) (ev_align prel)
    (ev_collid prel) (cmp_proc prel) (hash_proc prel).

Definition set_expr_vars (v : list Node) (prel : PartRelationInfo)
  : PartRelationInfo :=
  mk_prel (key prel) (valid prel) (enable_parent prel) (children_count prel)
    (children prel) (ranges prel) (has_null_partition prel) (parttype prel)
    (expr_cstr prel) (expr prel) v (expr_atts prel) (ev_type prel)
    (ev_typmod prel) (ev_byval prel) (ev_len prel) (ev_align prel)
    (ev_collid prel) (cmp_proc prel) (hash_proc prel).

Definition set_expr_atts (v : list Z) (prel : PartRelationInfo)
  : PartRelationInfo :=
  mk_prel (key prel) (valid prel) (enable_parent prel) (children_count prel)
    (children prel) (ranges prel) (has_null_partition prel) (parttype prel)
    (expr_cstr prel) (expr prel) (expr_vars prel) v (ev_type prel)
    (ev_typmod prel) (ev_byval prel) (ev_len prel) (ev_align prel)
    (ev_collid prel) (cmp_proc prel) (hash_proc prel).

Definition set_ev_type (v : Oid) (prel : PartRelationInfo)
  : PartRelationInfo :=
  mk_prel (key prel) (valid prel) (enable_parent prel) (children_count prel)
    (children prel) (ranges prel) (has_null_partition prel) (parttype prel)
    (expr_cstr prel) (expr prel) (expr_vars prel) (expr_atts prel) v
    (ev_typmod prel) (ev_byval prel) (ev_len prel) (ev_align prel)
    (ev_collid prel) (cmp_proc prel) (hash_proc prel).

Definition set_ev_typmod (v : Z) (prel : PartRelationInfo)
  : PartRelationInfo :=
  mk_prel (key prel) (valid prel) (enable_parent prel) (children_count prel)
    (children prel) (ranges prel) (has_null_partition prel) (parttype prel)
    (expr_cstr prel) (expr prel) (expr_vars prel) (expr_atts prel) (ev_type
    prel) v (ev_byval prel) (ev_len prel) (ev_align prel) (ev_collid prel)
    (cmp_proc prel) (hash_proc prel).

Definition set_ev_byval (v : bool) (prel : PartRelationInfo)
  : PartRelationInfo :=
  mk_prel (key prel) (valid prel) (enable_parent prel) (children_count prel)
    (children prel) (ranges prel) (has_null_partition prel) (parttype prel)
    (expr_cstr prel) (expr prel) (expr_vars prel) (expr_atts prel) (ev_type
    prel) (ev_typmod prel) v (ev_len prel) (ev_align prel) (ev_collid prel)
    (cmp_proc prel) (hash_proc prel).

Definition set_ev_len (v : Z) (prel : PartRelationInfo)
  : PartRelationInfo :=
  mk_prel (key prel) (valid prel) (enable_parent prel) (children_count prel)
    (children prel) (ranges prel) (has_null_partition prel) (parttype prel)
    (expr_cstr prel) (expr prel) (expr_vars prel) (expr_atts prel) (ev_type
    prel) (ev_typmod prel) (ev_byval prel) v (ev_align prel) (ev_collid
    prel) (cmp_proc prel) (hash_proc prel).

Definition set_ev_align (v : Z) (prel : PartRelationInfo)
  : PartRelationInfo :=
  mk_prel (key prel) (valid prel) (enable_parent prel) (children_count prel)
    (children prel) (ranges prel) (has_null_partition prel) (parttype prel)
    (expr_cstr prel) (expr prel) (expr_vars prel) (expr_atts prel) (ev_type
    prel) (ev_typmod prel) (ev_byval prel) (ev_len prel) v (ev_collid prel)
    (cmp_proc prel) (hash_proc prel).

Definition set_ev_collid (v : Oid) (prel : PartRelationInfo)
  : PartRelationInfo :=
  mk_prel (key prel) (valid prel) (enable_parent prel) (children_count prel)
    (children prel) (ranges prel) (has_null_partition prel) (parttype prel)
    (expr_cstr prel) (expr prel) (expr_vars prel) (expr_atts prel) (ev_type
    prel) (ev_typmod prel) (ev_byval prel) (ev_len prel) (ev_align prel) v
    (cmp_proc prel) (hash_proc prel).

Definition set_cmp_proc (v : Oid) (prel : PartRelationInfo)
  : PartRelationInfo :=
  mk_prel (key prel) (valid prel) (enable_parent prel) (children_count prel)
    (children prel) (ranges prel) (has_null_partition prel) (parttype prel)
    (expr_cstr prel) (expr prel) (expr_vars prel) (expr_atts prel) (ev_type
    prel) (ev_typmod prel) (ev_byval prel) (ev_len prel) (ev_align prel)
    (ev_collid prel) v (hash_proc prel).

Definition set_hash_proc (v : Oid) (prel : PartRelationInfo)
  : PartRelationInfo :=
  mk_prel (key prel) (valid prel) (enable_parent prel) (children_count prel)
    (children prel) (ranges prel) (has_null_partition prel) (parttype prel)
    (expr_cstr prel) (expr prel) (expr_vars prel) (expr_atts prel) (ev_type
    prel) (ev_typmod prel) (ev_byval prel) (ev_len prel) (ev_align prel)
    (ev_collid prel) (cmp_proc prel) v.

(** A row of the configuration table as [pathman_config_contains_relation]
    hands it out in [values]/[isnull]. *)
Record PathmanConfigRow : Type := mk_config_row {
  cfg_parttype : PartType;
  cfg_expr : string;
  cfg_cooked_expr : string;
  cfg_cooked_expr_isnull : bool
}.

Record TypeCacheEntry : Type := mk_typcache {
  typbyval : bool;
  typlen : Z;
  typalign : Z;
  tc_cmp_proc : Oid;
  tc_hash_proc : Oid
}.

(** What the catalog says about the check constraint of a partition:
    [get_relation_constraint_oid] finds none, the constraint has a null
    [conbin], or there is an expression tree. *)
Inductive ConstraintLookup : Type :=
  | NoConstraint
  | NullConbin
  | ConstraintExpr (e : Node).

(** The caches [init.c] owns, and the switch that [DisablePathman] turns
    off. *)
Record PathmanCaches : Type := mk_caches {
  partitioned_rels : gmap Z PartRelationInfo;
  parent_cache : gmap Z Oid;
  bound_cache : gmap Z PartBoundInfo;
  pg_pathman_enable : bool
}.

(** The file-static variables of [relation_info.c] together with the
    caches. *)
Record PathmanState : Type := mk_state {
  delayed_invalidation_parent_rels : list Oid;
  delayed_invalidation_vague_rels : list Oid;
  delayed_shutdown : bool;
  caches : PathmanCaches
}.

(** The host database and the other files of the extension, as far as the
    routines below call them.  None of them touches the state above, apart
    from [unload_config] which works on the caches. *)
Record Backend : Type := mk_backend {
  IsTransactionState : bool;
  (* the pg_pathman.enable_bounds_cache setting *)
  pg_pathman_enable_bounds_cache : bool;
  (* whether the lock is granted without waiting *)
  ConditionalLockRelationOid : Oid -> bool;
  (* SearchSysCacheExists1(RELOID, relid) *)
  SearchSysCacheExists_RELOID : Oid -> bool;
  (* the row of PATHMAN_CONFIG for the relation, if any *)
  pathman_config_contains_relation : Oid -> option PathmanConfigRow;
  pathman_config_refresh_parsed_expression :
    Oid -> PathmanConfigRow -> PathmanConfigRow;
  stringToNode : string -> Node;
  (* bms_singleton_member(pull_varnos(expr)) == PART_EXPR_VARNO *)
  expr_references_one_table : Node -> bool;
  pull_var_clause : Node -> list Node;
  pull_varattnos : list Node -> list Z;
  exprType : Node -> Oid;
  (* typtypmod and typcollation of the pg_type tuple, if there is one *)
  SearchSysCache_TYPEOID : Oid -> option (Z * Oid);
  lookup_type_cache : Oid -> TypeCacheEntry;
  (* find_inheritance_children_array(relid, lockmode, nowait, ...): the
     status and the children *)
  find_inheritance_children_array :
    Oid -> bool -> find_children_status * list Oid;
  (* 'enable_parent' of PATHMAN_CONFIG_PARAMS, if there is a row *)
  read_pathman_params : Oid -> option bool;
  DEFAULT_ENABLE_PARENT : bool;
  partition_constraint : Oid -> ConstraintLookup;
  (* IsA(expr, NullTest) *)
  IsA_NullTest : Node -> bool;
  (* the hash index of a constraint of the canonical HASH form *)
  validate_hash_constraint : Node -> PartRelationInfo -> option nat;
  (* the bounds (null when absent) of a constraint of the canonical RANGE
     form *)
  validate_range_constraint :
    Node -> PartRelationInfo -> option (option Datum * option Datum);
  PrelRangePartitionsCount : PartRelationInfo -> nat;
  (* qsort_arg() with cmp_range_entries on the cmp_proc and collation of
     the entry *)
  qsort_range_entries :
    PartRelationInfo -> list RangeEntry -> list RangeEntry;
  get_rel_namespace : Oid -> Oid;
  IsToastNamespace : Oid -> bool;
  (* get_relname_relid(PATHMAN_CONFIG, get_pathman_schema()) *)
  cur_pathman_config_relid : Oid;
  (* get_pathman_config_relid(true): the relid the configuration was
     loaded with *)
  get_pathman_config_relid : Oid;
  unload_config : PathmanCaches -> PathmanCaches;
  (* inhparent of the pg_inherits row of a relation, if any *)
  inherits_parent : Oid -> option Oid;
  (* what a fresh hash entry and a fresh stack variable happen to hold *)
  uninitialized_prel : Oid -> PartRelationInfo;
  uninitialized_pbin : PartBoundInfo;
  (* whether the extension is built with USE_ASSERT_CHECKING, which
     compiles in the check at the end of fill_prel_with_partitions; the
     Assert()s state what the code expects of its callers and are not
     part of the model *)
  USE_ASSERT_CHECKING : bool
}.

(** *** Errors and state *)

(** How a routine ends: it returns, [elog(ERROR)] unwinds it, or the
    process dereferences a null pointer. *)
Inductive outcome (A : Type) : Type :=
  | Done (a : A)
  | Raised (msg : string)
  | Crashed.
Arguments Done {A} a.
Arguments Raised {A} msg.
Arguments Crashed {A}.

Definition Pathman (A : Type) : Type :=
  PathmanState -> PathmanState * outcome A.

#[export] Instance pathman_ret : MRet Pathman :=
  fun A (a : A) st => (st, Done a).

#[export] Instance pathman_bind : MBind Pathman :=
  fun A B (k : A -> Pathman B) (m : Pathman A) st =>
    match m st with
    | (st', Done a) => k a st'
    | (st', Raised msg) => (st', Raised msg)
    | (st', Crashed) => (st', Crashed)
    end.

(* elog(ERROR, ...) / ereport(ERROR, ...) *)
Definition elog_ERROR {A : Type} (msg : string) : Pathman A :=
  fun st => (st, Raised msg).

Definition null_dereference {A : Type} : Pathman A :=
  fun st => (st, Crashed).

Definition get_state : Pathman PathmanState := fun st => (st, Done st).

Definition modify_state (f : PathmanState -> PathmanState) : Pathman unit :=
  fun st => (f st, Done tt).

(* PG_TRY(); { body } PG_CATCH(); { handler; PG_RE_THROW(); } PG_END_TRY(); *)
Definition PG_TRY_CATCH_RETHROW {A : Type}
    (body : Pathman A) (handler : Pathman unit) : Pathman A :=
  fun st =>
    match body st with
    | (st', Raised msg) =>
        match handler st' with
        | (st'', Done _) => (st'', Raised msg)
        | (st'', Raised msg') => (st'', Raised msg')
        | (st'', Crashed) => (st'', Crashed)
        end
    | r => r
    end.

Definition with_caches (f : PathmanCaches -> PathmanCaches)
    (st : PathmanState) : PathmanState :=
  mk_state (delayed_invalidation_parent_rels st)
           (delayed_invalidation_vague_rels st)
           (delayed_shutdown st) (f (caches st)).

Definition with_partitioned_rels
    (f : gmap Z PartRelationInfo -> gmap Z PartRelationInfo)
    (c : PathmanCaches) : PathmanCaches :=
  mk_caches (f (partitioned_rels c)) (parent_cache c) (bound_cache c)
            (pg_pathman_enable c).

Definition with_parent_cache (f : gmap Z Oid -> gmap Z Oid)
    (c : PathmanCaches) : PathmanCaches :=
  mk_caches (partitioned_rels c) (f (parent_cache c)) (bound_cache c)
            (pg_pathman_enable c).

Definition with_bound_cache
    (f : gmap Z PartBoundInfo -> gmap Z PartBoundInfo)
    (c : PathmanCaches) : PathmanCaches :=
  mk_caches (partitioned_rels c) (parent_cache c) (f (bound_cache c))
            (pg_pathman_enable c).

(** Modelled from the spec: [DisablePathman()] of [init.h] disables the
    extension's active hooks. *)
Definition DisablePathman : Pathman unit :=
  modify_state (with_caches (fun c =>
    mk_caches (partitioned_rels c) (parent_cache c) (bound_cache c) false)).

(** The entry of [relid] in [partitioned_rels], when there is one. *)
Definition lookup_prel (relid : Oid) (st : PathmanState)
  : option PartRelationInfo := partitioned_rels (caches st) !! relid.

(** An assignment [prel->field = v] through the pointer to the entry of
    [relid]. *)
Definition assign_prel (relid : Oid)
    (f : PartRelationInfo -> PartRelationInfo) : Pathman unit :=
  modify_state (with_caches (with_partitioned_rels (alter f relid))).

(** A read through the pointer to the entry of [relid]; a pointer to an
    entry that is gone reads whatever is there. *)
Definition read_prel (E : Backend) (relid : Oid)
  : Pathman PartRelationInfo :=
  fun st => (st, Done (default (uninitialized_prel E relid)
                               (lookup_prel relid st))).

(* PrelIsValid(prel): prel && prel->valid *)
Definition PrelIsValid (prel : option PartRelationInfo) : bool :=
  match prel with
  | Some p => valid p
  | None => false
  end.

(** Modelled from the spec: [FreeChildrenArray] and [FreeRangesArray] of
    [relation_info.h] free the array and leave a null pointer ("arrays
    freed"). *)
Definition FreeChildrenArray (relid : Oid) : Pathman unit :=
  assign_prel relid (set_children None).

Definition FreeRangesArray (relid : Oid) : Pathman unit :=
  assign_prel relid (set_ranges None).

(** Modelled from the spec: [FreeIfNotNull] of [relation_info.h] is not
    among the sources.  The spec has the entry own its expression and
    speaks of freeing what an entry holds; as the two macros above do for
    the arrays, [FreeIfNotNull(prel->field)] frees what the pointer holds
    and leaves a null pointer.  [clear] is the assignment of the null
    pointer to the field. *)
Definition FreeIfNotNull (relid : Oid)
    (clear : PartRelationInfo -> PartRelationInfo) : Pathman unit :=
  assign_prel relid clear.

(* Invalidate PartRelationInfo cache entry. Create new entry if 'found' is
   NULL.  [found] tells whether the out-parameter is given; the result is
   the entry pointer (the relid when it is not null) and [prel_found]. *)
Definition invalidate_pathman_relation_info (E : Backend)
    (relid : Oid) (found : bool) : Pathman (option Oid * bool) :=
  let action := if found then HASH_FIND else HASH_ENTER in
  st ← get_state;
  let prel_found := bool_decide (is_Some (lookup_prel relid st)) in
  (* pathman_cache_search_relid(partitioned_rels, relid, action, ...) *)
  match action with
  | HASH_ENTER =>
      if prel_found then mret tt
      else modify_state (with_caches (with_partitioned_rels
             (insert relid (uninitialized_prel E relid))))
  | _ => mret tt
  end;;
  st ← get_state;
  let prel := lookup_prel relid st in
  (if match action with
      | HASH_FIND => PrelIsValid prel
      | HASH_ENTER => prel_found && PrelIsValid prel
      | HASH_REMOVE => false
      end
   then
     FreeChildrenArray relid;;
     FreeRangesArray relid;;
     FreeIfNotNull relid (set_expr_cstr None);;
     assign_prel relid (set_valid false)
   else if bool_decide (is_Some prel) then
     assign_prel relid (set_children None);;
     assign_prel relid (set_ranges None);;
     assign_prel relid (set_valid false)
   else mret tt);;
  mret (if bool_decide (is_Some prel) then Some relid else None, prel_found).

(* Remove PartRelationInfo from local cache. *)
Definition remove_pathman_relation_info (E : Backend) (relid : Oid)
  : Pathman unit :=
  '(_, found) ← invalidate_pathman_relation_info E relid true;
  if found : bool
  then modify_state (with_caches (with_partitioned_rels (delete relid)))
  else mret tt.

(* Create "partition+parent" pair in local cache *)
Definition cache_parent_of_partition (partition parent : Oid)
  : Pathman unit :=
  modify_state (with_caches (with_parent_cache (insert partition parent))).

(* Try to find parent of a partition using syscache & PATHMAN_CONFIG *)
Definition try_syscache_parent_search (E : Backend) (partition : Oid)
  : Pathman (Oid * PartParentSearch) :=
  if negb (IsTransactionState E) then mret (InvalidOid, PPS_NOT_SURE)
  else
    match inherits_parent E partition with
    | Some parent =>
        if bool_decide (is_Some (pathman_config_contains_relation E parent))
        then mret (parent, PPS_ENTRY_PART_PARENT)
        else mret (parent, PPS_ENTRY_PARENT)
    | None => mret (InvalidOid, PPS_ENTRY_NOT_FOUND)
    end.

(* Get [and remove] "partition+parent" pair from cache, also check syscache
   if 'status' is provided.  [status] tells whether the out-parameter is
   given; what is stored through it comes back with the parent. *)
Definition get_parent_of_partition_internal (E : Backend)
    (partition : Oid) (status : bool) (action : HASHACTION)
  : Pathman (Oid * option PartParentSearch) :=
  st ← get_state;
  let ppar := parent_cache (caches st) !! partition in
  match action with
  | HASH_REMOVE | HASH_FIND => mret tt
  | HASH_ENTER => elog_ERROR "Unexpected HTAB action"
  end;;
  match ppar with
  | Some parent =>
      match action with
      | HASH_REMOVE =>
          modify_state (with_caches (with_parent_cache (delete partition)))
      | _ => mret tt
      end;;
      mret (parent, if status then Some PPS_ENTRY_PART_PARENT else None)
  | None =>
      if status then
        '(parent, search) ← try_syscache_parent_search E partition;
        mret (parent, Some search)
      else mret (InvalidOid, None)
  end.

(* Remove "partition+parent" pair from cache & return parent's Oid *)
Definition forget_parent_of_partition (E : Backend)
    (partition : Oid) (status : bool)
  : Pathman (Oid * option PartParentSearch) :=
  get_parent_of_partition_internal E partition status HASH_REMOVE.

(* Return partition parent's Oid *)
Definition get_parent_of_partition (E : Backend)
    (partition : Oid) (status : bool)
  : Pathman (Oid * option PartParentSearch) :=
  get_parent_of_partition_internal E partition status HASH_FIND.

(* Get constraint expression tree of a partition; a null result is
   [None]. *)
Definition get_partition_constraint_expr (E : Backend) (partition : Oid)
  : Pathman (option Node) :=
  match partition_constraint E partition with
  | NoConstraint =>
      DisablePathman;; (* disable pg_pathman since config is broken *)
      elog_ERROR "constraint of partition does not exist"
  | NullConbin =>
      DisablePathman;; (* disable pg_pathman since config is broken *)
      (* ereport(WARNING, ...) *)
      mret None (* could not parse *)
  | ConstraintExpr e => mret (Some e)
  end.

Definition set_pbin_parttype (v : PartType) (pbin : PartBoundInfo)
  : PartBoundInfo :=
  mk_pbin (child_rel pbin) v (part_idx pbin) (range_min pbin)
          (range_max pbin) (byval pbin).

Definition set_part_idx (v : nat) (pbin : PartBoundInfo) : PartBoundInfo :=
  mk_pbin (child_rel pbin) (pbin_parttype pbin) v (range_min pbin)
          (range_max pbin) (byval pbin).

Definition set_range_bounds (lo hi : Bound) (pbin : PartBoundInfo)
  : PartBoundInfo :=
  mk_pbin (child_rel pbin) (pbin_parttype pbin) (part_idx pbin) lo hi
          (byval pbin).

(* Fill PartBoundInfo with bounds/hash; the filled [pbin] is returned. *)
Definition fill_pbin_with_bounds (E : Backend) (pbin : PartBoundInfo)
    (prel : PartRelationInfo) (constraint_expr : option Node)
  : Pathman PartBoundInfo :=
  match constraint_expr with
  | None => null_dereference (* IsA() reads the node tag *)
  | Some e =>
      if IsA_NullTest E e then
        (* we're done here *)
        mret (set_pbin_parttype PT_NULL pbin)
      else
        let pbin := set_pbin_parttype (parttype prel) pbin in
        match parttype prel with
        | PT_HASH =>
            match validate_hash_constraint E e prel with
            | Some idx => mret (set_part_idx idx pbin)
            | None =>
                DisablePathman;;
                elog_ERROR "wrong constraint format for HASH partition"
            end
        | PT_RANGE =>
            match validate_range_constraint E e prel with
            | Some (lower, upper) =>
                mret (set_range_bounds
                        (match lower with
                         | None => MINUS_INFINITY
                         | Some v => FINITE v
                         end)
                        (match upper with
                         | None => PLUS_INFINITY
                         | Some v => FINITE v
                         end) pbin)
            | None =>
                DisablePathman;;
                elog_ERROR "wrong constraint format for RANGE partition"
            end
        | _ =>
            DisablePathman;;
            elog_ERROR "Unknown partitioning type" (* WrongPartType *)
        end
  end.

(* Return partition's constraint as expression tree *)
Definition get_bounds_of_partition (E : Backend) (partition : Oid)
    (prel : PartRelationInfo) : Pathman PartBoundInfo :=
  st ← get_state;
  let pbin :=
    if pg_pathman_enable_bounds_cache E
    then bound_cache (caches st) !! partition
    else None in
  match pbin with
  | Some pbin => mret pbin
  | None =>
      (* Build new entry *)
      let pbin_local :=
        mk_pbin partition (pbin_parttype (uninitialized_pbin E))
                (part_idx (uninitialized_pbin E))
                (range_min (uninitialized_pbin E))
                (range_max (uninitialized_pbin E)) (ev_byval prel) in
      con_expr ← get_partition_constraint_expr E partition;
      pbin_local ← fill_pbin_with_bounds E pbin_local prel con_expr;
      (if pg_pathman_enable_bounds_cache E
       then modify_state (with_caches (with_bound_cache
              (insert partition pbin_local)))
       else mret tt);;
      mret pbin_local
  end.

(** [array[i] = v] on an array that is there; a store outside the array
    (excluded in the source by an [Assert]) is left out. *)
Definition store {A : Type} (i : nat) (v : A) (array : list A) : list A :=
  <[i := v]> array.

(* prel->children[i] = v: the store goes through the array pointer of the
   entry; through a null pointer the process crashes. *)
Definition store_child (E : Backend) (relid : Oid) (i : nat) (v : Oid)
  : Pathman unit :=
  prel ← read_prel E relid;
  match children prel with
  | None => null_dereference
  | Some _ =>
      assign_prel relid (fun p => set_children (store i v <$> children p) p)
  end.

(* prel->ranges[i] = v, as above *)
Definition store_range (E : Backend) (relid : Oid) (i : nat) (v : RangeEntry)
  : Pathman unit :=
  prel ← read_prel E relid;
  match ranges prel with
  | None => null_dereference
  | Some _ =>
      assign_prel relid (fun p => set_ranges (store i v <$> ranges p) p)
  end.

Definition set_range_child_oid (v : Oid) (re : RangeEntry) : RangeEntry :=
  mk_range_entry v (min re) (max re).

Definition zero_range_entry : RangeEntry :=
  mk_range_entry InvalidOid (FINITE 0) (FINITE 0).

(* Turn [i] of the loop "Initialize bounds of partitions" of
   [fill_prel_with_partitions], for [partitions[i]]. *)
Definition fill_prel_turn (E : Backend) (relid : Oid) (parts_count : nat)
    (i : nat) (partition : Oid) : Pathman unit :=
  prel ← read_prel E relid;
  (* Fetch constraint's expression tree *)
  bound_info ← get_bounds_of_partition E partition prel;
  (* Copy bounds from bound cache *)
  match pbin_parttype bound_info with
  | PT_NULL =>
      (* last item in children will contain NULL partition *)
      store_child E relid (parts_count - 1) (child_rel bound_info);;
      assign_prel relid (set_has_null_partition true)
  | PT_HASH =>
      store_child E relid (part_idx bound_info) (child_rel bound_info)
  | PT_RANGE =>
      (if (PrelRangePartitionsCount E prel <=? i)%nat
       then elog_ERROR "range array overflow"
       else mret tt);;
      store_range E relid i
        (mk_range_entry (child_rel bound_info) (range_min bound_info)
                        (range_max bound_info))
  | PT_ANY =>
      DisablePathman;; (* disable pg_pathman since config is broken *)
      elog_ERROR "Unknown partitioning type" (* WrongPartType *)
  end.

(* The loop itself, from index [i] on. *)
Fixpoint fill_prel_loop (E : Backend) (relid : Oid) (parts_count : nat)
    (i : nat) (partitions : list Oid) : Pathman unit :=
  match partitions with
  | [] => mret tt
  | partition :: rest =>
      fill_prel_turn E relid parts_count i partition;;
      fill_prel_loop E relid parts_count (S i) rest
  end.

(* The loop of the USE_ASSERT_CHECKING block of
   [fill_prel_with_partitions] over the slots of 'prel->children'. *)
Fixpoint check_children_assigned (slots : list Oid) : Pathman unit :=
  match slots with
  | [] => mret tt
  | child :: rest =>
      (if negb (OidIsValid child)
       then
         DisablePathman;; (* disable pg_pathman since config is broken *)
         elog_ERROR
           "pg_pathman's cache for relation has not been properly initialized"
       else mret tt);;
      check_children_assigned rest
  end.

(* Fill PartRelationInfo with partition-related info *)
Definition fill_prel_with_partitions (E : Backend) (relid : Oid)
    (partitions : list Oid) (parts_count : nat) : Pathman unit :=
  (* Allocate memory for 'prel->children' & 'prel->ranges' (if needed) *)
  assign_prel relid (set_children (Some (replicate parts_count InvalidOid)));;
  assign_prel relid (set_ranges None);;
  assign_prel relid (set_has_null_partition false);;
  (* Set number of children *)
  assign_prel relid (set_children_count parts_count);;
  prel ← read_prel E relid;
  (match parttype prel with
   | PT_RANGE =>
       assign_prel relid (set_ranges
         (Some (replicate (PrelRangePartitionsCount E prel)
                          zero_range_entry)))
   | _ => mret tt
   end);;
  (* Initialize bounds of partitions *)
  fill_prel_loop E relid parts_count 0 (take parts_count partitions);;
  (* Finalize 'prel' for a RANGE-partitioned table *)
  prel ← read_prel E relid;
  match parttype prel with
  | PT_RANGE =>
      (* Sort partitions by RangeEntry->min asc *)
      assign_prel relid (fun p =>
        set_ranges
          ((fun l =>
              qsort_range_entries E p (take (PrelRangePartitionsCount E p) l)
              ++ drop (PrelRangePartitionsCount E p) l) <$> ranges p) p);;
      (* Initialize 'prel->children' array *)
      assign_prel relid (fun p =>
        set_children
          ((fun ch =>
              foldl (fun ch '(i, re) => <[i := child_oid re]> ch) ch
                    (imap (fun i re => (i, re))
                       (take (PrelRangePartitionsCount E p)
                             (default [] (ranges p)))))
           <$> children p) p)
  | _ => mret tt
  end;;
  (* Check that each partition Oid has been assigned properly *)
  if USE_ASSERT_CHECKING E then
    prel ← read_prel E relid;
    match parttype prel with
    | PT_HASH =>
        match children prel with
        | Some slots =>
            check_children_assigned (take (children_count prel) slots)
        | None =>
            if (children_count prel =? 0)%nat then mret tt
            else null_dereference
        end
    | _ => mret tt
    end
  else mret tt.

(* The PG_TRY block of [refresh_pathman_relation_info]:
   fill 'prel' with partition info, raise ERROR if anything is wrong. *)
Definition fill_prel_guarded (E : Backend) (relid : Oid)
    (prel_children : list Oid) : Pathman unit :=
  PG_TRY_CATCH_RETHROW
    (fill_prel_with_partitions E relid prel_children (length prel_children))
    ((* Free remaining resources *)
     FreeChildrenArray relid;;
     FreeRangesArray relid;;
     FreeIfNotNull relid (set_expr_cstr None);;
     FreeIfNotNull relid (set_expr None)).

(* refresh PartRelationInfo: the entry pointer that is returned is the
   relid, [None] for a null pointer. *)
Definition refresh_pathman_relation_info (E : Backend) (relid : Oid)
    (values : PathmanConfigRow) (allow_incomplete : bool)
  : Pathman (option Oid) :=
  _ ← invalidate_pathman_relation_info E relid false;
  (* Try locking parent, exit fast if 'allow_incomplete' *)
  if allow_incomplete && negb (ConditionalLockRelationOid E relid)
  then mret None (* leave an invalid entry *)
  else
  (* Check if parent exists *)
  if negb (SearchSysCacheExists_RELOID E relid)
  then
    (* Nope, it doesn't, remove this entry and exit *)
    remove_pathman_relation_info E relid;;
    mret None
  else
  (* Make both arrays point to NULL *)
  assign_prel relid (set_children None);;
  assign_prel relid (set_ranges None);;
  (* Set partitioning type *)
  assign_prel relid (set_parttype (cfg_parttype values));;
  (* Fetch cooked partitioning expression *)
  let expr := cfg_cooked_expr values in
  (* Build partitioning expression tree *)
  assign_prel relid (set_expr_cstr (Some (cfg_expr values)));;
  assign_prel relid (set_expr (Some (stringToNode E expr)));;
  (if negb (expr_references_one_table E (stringToNode E expr))
   then elog_ERROR "partitioning expression may reference only one table"
   else mret tt);;
  (* Extract Vars and varattnos of partitioning expression *)
  assign_prel relid (set_expr_vars []);;
  assign_prel relid (set_expr_atts []);;
  assign_prel relid (set_expr_vars (pull_var_clause E (stringToNode E expr)));;
  assign_prel relid (set_expr_atts
    (pull_varattnos E (pull_var_clause E (stringToNode E expr))));;
  (* First, fetch type of partitioning expression *)
  let ev_type := exprType E (stringToNode E expr) in
  assign_prel relid (set_ev_type ev_type);;
  match SearchSysCache_TYPEOID E ev_type with
  | Some (typtypmod, typcollation) =>
      assign_prel relid (set_ev_typmod typtypmod);;
      assign_prel relid (set_ev_collid typcollation)
  | None => elog_ERROR "cache lookup failed for type"
  end;;
  (* Fetch HASH & CMP fuctions and other stuff from type cache *)
  let typcache := lookup_type_cache E ev_type in
  assign_prel relid (set_ev_byval (typbyval typcache));;
  assign_prel relid (set_ev_len (typlen typcache));;
  assign_prel relid (set_ev_align (typalign typcache));;
  assign_prel relid (set_cmp_proc (tc_cmp_proc typcache));;
  assign_prel relid (set_hash_proc (tc_hash_proc typcache));;
  (* Try searching for children (don't wait if we can't lock) *)
  match find_inheritance_children_array E relid allow_incomplete with
  | (FCS_NO_CHILDREN, _) =>
      (* If there's no children at all, remove this entry *)
      remove_pathman_relation_info E relid;;
      mret None
  | (FCS_COULD_NOT_LOCK, _) =>
      (* If can't lock children, leave an invalid entry *)
      mret None
  | (FCS_FOUND, prel_children) =>
      fill_prel_guarded E relid prel_children;;
      (* Peform some actions for each child *)
      foldr (fun child rest =>
               (* Add "partition+parent" pair to cache *)
               cache_parent_of_partition child relid;; rest)
            (mret tt) prel_children;;
      (* Read additional parameters ('enable_parent' at the moment) *)
      match read_pathman_params E relid with
      | Some enable_parent =>
          assign_prel relid (set_enable_parent enable_parent)
      | None => assign_prel relid (set_enable_parent (DEFAULT_ENABLE_PARENT E))
      end;;
      (* We've successfully built a cache entry *)
      assign_prel relid (set_valid true);;
      mret (Some relid)
  end.

(** What a rebuilt entry holds once [refresh_pathman_relation_info] is
    through: the method and expression of the configuration row, the type
    data of the expression, a children array of [children_count] slots, a
    ranges array for a RANGE table, and the [enable_parent] parameter. *)
Definition populated (E : Backend) (relid : Oid)
    (values : PathmanConfigRow) (allow_incomplete : bool)
    (p : PartRelationInfo) : Prop :=
  let e := stringToNode E (cfg_cooked_expr values) in
  let typcache := lookup_type_cache E (exprType E e) in
  parttype p = cfg_parttype values /\
  expr_cstr p = Some (cfg_expr values) /\
  expr p = Some e /\
  expr_vars p = pull_var_clause E e /\
  expr_atts p = pull_varattnos E (pull_var_clause E e) /\
  ev_type p = exprType E e /\
  SearchSysCache_TYPEOID E (exprType E e) = Some (ev_typmod p, ev_collid p) /\
  ev_byval p = typbyval typcache /\
  ev_len p = typlen typcache /\
  ev_align p = typalign typcache /\
  cmp_proc p = tc_cmp_proc typcache /\
  hash_proc p = tc_hash_proc typcache /\
  (exists ch, children p = Some ch /\
              length ch = children_count p /\
              children_count p =
                length (find_inheritance_children_array E relid
                          allow_incomplete).2) /\
  (parttype p = PT_RANGE -> is_Some (ranges p)) /\
  enable_parent p =
    default (DEFAULT_ENABLE_PARENT E) (read_pathman_params E relid).

(** The entry of [relid] after [FreeChildrenArray] and [FreeRangesArray]. *)
Definition arrays_freed (relid : Oid) (st : PathmanState) : PathmanState :=
  with_caches (with_partitioned_rels (alter (set_ranges None) relid))
    (with_caches (with_partitioned_rels (alter (set_children None) relid))
       st).

(** The entry of [relid] after the PG_CATCH block of the refresh: the
    arrays and both forms of the expression are freed. *)
Definition resources_freed (relid : Oid) (st : PathmanState) : PathmanState :=
  with_caches (with_partitioned_rels (alter (set_expr None) relid))
    (with_caches (with_partitioned_rels (alter (set_expr_cstr None) relid))
       (arrays_freed relid st)).

(* Get PartRelationInfo from local cache. *)
Definition get_pathman_relation_info (E : Backend) (relid : Oid)
  : Pathman (option Oid) :=
  st ← get_state;
  let prel := lookup_prel relid st in
  (* Refresh PartRelationInfo if needed *)
  if bool_decide (is_Some prel) && negb (PrelIsValid prel) then
    (* Check that PATHMAN_CONFIG table contains this relation *)
    match pathman_config_contains_relation E relid with
    | Some values =>
        let values :=
          if cfg_cooked_expr_isnull values
          then pathman_config_refresh_parsed_expression E relid values
          else values in
        (* Refresh partitioned table cache entry (might turn NULL) *)
        refresh_pathman_relation_info E relid values false
    | None =>
        (* Else clear remaining cache entry *)
        remove_pathman_relation_info E relid;;
        mret None
    end
  else mret (if bool_decide (is_Some prel) then Some relid else None).

(* Try to refresh cache entry for relation 'parent'. Return true on
   success. *)
Definition try_perform_parent_refresh (E : Backend) (parent : Oid)
  : Pathman bool :=
  match pathman_config_contains_relation E parent with
  | Some values =>
      let values :=
        if cfg_cooked_expr_isnull values
        then pathman_config_refresh_parsed_expression E parent values
        else values in
      (* If anything went wrong, return false (actually, it might emit
         ERROR) *)
      refresh_pathman_relation_info E parent values true;;
      mret true
  | None => mret false (* Not a partitioned relation *)
  end.

(* Add new delayed pathman shutdown job (DROP EXTENSION) *)
Definition delay_pathman_shutdown : Pathman unit :=
  modify_state (fun st =>
    mk_state (delayed_invalidation_parent_rels st)
             (delayed_invalidation_vague_rels st) true (caches st)).

(* list_append_unique_oid *)
Definition list_add_unique (l : list Oid) (oid : Oid) : list Oid :=
  if bool_decide (oid ∈ l) then l else l ++ [oid].

(* Add new delayed invalidation job for a [ex-]parent relation *)
Definition delay_invalidation_parent_rel (parent : Oid) : Pathman unit :=
  modify_state (fun st =>
    mk_state (list_add_unique (delayed_invalidation_parent_rels st) parent)
             (delayed_invalidation_vague_rels st) (delayed_shutdown st)
             (caches st)).

(* Add new delayed invalidation job for a vague relation *)
Definition delay_invalidation_vague_rel (vague_rel : Oid) : Pathman unit :=
  modify_state (fun st =>
    mk_state (delayed_invalidation_parent_rels st)
             (list_add_unique (delayed_invalidation_vague_rels st) vague_rel)
             (delayed_shutdown st) (caches st)).

(* free_invalidation_list() on both lists *)
Definition free_invalidation_lists : Pathman unit :=
  modify_state (fun st => mk_state [] [] (delayed_shutdown st) (caches st)).

(* Body of the loop over [delayed_invalidation_parent_rels] *)
Definition process_parent_rel (E : Backend) (parent : Oid) : Pathman unit :=
  (* Skip if it's a TOAST table *)
  if IsToastNamespace E (get_rel_namespace E parent) then mret tt
  else if negb (bool_decide
                  (is_Some (pathman_config_contains_relation E parent)))
  then remove_pathman_relation_info E parent
  else
    (* get_pathman_relation_info() will refresh this entry *)
    _ ← invalidate_pathman_relation_info E parent false; mret tt.

(* Body of the loop over [delayed_invalidation_vague_rels] *)
Definition process_vague_rel (E : Backend) (fresh_rels : list Oid)
    (vague_rel : Oid) : Pathman unit :=
  (* Skip if it's a TOAST table *)
  if IsToastNamespace E (get_rel_namespace E vague_rel) then mret tt
  else
    (* It might be a partitioned table or a partition *)
    refreshed ← try_perform_parent_refresh E vague_rel;
    if refreshed : bool then mret tt
    else
      '(parent, search) ← get_parent_of_partition E vague_rel true;
      match search with
      | Some PPS_ENTRY_PART_PARENT (* It's still parent *)
      | Some PPS_ENTRY_PARENT (* It *might have been* parent before *) =>
          (* Skip if we've already refreshed this parent *)
          if bool_decide (parent ∈ fresh_rels) then mret tt
          else _ ← try_perform_parent_refresh E parent; mret tt
      | Some PPS_NOT_SURE (* How come we still don't know?? *) =>
          elog_ERROR "Unknown table status, this should never happen"
      | _ => mret tt
      end.

(* foreach (lc, list) body *)
Fixpoint foreach_oid (body : Oid -> Pathman unit) (l : list Oid)
  : Pathman unit :=
  match l with
  | [] => mret tt
  | oid :: rest => body oid;; foreach_oid body rest
  end.

(* Finish all pending invalidation jobs if possible *)
Definition finish_delayed_invalidation (E : Backend) : Pathman unit :=
  st ← get_state;
  (* Exit early if there's nothing to do *)
  if bool_decide (delayed_invalidation_parent_rels st = [])
     && bool_decide (delayed_invalidation_vague_rels st = [])
     && negb (delayed_shutdown st)
  then mret tt
  (* Check that current state is transactional *)
  else if IsTransactionState E then
    (* Handle the probable 'DROP EXTENSION' case *)
    exit ←
      (if delayed_shutdown st then
         (* Unset 'shutdown' flag *)
         modify_state (fun st =>
           mk_state (delayed_invalidation_parent_rels st)
                    (delayed_invalidation_vague_rels st) false (caches st));;
         (* Check that PATHMAN_CONFIG table has indeed been dropped *)
         if negb (OidIsValid (cur_pathman_config_relid E))
            || negb (cur_pathman_config_relid E =? get_pathman_config_relid E)
         then
           (* Ok, let's unload pg_pathman's config *)
           modify_state (with_caches (unload_config E));;
           (* Disregard all remaining invalidation jobs *)
           free_invalidation_lists;;
           (* No need to continue, exit *)
           mret true
         else mret false
       else mret false);
    if exit : bool then mret tt
    else
      st ← get_state;
      (* Process relations that are (or were) definitely partitioned *)
      foreach_oid (process_parent_rel E)
                  (delayed_invalidation_parent_rels st);;
      (* Process all other vague cases *)
      foreach_oid (process_vague_rel E (delayed_invalidation_parent_rels st))
                  (delayed_invalidation_vague_rels st);;
      free_invalidation_lists
  else mret tt.

(** *** A small database for the examples

    Relation 10 is a HASH-partitioned table with the partitions 11 and 12:
    the constraint of 11 has the canonical form, the one of 12 has not.
    Partition 13 carries a NULL test.  Relation 20 lives in the TOAST
    namespace 99.  The configuration table was loaded with relid 5. *)

Definition sample_row : PathmanConfigRow :=
  mk_config_row PT_HASH "id" "cooked:id" false.

Definition sample_prel (relid : Oid) (method : PartType) (is_valid : bool)
  : PartRelationInfo :=
  mk_prel relid is_valid true 2 (Some [11; 12]) None false method
          (Some "id"%string) (Some "cooked:id"%string) [] [] 23 (-1) true 4 4
          0 351 450.

Definition sample_backend (cur_config_relid : Oid) : Backend :=
  mk_backend
    true
    true
    (fun _ => true)
    (fun _ => true)
    (fun relid => if relid =? 10 then Some sample_row else None)
    (fun _ row => row)
    (fun s => s)
    (fun _ => true)
    (fun e => [e])
    (fun _ => [1])
    (fun _ => 23)
    (fun _ => Some (-1, 0))
    (fun _ => mk_typcache true 4 4 351 450)
    (fun relid _ =>
       if relid =? 10 then (FCS_FOUND, [11; 12]) else (FCS_NO_CHILDREN, []))
    (fun _ => None)
    true
    (fun partition =>
       if partition =? 11 then ConstraintExpr "hash:0"%string
       else if partition =? 12 then ConstraintExpr "bogus"%string
       else if partition =? 13 then ConstraintExpr "NullTest"%string
       else NoConstraint)
    (fun e => String.eqb e "NullTest"%string)
    (fun e _ =>
       if String.eqb e "hash:0"%string then Some 0%nat
       else if String.eqb e "hash:1"%string then Some 1%nat
       else None)
    (fun _ _ => None)
    (fun p => children_count p)
    (fun _ l => l)
    (fun relid => if relid =? 20 then 99 else 2200)
    (fun namespace => namespace =? 99)
    cur_config_relid
    5
    (fun c => mk_caches ∅ ∅ ∅ (pg_pathman_enable c))
    (fun _ => None)
    (fun relid => sample_prel relid PT_ANY true)
    (mk_pbin 0 PT_ANY 0 (FINITE 0) (FINITE 0) false)
    false.

Definition empty_state : PathmanState :=
  mk_state [] [] false (mk_caches ∅ ∅ ∅ true).

(** The table 10 is cached and valid, an invalidation of 10 and a shutdown
    are pending. *)
Definition shutdown_pending_state : PathmanState :=
  mk_state [10] [] true
    (mk_caches {[ 10 := sample_prel 10 PT_HASH true ]} ∅ ∅ true).

(** *** Notions used in the proofs *)

(** A computation leaves a part of the state ([view]) as it found it. *)
Definition preserves {X A : Type} (view : PathmanState -> X)
    (m : Pathman A) : Prop :=
  forall st, view (m st).1 = view st.

(** The file-static variables of the delayed invalidation. *)
Definition queues (st : PathmanState) : list Oid * list Oid * bool :=
  (delayed_invalidation_parent_rels st, delayed_invalidation_vague_rels st,
   delayed_shutdown st).

(** The scheme cache. *)
Definition rels (st : PathmanState) : gmap Z PartRelationInfo :=
  partitioned_rels (caches st).

(** The state after [DisablePathman()]. *)
Definition hooks_disabled (st : PathmanState) : PathmanState :=
  with_caches (fun c =>
    mk_caches (partitioned_rels c) (parent_cache c) (bound_cache c) false) st.

(** [get_bounds_of_partition] has to derive the bound of [partition]: the
    bounds cache is off or holds nothing for it. *)
Definition bound_not_cached (E : Backend) (partition : Oid)
    (st : PathmanState) : Prop :=
  pg_pathman_enable_bounds_cache E = false \/
  bound_cache (caches st) !! partition = None.

(** The check constraint of [partition] does not have the canonical shape:
    it is missing; or it is not a NULL test (the shape of the NULL
    partition, whatever the method) and fails the validation of the HASH
    or RANGE method of the table, or the method is neither. *)
Definition constraint_malformed (E : Backend) (partition : Oid)
    (prel : PartRelationInfo) : Prop :=
  match partition_constraint E partition with
  | NoConstraint => True
  | NullConbin => False
  | ConstraintExpr e =>
      IsA_NullTest E e = false /\
      match parttype prel with
      | PT_HASH => validate_hash_constraint E e prel = None
      | PT_RANGE => validate_range_constraint E e prel = None
      | _ => True
      end
  end.

(** The test "PATHMAN_CONFIG table has indeed been dropped" of
    [finish_delayed_invalidation]. *)
Definition config_table_dropped (E : Backend) : bool :=
  negb (OidIsValid (cur_pathman_config_relid E))
  || negb (cur_pathman_config_relid E =? get_pathman_config_relid E).

(** Two entries agree on every field but the arrays, their count and the
    NULL-partition flag. *)
Definition same_meta (p q : PartRelationInfo) : Prop :=
  key p = key q /\ valid p = valid q /\ enable_parent p = enable_parent q /\
  parttype p = parttype q /\ expr_cstr p = expr_cstr q /\ expr p = expr q /\
  expr_vars p = expr_vars q /\ expr_atts p = expr_atts q /\
  ev_type p = ev_type q /\ ev_typmod p = ev_typmod q /\
  ev_byval p = ev_byval q /\ ev_len p = ev_len q /\ ev_align p = ev_align q /\
  ev_collid p = ev_collid q /\ cmp_proc p = cmp_proc q /\
  hash_proc p = hash_proc q.

(** The entry has a children array of [n] slots, and a ranges array if the
    table is RANGE-partitioned. *)
Definition has_arrays (n : nat) (p : PartRelationInfo) : Prop :=
  (exists ch, children p = Some ch /\ length ch = n) /\
  children_count p = n /\
  (parttype p = PT_RANGE -> is_Some (ranges p)).

(** What filling the arrays does to an entry. *)
Definition fills (n : nat) (p q : PartRelationInfo) : Prop :=
  same_meta p q /\ (has_arrays n p -> has_arrays n q).

(** Running [m] takes the entry of [relid] to an entry related by [R],
    however [m] ends. *)
Definition entry_step {A : Type} (relid : Oid)
    (R : PartRelationInfo -> PartRelationInfo -> Prop) (m : Pathman A) : Prop :=
  forall st p, lookup_prel relid st = Some p ->
    exists p', lookup_prel relid (m st).1 = Some p' /\ R p p'.

(** The entry of [relid] is there, invalid, with both array pointers
    null. *)
Definition entry_invalid_without_arrays (relid : Oid) (st : PathmanState)
  : Prop :=
  exists p, lookup_prel relid st = Some p /\
            valid p = false /\ children p = None /\ ranges p = None.

(** *** Further routines of relation_info.c *)

(* Comparison of two [PartType] tags *)
Definition PartType_eqb (a b : PartType) : bool :=
  match a, b with
  | PT_ANY, PT_ANY | PT_HASH, PT_HASH | PT_RANGE, PT_RANGE
  | PT_NULL, PT_NULL => true
  | _, _ => false
  end.

(** Modelled from the spec: [FreeBound] of [relation_info.h] is not among
    the sources; it releases the value of a bound that is passed by
    reference.  The cache entry that holds the bound is removed right
    after, so nothing the state holds changes. *)
Definition FreeBound : Pathman unit := mret tt.

(* Remove partition's constraint from cache *)
Definition forget_bounds_of_partition (E : Backend) (partition : Oid)
  : Pathman unit :=
  st ← get_state;
  (* Should we search in bounds cache? *)
  let pbin :=
    if pg_pathman_enable_bounds_cache E
    then bound_cache (caches st) !! partition
    else None (* don't even bother *) in
  (* Free this entry *)
  match pbin with
  | Some pbin =>
      (* Call pfree() if it's RANGE bounds *)
      match pbin_parttype pbin with
      | PT_RANGE => FreeBound;; FreeBound
      | _ => mret tt
      end;;
      (* Finally remove this entry from cache *)
      modify_state (with_caches (with_bound_cache (delete partition)))
  | None => mret tt
  end.

(* Common PartRelationInfo checks. Emit ERROR if anything is wrong.  [prel]
   is the entry pointer, [None] when it is null. *)
Definition shout_if_prel_is_invalid (E : Backend) (parent_oid : Oid)
    (prel : option Oid) (expected_part_type : PartType) : Pathman unit :=
  match prel with
  | None => elog_ERROR "relation has no partitions"
  | Some entry =>
      p ← read_prel E entry;
      if negb (PrelIsValid (Some p))
      then elog_ERROR "pg_pathman's cache contains invalid entry for relation"
      (* Check partitioning type unless it's "ANY" *)
      else if negb (PartType_eqb expected_part_type PT_ANY)
              && negb (PartType_eqb expected_part_type (parttype p))
      then
        match expected_part_type with
        | PT_HASH => elog_ERROR "relation is not partitioned by HASH"
        | PT_RANGE => elog_ERROR "relation is not partitioned by RANGE"
        | _ => elog_ERROR "Unknown partitioning type" (* WrongPartType *)
        end
      else mret tt
  end.

(* Acquire lock on a table and try to get PartRelationInfo.  The lock
   manager is outside the state: [xact_lock_partitioned_rel] gives the
   result of the acquisition, [lock_result] tells whether the out-parameter
   is given, and the last component of the result tells whether
   [xact_unlock_partitioned_rel] was called. *)
Definition get_pathman_relation_info_after_lock {LockAcquireResult : Type}
    (xact_lock_partitioned_rel : Oid -> bool -> LockAcquireResult)
    (E : Backend) (relid : Oid) (unlock_if_not_found : bool)
    (lock_result : bool)
  : Pathman (option Oid * option LockAcquireResult * bool) :=
  (* Restrict concurrent partition creation (it's dangerous) *)
  let acquire_result := xact_lock_partitioned_rel relid false in
  (* Invalidate cache entry (see AcceptInvalidationMessages()) *)
  _ ← invalidate_pathman_relation_info E relid false;
  (* Set 'lock_result' if asked to *)
  let lock_result := if lock_result then Some acquire_result else None in
  prel ← get_pathman_relation_info E relid;
  mret (prel, lock_result,
        negb (bool_decide (is_Some prel)) && unlock_if_not_found).

(** *** Further notions used in the proofs *)

(** The parent cache, the bounds cache and the switch of the hooks. *)
Definition parents (st : PathmanState) : gmap Z Oid :=
  parent_cache (caches st).

Definition bounds (st : PathmanState) : gmap Z PartBoundInfo :=
  bound_cache (caches st).

Definition enabled (st : PathmanState) : bool :=
  pg_pathman_enable (caches st).

(** Every error [m] can raise has a message in [P]. *)
Definition raises_only {A : Type} (P : string -> Prop) (m : Pathman A)
  : Prop :=
  forall st st' msg, m st = (st', Raised msg) -> P msg.

(** The configuration row [get_pathman_relation_info] and
    [try_perform_parent_refresh] hand to the refresh. *)
Definition config_row_for_refresh (E : Backend) (relid : Oid)
  : option PathmanConfigRow :=
  (fun values =>
     if cfg_cooked_expr_isnull values
     then pathman_config_refresh_parsed_expression E relid values
     else values) <$> pathman_config_contains_relation E relid.

(** What [invalidate_pathman_relation_info] leaves in the entry of
    [relid]: the entry that was there, or else the fresh one, with both
    arrays null and the valid flag down; the expression string of an
    entry that was valid is freed. *)
Definition invalidated_entry (E : Backend) (relid : Oid) (st : PathmanState)
  : PartRelationInfo :=
  match lookup_prel relid st with
  | Some p =>
      set_valid false
        (set_ranges None
           (set_children None
              (if valid p then set_expr_cstr None p else p)))
  | None =>
      set_valid false
        (set_ranges None (set_children None (uninitialized_prel E relid)))
  end.

(** The backend [E] with another catalog of check constraints and of
    inheritance, and another validation of RANGE constraints. *)
Definition with_catalog (constraints : Oid -> ConstraintLookup)
    (inherits : Oid -> option Oid)
    (range_validation :
       Node -> PartRelationInfo -> option (option Datum * option Datum))
    (E : Backend) : Backend :=
  mk_backend
    (IsTransactionState E) (pg_pathman_enable_bounds_cache E)
    (ConditionalLockRelationOid E) (SearchSysCacheExists_RELOID E)
    (pathman_config_contains_relation E)
    (pathman_config_refresh_parsed_expression E) (stringToNode E)
    (expr_references_one_table E) (pull_var_clause E) (pull_varattnos E)
    (exprType E) (SearchSysCache_TYPEOID E) (lookup_type_cache E)
    (find_inheritance_children_array E) (read_pathman_params E)
    (DEFAULT_ENABLE_PARENT E) constraints
    (IsA_NullTest E) (validate_hash_constraint E)
    range_validation (PrelRangePartitionsCount E)
    (qsort_range_entries E) (get_rel_namespace E) (IsToastNamespace E)
    (cur_pathman_config_relid E) (get_pathman_config_relid E)
    (unload_config E) inherits
    (uninitialized_prel E) (uninitialized_pbin E) (USE_ASSERT_CHECKING E).

(** The small database with the constraint of partition 12 repaired, and
    with the inheritance of partition 11 in the catalog. *)
Definition healthy_backend : Backend :=
  with_catalog
    (fun partition =>
       if partition =? 12 then ConstraintExpr "hash:1"%string
       else partition_constraint (sample_backend 5) partition)
    (fun partition => if partition =? 11 then Some 10 else None)
    (validate_range_constraint (sample_backend 5))
    (sample_backend 5).

(** The small database with the [conbin] of the constraint of partition 12
    null. *)
Definition null_conbin_backend : Backend :=
  with_catalog
    (fun partition =>
       if partition =? 12 then NullConbin
       else partition_constraint (sample_backend 5) partition)
    (inherits_parent (sample_backend 5))
    (validate_range_constraint (sample_backend 5))
    (sample_backend 5).

(** The small database with RANGE constraints: partition 11 holds the
    values from 10 up to 20, partition 12 those below 10. *)
Definition range_backend : Backend :=
  with_catalog
    (fun partition =>
       if partition =? 11 then ConstraintExpr "range:10:20"%string
       else if partition =? 12 then ConstraintExpr "range::10"%string
       else NoConstraint)
    (inherits_parent (sample_backend 5))
    (fun e _ =>
       if String.eqb e "range:10:20"%string then Some (Some 10, Some 20)
       else if String.eqb e "range::10"%string then Some (None, Some 10)
       else None)
    (sample_backend 5).

(** The message of the check of the USE_ASSERT_CHECKING block of
    [fill_prel_with_partitions]. *)
Definition children_unassigned : string :=
  "pg_pathman's cache for relation has not been properly initialized".

(** [E] built with or without USE_ASSERT_CHECKING. *)
Definition with_assert_checking (checking : bool) (E : Backend) : Backend :=
  mk_backend
    (IsTransactionState E) (pg_pathman_enable_bounds_cache E)
    (ConditionalLockRelationOid E) (SearchSysCacheExists_RELOID E)
    (pathman_config_contains_relation E)
    (pathman_config_refresh_parsed_expression E) (stringToNode E)
    (expr_references_one_table E) (pull_var_clause E) (pull_varattnos E)
    (exprType E) (SearchSysCache_TYPEOID E) (lookup_type_cache E)
    (find_inheritance_children_array E) (read_pathman_params E)
    (DEFAULT_ENABLE_PARENT E) (partition_constraint E)
    (IsA_NullTest E) (validate_hash_constraint E)
    (validate_range_constraint E) (PrelRangePartitionsCount E)
    (qsort_range_entries E) (get_rel_namespace E) (IsToastNamespace E)
    (cur_pathman_config_relid E) (get_pathman_config_relid E)
    (unload_config E) (inherits_parent E)
    (uninitialized_prel E) (uninitialized_pbin E) checking.

(** The sample database with every partition on the hash remainder 0. *)
Definition same_remainder : Backend :=
  with_catalog (fun _ => ConstraintExpr "hash:0"%string)
    (inherits_parent (sample_backend 5))
    (validate_range_constraint (sample_backend 5))
    (sample_backend 5).

(** The messages of the errors that rebuilding an entry can raise. *)
Definition refresh_errors : list string :=
  [ "partitioning expression may reference only one table";
    "cache lookup failed for type";
    "constraint of partition does not exist";
    "wrong constraint format for HASH partition";
    "wrong constraint format for RANGE partition";
    "Unknown partitioning type";
    "range array overflow";
    children_unassigned
  ]%string.

(** [msg] is an error of rebuilding an entry in the build of [E]: the
    last of the messages needs a build with USE_ASSERT_CHECKING. *)
Definition refresh_error (E : Backend) (msg : string) : Prop :=
  In msg refresh_errors /\
  (msg = children_unassigned -> USE_ASSERT_CHECKING E = true).

(** Every result [m] returns satisfies [Q]. *)
Definition returns {A : Type} (Q : A -> Prop) (m : Pathman A) : Prop :=
  forall st st' a, m st = (st', Done a) -> Q a.

(** The parent cache with every one of [children] entered as a partition
    of [relid], in the order of the list. *)
Definition with_children_cached (relid : Oid) (children : list Oid)
    (m : gmap Z Oid) : gmap Z Oid :=
  foldl (fun m child => <[child := relid]> m) m children.

(** [m] takes [view] through [F] when it returns an entry, and leaves it
    alone otherwise. *)
Definition changes_on_success {X A : Type} (view : PathmanState -> X)
    (F : X -> X) (m : Pathman (option A)) : Prop :=
  forall st,
    view (m st).1 =
    match (m st).2 with
    | Done (Some _) => F (view st)
    | _ => view st
    end.

(** *** The rebuilt entry in closed form *)

(** The refresh gets as far as filling the entry: the parent is locked,
    the relation exists, the expression references one table, its type is
    in the catalog, and children were found. *)
Definition reaches_filling (E : Backend) (relid : Oid)
    (values : PathmanConfigRow) (allow_incomplete : bool) : Prop :=
  let e := stringToNode E (cfg_cooked_expr values) in
  allow_incomplete && negb (ConditionalLockRelationOid E relid) = false /\
  SearchSysCacheExists_RELOID E relid = true /\
  expr_references_one_table E e = true /\
  is_Some (SearchSysCache_TYPEOID E (exprType E e)) /\
  (find_inheritance_children_array E relid allow_incomplete).1 = FCS_FOUND.

(** The entry of [relid] when the refresh starts filling it: the
    invalidated entry with the method and the expression of the
    configuration row and the type data of the expression. *)
Definition prepared_entry (E : Backend) (relid : Oid)
    (values : PathmanConfigRow) (st : PathmanState) : PartRelationInfo :=
  let e := stringToNode E (cfg_cooked_expr values) in
  let ev_type := exprType E e in
  let typ := default (0, InvalidOid) (SearchSysCache_TYPEOID E ev_type) in
  let typcache := lookup_type_cache E ev_type in
  set_hash_proc (tc_hash_proc typcache)
    (set_cmp_proc (tc_cmp_proc typcache)
      (set_ev_align (typalign typcache)
        (set_ev_len (typlen typcache)
          (set_ev_byval (typbyval typcache)
            (set_ev_collid typ.2
              (set_ev_typmod typ.1
                (set_ev_type ev_type
                  (set_expr_atts (pull_varattnos E (pull_var_clause E e))
                    (set_expr_vars (pull_var_clause E e)
                      (set_expr (Some e)
                        (set_expr_cstr (Some (cfg_expr values))
                          (set_parttype (cfg_parttype values)
                            (set_ranges None
                              (set_children None
                                (invalidated_entry E relid st))))))))))))))).

Definition prepared (E : Backend) (relid : Oid) (values : PathmanConfigRow)
    (st : PathmanState) : PathmanState :=
  with_caches
    (with_partitioned_rels (insert relid (prepared_entry E relid values st)))
    st.

(** The entry with the arrays as [fill_prel_with_partitions] allocates
    them for [n] partitions. *)
Definition allocated (E : Backend) (n : nat) (p : PartRelationInfo)
  : PartRelationInfo :=
  let p1 :=
    set_children_count n
      (set_has_null_partition false
         (set_ranges None
            (set_children (Some (replicate n InvalidOid)) p))) in
  match parttype p1 with
  | PT_RANGE =>
      set_ranges
        (Some (replicate (PrelRangePartitionsCount E p1) zero_range_entry))
        p1
  | _ => p1
  end.

(** What turn [i] of the loop does to the entry with the bound [b] of the
    partition: the NULL partition goes to the last slot of the children,
    a HASH partition to the slot of its remainder, and the bounds of a
    RANGE partition to slot [i] of the ranges. *)
Definition placed (n i : nat) (b : PartBoundInfo) (p : PartRelationInfo)
  : PartRelationInfo :=
  match pbin_parttype b with
  | PT_NULL =>
      set_has_null_partition true
        (set_children
           ((fun slots => <[(n - 1)%nat := child_rel b]> slots)
            <$> children p) p)
  | PT_HASH =>
      set_children
        ((fun slots => <[part_idx b := child_rel b]> slots) <$> children p) p
  | PT_RANGE =>
      set_ranges
        ((fun slots =>
            <[i := mk_range_entry (child_rel b) (range_min b) (range_max b)]>
              slots) <$> ranges p) p
  | PT_ANY => p
  end.

(** The turns [i], [i + 1], ... with the bounds [bs]. *)
Fixpoint placed_all (n i : nat) (bs : list PartBoundInfo)
    (p : PartRelationInfo) : PartRelationInfo :=
  match bs with
  | [] => p
  | b :: rest => placed_all n (S i) rest (placed n i b p)
  end.

(** The last step for a RANGE table: the ranges sorted, and the children
    array taken from them. *)
Definition finalized (E : Backend) (p : PartRelationInfo)
  : PartRelationInfo :=
  match parttype p with
  | PT_RANGE =>
      let p1 :=
        set_ranges
          ((fun l =>
              qsort_range_entries E p (take (PrelRangePartitionsCount E p) l)
              ++ drop (PrelRangePartitionsCount E p) l) <$> ranges p) p in
      set_children
        ((fun ch =>
            foldl (fun ch '(i, re) => <[i := child_oid re]> ch) ch
                  (imap (fun i re => (i, re))
                     (take (PrelRangePartitionsCount E p1)
                           (default [] (ranges p1)))))
         <$> children p1) p1
  | _ => p
  end.

(** The bound [b] is derived from the check constraint of [partition],
    for an entry that agrees with [p] but for its arrays. *)
Definition derived_bound (E : Backend) (p : PartRelationInfo)
    (partition : Oid) (b : PartBoundInfo) : Prop :=
  exists e prel s,
    same_meta p prel /\
    partition_constraint E partition = ConstraintExpr e /\
    fill_pbin_with_bounds E
      (mk_pbin partition (pbin_parttype (uninitialized_pbin E))
               (part_idx (uninitialized_pbin E))
               (range_min (uninitialized_pbin E))
               (range_max (uninitialized_pbin E)) (ev_byval prel))
      prel (Some e) s = (s, Done b).

(** The bound [b] is what [get_bounds_of_partition] gives for [partition]
    during a refresh that starts in [st]: the bound cached in [st] when
    there is one and the bounds cache is on, a bound derived from the
    constraint otherwise. *)
Definition bound_obtained (E : Backend) (st : PathmanState)
    (p : PartRelationInfo) (partition : Oid) (b : PartBoundInfo) : Prop :=
  match (if pg_pathman_enable_bounds_cache E then bounds st !! partition
         else None) with
  | Some cached => b = cached
  | None => derived_bound E p partition b
  end.

(** The state after a refresh that filled the entry: the pairs of the
    children in the parent cache, the [enable_parent] parameter, the valid
    flag up. *)
Definition completed (E : Backend) (relid : Oid) (children : list Oid)
    (st : PathmanState) : PathmanState :=
  with_caches (with_partitioned_rels (alter (set_valid true) relid))
    (with_caches
       (with_partitioned_rels
          (alter
             (set_enable_parent
                (default (DEFAULT_ENABLE_PARENT E)
                         (read_pathman_params E relid))) relid))
       (with_caches
          (with_parent_cache (with_children_cached relid children)) st)).

(** The entry [p] is the one the refresh builds from the state [st]: the
    prepared entry with its arrays allocated, the bound of every child
    placed in turn, and the arrays finalized; [p] is valid and has the
    [enable_parent] parameter.  In a build with USE_ASSERT_CHECKING no
    slot of a HASH table is left unassigned. *)
Definition rebuilt (E : Backend) (relid : Oid) (values : PathmanConfigRow)
    (allow_incomplete : bool) (st : PathmanState) (p : PartRelationInfo)
  : Prop :=
  let prel_children :=
    (find_inheritance_children_array E relid allow_incomplete).2 in
  let n := length prel_children in
  let p0 := prepared_entry E relid values st in
  exists bs,
    Forall2 (bound_obtained E st p0) prel_children bs /\
    p = set_valid true
          (set_enable_parent
             (default (DEFAULT_ENABLE_PARENT E) (read_pathman_params E relid))
             (finalized E (placed_all n 0 bs (allocated E n p0)))) /\
    (USE_ASSERT_CHECKING E = true -> parttype p = PT_HASH ->
     forall slots, children p = Some slots ->
       Forall (fun child => OidIsValid child = true)
              (take (children_count p) slots)).

(** What makes filling the entry crash at [partition]: the [conbin] of its
    constraint is null; or its cached bound is a RANGE bound while the
    table is not partitioned by RANGE, so that the bound is stored through
    the null [ranges] pointer. *)
Definition crash_cause (E : Backend) (st : PathmanState) (method : PartType)
    (partition : Oid) : Prop :=
  partition_constraint E partition = NullConbin \/
  (pg_pathman_enable_bounds_cache E = true /\
   exists b, bounds st !! partition = Some b /\
             pbin_parttype b = PT_RANGE /\ method <> PT_RANGE).

(** [fill_prel_with_partitions] from the end of its loop on. *)
Definition fill_prel_finish (E : Backend) (relid : Oid) : Pathman unit :=
  prel ← read_prel E relid;
  match parttype prel with
  | PT_RANGE =>
      assign_prel relid (fun p =>
        set_ranges
          ((fun l =>
              qsort_range_entries E p (take (PrelRangePartitionsCount E p) l)
              ++ drop (PrelRangePartitionsCount E p) l) <$> ranges p) p);;
      assign_prel relid (fun p =>
        set_children
          ((fun ch =>
              foldl (fun ch '(i, re) => <[i := child_oid re]> ch) ch
                    (imap (fun i re => (i, re))
                       (take (PrelRangePartitionsCount E p)
                             (default [] (ranges p)))))
           <$> children p) p)
  | _ => mret tt
  end;;
  if USE_ASSERT_CHECKING E then
    prel ← read_prel E relid;
    match parttype prel with
    | PT_HASH =>
        match children prel with
        | Some slots =>
            check_children_assigned (take (children_count prel) slots)
        | None =>
            if (children_count prel =? 0)%nat then mret tt
            else null_dereference
        end
    | _ => mret tt
    end
  else mret tt.

(** *** Partitioning expression routines *)

(** Parse trees, as far as the routines below look into them: the values
    of the target list of a [SelectStmt]; the plan tree of a
    [PlannedStmt], by the expressions of its target list (or index target
    list for an [IndexOnlyScan]). *)
Record SelectStmt : Type := mk_select_stmt {
  targetList : list Node
}.

Record PlannedStmt : Type := mk_planned_stmt {
  planTree_IsA_IndexOnlyScan : bool;
  indextlist : list Node;
  targetlist : list Node
}.

(** The SQL parser, analyzer and planner.  Each of the three either
    raises an error ([inl], with its message) or returns. *)
Record Parser : Type := mk_parser {
  get_rel_name : Oid -> string;
  get_namespace_name : Oid -> string;
  quote_identifier : string -> string;
  raw_parser : string -> string + list SelectStmt;
  (* the analyzed queries *)
  pg_analyze_and_rewrite : SelectStmt -> string -> string + list Node;
  pg_plan_query : Node -> string + PlannedStmt;
  eval_const_expressions : Node -> Node;
  contain_mutable_functions : Node -> bool;
  nodeToString : Node -> string
}.

(** A routine that reads and writes [pathman_hooks_enabled] of [hooks.c]
    and nothing else. *)
Definition Hooks (A : Type) : Type := bool -> bool * outcome A.

(* linitial(l) followed by a field access: reads through a null pointer
   when the list is empty *)
Definition linitial {A : Type} (l : list A) : outcome A :=
  match l with
  | x :: _ => Done x
  | [] => Crashed
  end.

(* Wraps expression in SELECT query and returns parse tree; with the two
   out-parameters [query_string_out] and [parsetree_out].  The re-thrown
   error carries the parser's message as its detail, which is not
   modelled. *)
Definition parse_partitioning_expression (P : Parser) (E : Backend)
    (relid : Oid) (exp_cstr : string)
  : outcome (Node * string * SelectStmt) :=
  let relname := get_rel_name P relid in
  let nspname := get_namespace_name P (get_rel_namespace E relid) in
  let query_string :=
    ("SELECT (" ++ exp_cstr ++ ") FROM ONLY "
       ++ quote_identifier P nspname ++ "." ++ quote_identifier P relname)%string in
  match raw_parser P query_string with
  | inl _ => Raised "partitioning expression parse error"
  | inr parsetree_list =>
      if negb (length parsetree_list =? 1)%nat
      then Raised "expression produced more than one query"
      else
        match linitial parsetree_list with
        | Done select_stmt =>
            match linitial (targetList select_stmt) with
            | Done val => Done (val, query_string, select_stmt)
            | Raised msg => Raised msg
            | Crashed => Crashed
            end
        | Raised msg => Raised msg
        | Crashed => Crashed
        end
  end.

(* Parse partitioning expression and return its type and nodeToString() as
   TEXT *)
Definition cook_partitioning_expression (P : Parser) (E : Backend)
    (relid : Oid) (expr_cstr : string) : Hooks (string * Oid) :=
  fun pathman_hooks_enabled =>
  (* Keep raw expression *)
  match parse_partitioning_expression P E relid expr_cstr with
  | Raised msg => (pathman_hooks_enabled, Raised msg)
  | Crashed => (pathman_hooks_enabled, Crashed)
  | Done (_, query_string, parsetree) =>
      (* We don't need pathman activity initialization for this relation
         yet *)
      let pathman_hooks_enabled := false in
      (* This will fail with elog in case of wrong expression *)
      match pg_analyze_and_rewrite P parsetree query_string with
      | inl _ =>
          (* Enable pathman hooks *)
          let pathman_hooks_enabled := true in
          (pathman_hooks_enabled,
           Raised "partitioning expression analyze error")
      | inr querytree_list =>
          if negb (length querytree_list =? 1)%nat
          then (pathman_hooks_enabled,
                Raised "partitioning expression produced more than 1 query")
          else
            match linitial querytree_list with
            | Done expr_query =>
                (* Plan this query *)
                match pg_plan_query P expr_query with
                | inl msg => (pathman_hooks_enabled, Raised msg)
                | inr expr_plan =>
                    match
                      if planTree_IsA_IndexOnlyScan expr_plan
                      then linitial (indextlist expr_plan)
                      else linitial (targetlist expr_plan)
                    with
                    | Done target_entry =>
                        let expr := eval_const_expressions P target_entry in
                        if contain_mutable_functions P expr
                        then (pathman_hooks_enabled,
                              Raised "functions in partitioning expression must be marked IMMUTABLE")
                        else
                          let expr_serialized := nodeToString P expr in
                          (* Enable pathman hooks *)
                          let pathman_hooks_enabled := true in
                          (pathman_hooks_enabled,
                           Done (expr_serialized, exprType E expr))
                    | Raised msg => (pathman_hooks_enabled, Raised msg)
                    | Crashed => (pathman_hooks_enabled, Crashed)
                    end
                end
            | Raised msg => (pathman_hooks_enabled, Raised msg)
            | Crashed => (pathman_hooks_enabled, Crashed)
            end
      end
  end.

(** A parser for the examples: every text parses to one statement with
    the text as its only target, analysis and planning keep it, and the
    expression "random()" calls a function that is not immutable. *)
Definition sample_parser : Parser :=
  mk_parser
    (fun _ => "t"%string) (fun _ => "public"%string) (fun s => s)
    (fun query => inr [mk_select_stmt [query]])
    (fun stmt _ => inr (targetList stmt))
    (fun query => inr (mk_planned_stmt false [] [query]))
    (fun e => e)
    (fun e => String.eqb e "SELECT (random()) FROM ONLY public.t")
    (fun e => e).

End RelationInfo.

(** ** Properties of the index-range algebra *)

Module RangeSetFacts.
Import RangeSet.

Lemma mask_nonneg : 0 <= IRANGE_BOUNDARY_MASK.
Proof. unfold IRANGE_BOUNDARY_MASK. lia. Qed.

Ltac zbool_step :=
  match goal with
  | |- context [?x <=? ?y] => destruct (Z.leb_spec x y)
  | |- context [?x <? ?y] => destruct (Z.ltb_spec x y)
  | |- context [?x =? ?y] => destruct (Z.eqb_spec x y)
  | H : context [?x <=? ?y] |- _ => destruct (Z.leb_spec x y)
  | H : context [?x <? ?y] |- _ => destruct (Z.ltb_spec x y)
  | H : context [?x =? ?y] |- _ => destruct (Z.eqb_spec x y)
  end.

Ltac zbool := repeat (zbool_step; simpl in *; try lia; try discriminate).

Lemma irb_pred_pos b : 0 < b -> irb_pred b = b - 1.
Proof. unfold irb_pred. zbool. Qed.

Lemma irb_succ_lt b : b < IRANGE_BOUNDARY_MASK -> irb_succ b = b + 1.
Proof. unfold irb_succ. zbool. Qed.

Lemma irb_succ_ge b :
  IRANGE_BOUNDARY_MASK <= b -> irb_succ b = IRANGE_BOUNDARY_MASK.
Proof. unfold irb_succ. zbool. Qed.

Lemma find_app l1 l2 i :
  irange_list_find (l1 ++ l2) i =
  match irange_list_find l1 i with
  | Some x => Some x
  | None => irange_list_find l2 i
  end.
Proof.
  induction l1 as [|r l1 IH]; simpl; [reflexivity|].
  destruct (_ && _); [reflexivity|apply IH].
Qed.

(** One call of [irange_union_internal] on an accumulator that starts no
    later than the next range. *)
Lemma irange_union_internal_spec c n res :
  irange_wf c -> irange_wf n -> irange_lower c <= irange_lower n ->
  exists emitted, 
    snd (irange_union_internal c n res) = res ++ emitted /\
    union_step_spec c n (fst (irange_union_internal c n res)) emitted.
Proof.
  pose proof mask_nonneg as HM.
  destruct c as [cv cl cu cy], n as [nv nl nu ny].
  unfold irange_wf; simpl.
  intros (-> & Hc0 & Hc1 & Hc2) (-> & Hn0 & Hn1 & Hn2) Hle.
  unfold irange_union_internal, irange_handle_cover_internal, iranges_intersect,
    irange_eq_bounds, irange_union_simple, iranges_adjoin,
    irange_cmp_lossiness, lappend_irange, make_irange, irb_pred, irb_succ;
    simpl.
  destruct cy, ny; simpl; zbool.
  all: try (exists []; rewrite app_nil_r; split; [reflexivity|]).
  all: try (eexists; split; [rewrite <- ?app_assoc; simpl; reflexivity|]).
  all: constructor; simpl.
  all: unfold irange_wf, irange_before, irange_covers; simpl.
  all: try (intros i; zbool; reflexivity).
  all: try (intros i; lia).
  all: try (repeat constructor; simpl; lia).
  all: try (repeat split; repeat constructor; simpl; lia).
Qed.

Lemma ordered_app l1 l2 :
  ordered (l1 ++ l2) <->
  ordered l1 /\ ordered l2 /\
  (forall x y, In x l1 -> In y l2 -> irange_before x y).
Proof.
  induction l1 as [|r l1 IH]; simpl.
  - intuition.
  - rewrite IH, Forall_app, !List.Forall_forall. split.
    + intros (Hw & (H1 & H2) & Ho1 & Ho2 & Hc).
      split; [auto|]. split; [auto|].
      intros x y [<-|Hx] Hy; auto.
    + intros ((Hw & H1 & Ho1) & Ho2 & Hc).
      split; [auto|]. split; [split; auto|]. auto.
Qed.

Lemma ordered_wf l r : ordered l -> In r l -> irange_wf r.
Proof.
  induction l as [|x l IH]; simpl; [tauto|].
  intros (Hw & _ & Ho) [<-|Hin]; auto.
Qed.

Lemma ordered_lower_head r l :
  ordered (r :: l) -> Forall (fun n => irange_lower r <= irange_lower n) l.
Proof.
  simpl. intros ((_ & _ & Hlu & _) & Hb & _).
  eapply List.Forall_impl; [|exact Hb].
  unfold irange_before. intros; simpl in *; lia.
Qed.

Lemma find_Some_covers l i x :
  irange_list_find l i = Some x ->
  exists r, In r l /\ irange_covers r i /\ is_irange_lossy r = x.
Proof.
  induction l as [|r l IH]; simpl; [discriminate|].
  destruct (_ && _) eqn:E.
  - intros [= <-]. exists r. apply andb_true_iff in E as [E1 E2].
    apply Z.leb_le in E1, E2. unfold irange_covers. auto.
  - intros H. destruct (IH H) as (r' & Hin & Hc). eauto.
Qed.

Lemma find_None_not_covers l i r :
  irange_list_find l i = None -> In r l -> ~ irange_covers r i.
Proof.
  induction l as [|x l IH]; simpl; [tauto|].
  destruct (_ && _) eqn:E; [discriminate|].
  intros H [<-|Hin]; [|auto].
  unfold irange_covers. intros [H1 H2].
  apply Z.leb_le in H1, H2. rewrite H1, H2 in E. discriminate.
Qed.

Lemma find_cons_ordered r l i :
  ordered (r :: l) ->
  irange_list_find (r :: l) i =
  union_lossiness (irange_list_find [r] i) (irange_list_find l i).
Proof.
  intros (Hw & Hb & _). simpl.
  destruct (_ && _) eqn:E; [|reflexivity].
  destruct (irange_list_find l i) eqn:F; [|reflexivity].
  exfalso. apply find_Some_covers in F as (r' & Hin & Hc & _).
  rewrite List.Forall_forall in Hb. specialize (Hb _ Hin).
  apply andb_true_iff in E as [E1 E2]. apply Z.leb_le in E1, E2.
  unfold irange_before, irange_covers in *. lia.
Qed.

Lemma union_inv_sym a b st : union_inv a b st -> union_inv b a st.
Proof.
  unfold union_inv, no_triple. intros (Ha & Hb & H). repeat split; auto.
  destruct (is_irange_valid (fst st)); auto.
  destruct H as (Ho & Fa & Fb & Hn). repeat split; eauto.
Qed.

(** One turn of the union loop keeps the invariant, and the flushed state
    says about every ordinal what it said before together with [next]. *)
Lemma union_step_inv next a b st :
  union_inv (next :: a) b st ->
  Forall (fun n => irange_lower next <= irange_lower n) b ->
  union_inv a b (union_step next st) /\
  forall i, irange_list_find (flush (union_step next st)) i =
            union_lossiness (irange_list_find (flush st) i)
                            (irange_list_find [next] i).
Proof.
  destruct st as [cur result]. unfold union_inv, union_step, flush.
  simpl fst; simpl snd.
  intros (Ha & Hb & H) Hnb.
  pose proof Ha as (Hwn & Hna & Ha').
  destruct (is_irange_valid cur) eqn:V; simpl negb; cbv iota.
  - destruct H as (Ho & Fa & Fb & Hnt).
    apply ordered_app in Ho as (Hres & Hcur & Hrc).
    assert (Hwc : irange_wf cur) by (apply Hcur).
    apply List.Forall_inv in Fa as Hcn.
    destruct (irange_union_internal_spec cur next result Hwc Hwn Hcn)
      as (emitted & Hsnd & [S1 S2 S3 S4 S5]).
    destruct (irange_union_internal cur next result) as [ret res'].
    cbn [fst snd] in *. subst res'.
    assert (Hwr : irange_wf ret).
    { apply (ordered_wf _ _ S1). apply in_or_app. right. left. reflexivity. }
    assert (Vr : is_irange_valid ret = true) by apply Hwr.
    rewrite Vr. 
    rewrite List.Forall_forall in Hna, Hnb, Fb, S3.
    split; [split; [|split; [|split; [|split; [|split]]]]; auto|].
    + rewrite <- app_assoc. apply ordered_app. repeat split; auto.
      intros x y Hx Hy. specialize (Hrc x cur Hx (or_introl eq_refl)).
      specialize (S3 _ Hy). unfold irange_before in *. lia.
    + apply List.Forall_forall. intros n Hn. specialize (Hna _ Hn).
      destruct Hwn as (_ & _ & ? & _). unfold irange_before in *. lia.
    + apply List.Forall_forall. intros n Hn. specialize (Hnb _ Hn).
      destruct S4 as [S4|[S4 S4']]; [lia|].
      destruct (Z_le_gt_dec (irange_lower n)
                  (Z.min (irange_upper cur) (irange_upper next))); [|lia].
      exfalso. apply (Hnt next n (irange_lower n)); auto.
      * left; reflexivity.
      * unfold irange_covers. lia.
      * unfold irange_covers. lia.
      * pose proof (ordered_wf _ _ Hb Hn) as (_ & _ & ? & _).
        unfold irange_covers. lia.
    + intros ra rb i Hra Hrb Hci Hcra Hcrb.
      destruct (S5 _ Hci) as [Hc|Hc].
      * apply (Hnt ra rb i); auto. right; auto.
      * specialize (Hna _ Hra). unfold irange_before, irange_covers in *. lia.
    + intros i. unfold lappend_irange.
      rewrite <- app_assoc, (find_app result (emitted ++ _)),
        (find_app result [cur]), S2.
      destruct (irange_list_find result i) eqn:F; [|reflexivity].
      apply find_Some_covers in F as (r & Hr & Hcr & _).
      specialize (Hrc r cur Hr (or_introl eq_refl)).
      assert (irange_list_find [next] i = None) as ->.
      { simpl. unfold irange_before, irange_covers in *. zbool; reflexivity. }
      reflexivity.
  - subst result. cbn [fst snd]. pose proof Hwn as (Vn & Hn). rewrite Vn.
    split; [split; [|split; [|split; [|split; [|split]]]]; auto|].
    + simpl. auto.
    + eapply List.Forall_impl; [|exact Hna].
      unfold irange_before. intros; simpl in *; lia.
    + intros ra rb i Hra Hrb Hci Hcra Hcrb.
      rewrite List.Forall_forall in Hna. specialize (Hna _ Hra).
      unfold irange_before, irange_covers in *. lia.
    + intros i. reflexivity.
Qed.

Lemma union_loop_nil_nil st : union_loop [] [] st = st.
Proof. reflexivity. Qed.

Lemma union_loop_cons_nil ra ca st :
  union_loop (ra :: ca) [] st = union_loop ca [] (union_step ra st).
Proof. reflexivity. Qed.

Lemma union_loop_nil_cons rb cb st :
  union_loop [] (rb :: cb) st = union_loop [] cb (union_step rb st).
Proof. reflexivity. Qed.

Lemma union_loop_cons_cons ra ca rb cb st :
  union_loop (ra :: ca) (rb :: cb) st =
  if irange_lower ra <=? irange_lower rb
  then union_loop ca (rb :: cb) (union_step ra st)
  else union_loop (ra :: ca) cb (union_step rb st).
Proof. reflexivity. Qed.

Lemma union_lossiness_assoc x y z :
  union_lossiness (union_lossiness x y) z =
  union_lossiness x (union_lossiness y z).
Proof. destruct x as [[]|], y as [[]|], z as [[]|]; reflexivity. Qed.

Lemma union_lossiness_comm x y : union_lossiness x y = union_lossiness y x.
Proof. destruct x as [[]|], y as [[]|]; reflexivity. Qed.

(** The union loop, by induction on the number of ranges still to
    fetch. *)
Lemma union_loop_correct n : forall a b st,
  (length a + length b = n)%nat ->
  union_inv a b st ->
  ordered (flush (union_loop a b st)) /\
  forall i, irange_list_find (flush (union_loop a b st)) i =
            union_lossiness (irange_list_find (flush st) i)
              (union_lossiness (irange_list_find a i) (irange_list_find b i)).
Proof.
  induction n as [|n IH]; intros a b st Hlen Hinv.
  - destruct a, b; try discriminate. rewrite union_loop_nil_nil. split.
    + destruct Hinv as (_ & _ & H). unfold flush.
      destruct (is_irange_valid (fst st)); [apply H|rewrite H; exact I].
    + intros i. simpl. destruct (irange_list_find (flush st) i); reflexivity.
  - assert (Ha : forall ra ca, a = ra :: ca ->
        Forall (fun x => irange_lower ra <= irange_lower x) b ->
        ordered (flush (union_loop ca b (union_step ra st))) /\
        forall i, irange_list_find (flush (union_loop ca b (union_step ra st))) i =
            union_lossiness (irange_list_find (flush st) i)
              (union_lossiness (irange_list_find a i) (irange_list_find b i))).
    { intros ra ca -> Hb. destruct (union_step_inv _ _ _ _ Hinv Hb) as [Hinv' Hf].
      simpl in Hlen. destruct (IH ca b _ ltac:(lia) Hinv') as [Ho Hfi].
      split; [exact Ho|]. intros i. rewrite Hfi, Hf.
      rewrite (find_cons_ordered ra ca) by apply Hinv.
      rewrite !union_lossiness_assoc. reflexivity. }
    assert (Hb : forall rb cb, b = rb :: cb ->
        Forall (fun x => irange_lower rb <= irange_lower x) a ->
        ordered (flush (union_loop a cb (union_step rb st))) /\
        forall i, irange_list_find (flush (union_loop a cb (union_step rb st))) i =
            union_lossiness (irange_list_find (flush st) i)
              (union_lossiness (irange_list_find a i) (irange_list_find b i))).
    { intros rb cb -> Hb. apply union_inv_sym in Hinv.
      destruct (union_step_inv _ _ _ _ Hinv Hb) as [Hinv' Hf].
      apply union_inv_sym in Hinv'.
      assert (Hlen' : (length a + length cb = n)%nat) by (simpl in Hlen; lia).
      destruct (IH a cb _ Hlen' Hinv') as [Ho Hfi].
      split; [exact Ho|]. intros i. rewrite Hfi, Hf.
      rewrite (find_cons_ordered rb cb) by apply Hinv.
      rewrite !union_lossiness_assoc. f_equal.
      rewrite <- !union_lossiness_assoc.
      rewrite (union_lossiness_comm (irange_list_find a i)). reflexivity. }
    clear IH. destruct a as [|ra ca], b as [|rb cb]; try discriminate.
    + rewrite union_loop_nil_cons. apply Hb; auto.
    + rewrite union_loop_cons_nil. apply Ha; auto.
    + rewrite union_loop_cons_cons.
      destruct Hinv as (Hoa & Hob & _).
      destruct (Z.leb_spec (irange_lower ra) (irange_lower rb)).
      * apply Ha; auto. constructor; [assumption|].
        eapply List.Forall_impl; [|apply (ordered_lower_head _ _ Hob)].
        simpl; intros; lia.
      * apply Hb; auto. constructor; [lia|].
        eapply List.Forall_impl; [|apply (ordered_lower_head _ _ Hoa)].
        simpl; intros; lia.
Qed.

(** Sorted by lower bound and pairwise not intersecting is the same as:
    every range ends before the later ones start. *)
Lemma valid_ordered l : irange_list_valid l <-> ordered l.
Proof.
  unfold irange_list_valid. induction l as [|r l IH]; simpl.
  - split; [tauto|]. intros _. repeat constructor.
  - split.
    + intros (Hw & Hs & Hp).
      apply List.Forall_cons_iff in Hw as [Hwr Hw].
      apply StronglySorted_inv in Hs as [Hs Hr].
      inversion Hp as [|? ? Hpr Hp']; subst.
      split; [exact Hwr|]. split; [|apply IH; auto].
      rewrite List.Forall_forall in *. intros x Hx.
      specialize (Hw _ Hx). specialize (Hr _ Hx). specialize (Hpr _ Hx).
      unfold irange_wf, irange_before, iranges_intersect in *. zbool.
    + intros (Hwr & Hb & Ho). apply IH in Ho as (Hw & Hs & Hp).
      split; [constructor; auto|].
      assert (Hw' := Hw). rewrite List.Forall_forall in Hb, Hw'.
      split; constructor; auto; apply List.Forall_forall; intros x Hx;
        specialize (Hb _ Hx); specialize (Hw' _ Hx);
        unfold irange_wf, irange_before, iranges_intersect in *; zbool;
        try reflexivity; lia.
Qed.

Lemma union_inv_init a b :
  ordered a -> ordered b -> union_inv a b (InvalidIndexRange, []).
Proof. unfold union_inv. simpl. auto. Qed.

Lemma irange_list_union_flush a b :
  irange_list_union a b = flush (union_loop a b (InvalidIndexRange, [])).
Proof.
  unfold irange_list_union, flush.
  destruct (union_loop a b (InvalidIndexRange, [])) as [cur result].
  reflexivity.
Qed.

Lemma irange_list_union_find a b :
  irange_list_valid a -> irange_list_valid b ->
  irange_list_valid (irange_list_union a b) /\
  forall i, irange_list_find (irange_list_union a b) i =
            union_lossiness (irange_list_find a i) (irange_list_find b i).
Proof.
  rewrite !valid_ordered. intros Ha Hb. rewrite irange_list_union_flush.
  apply (union_loop_correct _ a b _ eq_refl (union_inv_init a b Ha Hb)).
Qed.

(** *** The intersection sweep *)


Lemma intersection_loop_nil_l cb result :
  intersection_loop [] cb result = result.
Proof. destruct cb; reflexivity. Qed.

Lemma intersection_loop_nil_r ca result :
  intersection_loop ca [] result = result.
Proof. destruct ca; reflexivity. Qed.

Lemma intersection_loop_cons ra ca rb cb result :
  intersection_loop (ra :: ca) (rb :: cb) result =
  if irange_upper ra <=? irange_upper rb
  then if irange_upper rb <=? irange_upper ra
       then intersection_loop ca cb (intersection_step ra rb result)
       else intersection_loop ca (rb :: cb) (intersection_step ra rb result)
  else intersection_loop (ra :: ca) cb (intersection_step ra rb result).
Proof. reflexivity. Qed.

Lemma list_nil_or_last {A} (l : list A) :
  l = [] \/ exists init lst, l = init ++ [lst].
Proof.
  destruct l as [|a l]; [left; reflexivity|right].
  destruct (@exists_last _ (a :: l)) as (init & lst & ->); [discriminate|eauto].
Qed.

Lemma find_all_after l i :
  Forall (fun r => i < irange_lower r) l -> irange_list_find l i = None.
Proof.
  induction 1 as [|r l Hr _ IH]; simpl; [reflexivity|].
  rewrite IH. zbool; reflexivity.
Qed.

Lemma find_tail_None r l i :
  ordered (r :: l) -> i <= irange_upper r -> irange_list_find l i = None.
Proof.
  intros (_ & Hb & _) Hi. apply find_all_after.
  eapply List.Forall_impl; [|exact Hb].
  unfold irange_before. intros; simpl in *; lia.
Qed.

Lemma intersection_step_snoc ra rb init lst :
  intersection_step ra rb (init ++ [lst]) =
  if iranges_intersect ra rb then
    let intersect := irange_intersection_simple ra rb in
    if iranges_adjoin lst intersect
       && Bool.eqb (is_irange_lossy lst) (is_irange_lossy intersect)
    then init ++ [irange_union_simple lst intersect]
    else lappend_irange (init ++ [lst]) intersect
  else init ++ [lst].
Proof.
  unfold intersection_step. destruct (iranges_intersect ra rb); [|reflexivity].
  destruct (init ++ [lst]) eqn:E; [destruct init; discriminate|].
  rewrite <- E. unfold llast_irange, set_llast.
  rewrite last_last, removelast_last. reflexivity.
Qed.

Lemma irange_intersection_simple_spec ra rb :
  irange_wf ra -> irange_wf rb -> iranges_intersect ra rb = true ->
  irange_wf (irange_intersection_simple ra rb) /\
  forall i, irange_list_find [irange_intersection_simple ra rb] i =
    intersection_lossiness (irange_list_find [ra] i) (irange_list_find [rb] i).
Proof.
  unfold irange_wf, iranges_intersect. simpl. intros Hwa Hwb Hint. split.
  - zbool; repeat split; lia.
  - intros i. zbool; reflexivity.
Qed.

Lemma no_intersection_find ra rb i :
  iranges_intersect ra rb = false ->
  intersection_lossiness (irange_list_find [ra] i) (irange_list_find [rb] i)
  = None.
Proof. unfold iranges_intersect. simpl. intros Hint. zbool; reflexivity. Qed.

Lemma glue_spec lst x :
  irange_wf lst -> irange_wf x -> irange_before lst x ->
  iranges_adjoin lst x = true -> is_irange_lossy lst = is_irange_lossy x ->
  irange_wf (irange_union_simple lst x) /\
  irange_lower (irange_union_simple lst x) = irange_lower lst /\
  irange_upper (irange_union_simple lst x) = irange_upper x /\
  forall i, irange_list_find [irange_union_simple lst x] i =
    match irange_list_find [lst] i with
    | Some y => Some y
    | None => irange_list_find [x] i
    end.
Proof.
  unfold irange_wf, irange_before, iranges_adjoin, irb_pred. simpl.
  intros Hwl Hwx Hb Hadj Hly. rewrite Hly.
  split; [repeat split; lia|]. split; [lia|]. split; [lia|].
  intros i. destruct (is_irange_lossy x); zbool; reflexivity.
Qed.

(** One turn of the intersection loop: what it does to [result]. *)
Lemma intersection_step_spec ra rb result :
  irange_wf ra -> irange_wf rb -> ordered result ->
  (forall r, In r result ->
     irange_upper r < Z.max (irange_lower ra) (irange_lower rb)) ->
  ordered (intersection_step ra rb result) /\
  (forall i, irange_list_find (intersection_step ra rb result) i =
     match irange_list_find result i with
     | Some x => Some x
     | None => intersection_lossiness (irange_list_find [ra] i)
                                      (irange_list_find [rb] i)
     end) /\
  (forall r, In r (intersection_step ra rb result) ->
     (exists r0, In r0 result /\ irange_upper r = irange_upper r0) \/
     irange_upper r = Z.min (irange_upper ra) (irange_upper rb)).
Proof.
  intros Hwa Hwb Ho Hlt.
  destruct (iranges_intersect ra rb) eqn:Hint.
  - destruct (irange_intersection_simple_spec ra rb Hwa Hwb Hint) as [Hwx Hfx].
    destruct (list_nil_or_last result) as [->|(init & lst & ->)].
    + unfold intersection_step. rewrite Hint. split; [|split].
      * simpl. auto.
      * intros i. apply Hfx.
      * intros r [<-|[]]. right. reflexivity.
    + assert (Hl : irange_before lst (irange_intersection_simple ra rb)).
      { apply Hlt. apply in_or_app. right. left. reflexivity. }
      apply ordered_app in Ho as (Hoi & Hol & Hil).
      assert (Hwl : irange_wf lst) by apply Hol.
      rewrite intersection_step_snoc, Hint. cbv zeta.
      destruct (_ && _) eqn:Hglue.
      * apply andb_true_iff in Hglue as [Hadj Hly].
        apply Bool.eqb_prop in Hly.
        destruct (glue_spec _ _ Hwl Hwx Hl Hadj Hly) as (Hwm & Hml & Hmu & Hfm).
        split; [|split].
        -- apply ordered_app. split; [auto|]. split; [simpl; auto|].
           intros x y Hx [<-|[]]. specialize (Hil x lst Hx (or_introl eq_refl)).
           unfold irange_before in *. rewrite Hml. exact Hil.
        -- intros i. rewrite !find_app.
           destruct (irange_list_find init i); [reflexivity|].
           rewrite Hfm, Hfx. reflexivity.
        -- intros r Hr. apply in_app_or in Hr as [Hr|[<-|[]]].
           ++ left. exists r. split; [apply in_or_app; auto|reflexivity].
           ++ right. rewrite Hmu. reflexivity.
      * unfold lappend_irange. split; [|split].
        -- apply ordered_app. split; [apply ordered_app; auto|]. split; [simpl; auto|].
           intros x y Hx [<-|[]]. unfold irange_before. simpl. apply Hlt. exact Hx.
        -- intros i. rewrite find_app, Hfx. reflexivity.
        -- intros r Hr. apply in_app_or in Hr as [Hr|[<-|[]]].
           ++ left. exists r. auto.
           ++ right. reflexivity.
  - unfold intersection_step. rewrite Hint. split; [auto|split].
    + intros i. rewrite no_intersection_find by exact Hint.
      destruct (irange_list_find result i); reflexivity.
    + intros r Hr. left. eauto.
Qed.

Lemma find_cons_covered r l i x :
  ordered (r :: l) -> irange_list_find [r] i = Some x ->
  irange_list_find (r :: l) i = Some x /\ irange_list_find l i = None.
Proof.
  intros Ho Hf. split.
  - simpl in *. destruct (_ && _); [exact Hf|discriminate].
  - apply (find_tail_None r l i Ho).
    apply find_Some_covers in Hf as (r' & [<-|[]] & Hc & _). apply Hc.
Qed.

Lemma find_cons_uncovered r l i :
  irange_list_find [r] i = None ->
  irange_list_find (r :: l) i = irange_list_find l i.
Proof. simpl. destruct (_ && _); [discriminate|reflexivity]. Qed.

Lemma find_single_upper r i x :
  irange_list_find [r] i = Some x -> i <= irange_upper r.
Proof.
  intros Hf. apply find_Some_covers in Hf as (r' & [<-|[]] & Hc & _). apply Hc.
Qed.

Lemma find_single_None_tail r l i :
  ordered (r :: l) -> irange_wf r ->
  irange_list_find [r] i = None -> i <= irange_upper r ->
  irange_list_find (r :: l) i = None.
Proof.
  intros Ho Hw Hf Hi. rewrite find_cons_uncovered by exact Hf.
  apply (find_tail_None r l i Ho Hi).
Qed.

(** The intersection loop, by induction on the number of ranges under and
    after the cursors. *)
Lemma intersection_loop_correct n : forall a b result,
  (length a + length b = n)%nat ->
  intersection_inv a b result ->
  ordered (intersection_loop a b result) /\
  forall i, irange_list_find (intersection_loop a b result) i =
    match irange_list_find result i with
    | Some x => Some x
    | None => intersection_lossiness (irange_list_find a i)
                                     (irange_list_find b i)
    end.
Proof.
  induction n as [n IH] using lt_wf_ind. intros a b result Hlen Hinv.
  destruct a as [|ra ca].
  { rewrite intersection_loop_nil_l. split; [apply Hinv|].
    intros i. simpl. destruct (irange_list_find result i); reflexivity. }
  destruct b as [|rb cb].
  { rewrite intersection_loop_nil_r. split; [apply Hinv|].
    intros i. simpl (irange_list_find [] i).
    destruct (irange_list_find result i), (irange_list_find (ra :: ca) i);
      reflexivity. }
  destruct Hinv as (Hoa & Hob & Hor & Hlt).
  assert (Hwa : irange_wf ra) by apply Hoa.
  assert (Hwb : irange_wf rb) by apply Hob.
  destruct (intersection_step_spec ra rb result Hwa Hwb Hor) as (Hor' & Hf' & Hu').
  { intros r Hr. apply Hlt; auto; left; reflexivity. }
  rewrite intersection_loop_cons.
  assert (Hsub : forall ca' cb',
    ordered ca' -> ordered cb' -> (length ca' + length cb' < n)%nat ->
    (forall x, In x ca' -> In x (ra :: ca)) ->
    (forall x, In x cb' -> In x (rb :: cb)) ->
    (forall ra' rb', In ra' ca' -> In rb' cb' ->
       Z.min (irange_upper ra) (irange_upper rb) <
       Z.max (irange_lower ra') (irange_lower rb')) ->
    (forall i, intersection_lossiness (irange_list_find [ra] i)
                 (irange_list_find [rb] i) = None ->
       intersection_lossiness (irange_list_find ca' i) (irange_list_find cb' i) =
       intersection_lossiness (irange_list_find (ra :: ca) i)
                              (irange_list_find (rb :: cb) i)) ->
    ordered (intersection_loop ca' cb' (intersection_step ra rb result)) /\
    forall i, irange_list_find
        (intersection_loop ca' cb' (intersection_step ra rb result)) i =
      match irange_list_find result i with
      | Some x => Some x
      | None => intersection_lossiness (irange_list_find (ra :: ca) i)
                                       (irange_list_find (rb :: cb) i)
      end).
  { intros ca' cb' Hoa' Hob' Hlen' Hsa Hsb Hadv Hfind.
    destruct (IH _ Hlen' ca' cb' (intersection_step ra rb result) eq_refl)
      as [Ho Hfi].
    { split; [auto|]. split; [auto|]. split; [auto|].
      intros r ra' rb' Hr Hra' Hrb'.
      destruct (Hu' r Hr) as [(r0 & Hr0 & Heq)|Heq]; rewrite Heq; [auto|].
      apply Hadv; auto. }
    split; [exact Ho|]. intros i. rewrite Hfi, Hf'.
    destruct (irange_list_find result i); [reflexivity|].
    destruct (intersection_lossiness (irange_list_find [ra] i)
                (irange_list_find [rb] i)) eqn:E.
    - destruct (irange_list_find [ra] i) as [la|] eqn:Ea; [|discriminate].
      destruct (irange_list_find [rb] i) as [lb|] eqn:Eb; [|discriminate].
      destruct (find_cons_covered ra ca i la Hoa Ea) as [-> _].
      destruct (find_cons_covered rb cb i lb Hob Eb) as [-> _].
      symmetry. exact E.
    - apply Hfind. exact E. }
  assert (Hta := fun i => find_tail_None ra ca i Hoa).
  assert (Htb := fun i => find_tail_None rb cb i Hob).
  pose proof Hoa as (_ & Hba & Hoa').
  pose proof Hob as (_ & Hbb & Hob').
  rewrite List.Forall_forall in Hba, Hbb. unfold irange_before in *.
  simpl in Hlen.
  destruct (Z.leb_spec (irange_upper ra) (irange_upper rb)) as [Hle|Hgt];
    [destruct (Z.leb_spec (irange_upper rb) (irange_upper ra)) as [Hge|Hlt']|].
  - (* both advance *)
    apply Hsub; auto; try lia; try (intros; right; assumption).
    + intros ra' rb' Hra' Hrb'. specialize (Hba _ Hra'). lia.
    + intros i E.
      destruct (irange_list_find [ra] i) as [la|] eqn:Ea;
        destruct (irange_list_find [rb] i) as [lb|] eqn:Eb; try discriminate.
      * apply find_single_upper in Ea as Hi.
        rewrite (find_cons_uncovered rb cb i Eb), (Hta i Hi), (Htb i ltac:(lia)).
        destruct (irange_list_find (ra :: ca) i); reflexivity.
      * apply find_single_upper in Eb as Hi.
        rewrite (find_cons_uncovered ra ca i Ea), (Hta i ltac:(lia)), (Htb i Hi).
        reflexivity.
      * rewrite (find_cons_uncovered ra ca i Ea), (find_cons_uncovered rb cb i Eb).
        reflexivity.
  - (* only a advances *)
    apply Hsub; auto; try lia; try (intros; right; assumption).
    + simpl. lia.
    + intros ra' rb' Hra' Hrb'. specialize (Hba _ Hra'). lia.
    + intros i E.
      destruct (irange_list_find [ra] i) as [la|] eqn:Ea.
      * destruct (irange_list_find [rb] i) as [lb|] eqn:Eb; [discriminate|].
        apply find_single_upper in Ea as Hi.
        rewrite (find_single_None_tail rb cb i Hob Hwb Eb ltac:(lia)), (Hta i Hi).
        destruct (irange_list_find (ra :: ca) i); reflexivity.
      * rewrite (find_cons_uncovered ra ca i Ea). reflexivity.
  - (* only b advances *)
    apply Hsub; auto; try lia; try (intros; right; assumption).
    + simpl. lia.
    + intros ra' rb' Hra' Hrb'. specialize (Hbb _ Hrb'). lia.
    + intros i E.
      destruct (irange_list_find [rb] i) as [lb|] eqn:Eb.
      * destruct (irange_list_find [ra] i) as [la|] eqn:Ea; [discriminate|].
        apply find_single_upper in Eb as Hi.
        rewrite (find_single_None_tail ra ca i Hoa Hwa Ea ltac:(lia)), (Htb i Hi).
        reflexivity.
      * rewrite (find_cons_uncovered rb cb i Eb). reflexivity.
Qed.

Lemma irange_list_intersection_find a b :
  irange_list_valid a -> irange_list_valid b ->
  irange_list_valid (irange_list_intersection a b) /\
  forall i, irange_list_find (irange_list_intersection a b) i =
            intersection_lossiness (irange_list_find a i) (irange_list_find b i).
Proof.
  rewrite !valid_ordered. intros Ha Hb. unfold irange_list_intersection.
  apply (intersection_loop_correct _ a b [] eq_refl).
  split; [auto|]. split; [auto|]. split; [exact I|]. intros r ra rb [].
Qed.

Lemma intersection_step_comm ra rb result :
  intersection_step ra rb result = intersection_step rb ra result.
Proof.
  unfold intersection_step.
  replace (iranges_intersect rb ra) with (iranges_intersect ra rb)
    by (unfold iranges_intersect; apply andb_comm).
  replace (irange_intersection_simple rb ra)
    with (irange_intersection_simple ra rb); [reflexivity|].
  unfold irange_intersection_simple.
  rewrite Z.max_comm, Z.min_comm, orb_comm. reflexivity.
Qed.

(** The intersection sweep treats its two arguments alike. *)
Lemma intersection_loop_comm n : forall a b result,
  (length a + length b = n)%nat ->
  intersection_loop a b result = intersection_loop b a result.
Proof.
  induction n as [n IH] using lt_wf_ind. intros a b result Hlen.
  destruct a as [|ra ca], b as [|rb cb];
    rewrite ?intersection_loop_nil_l, ?intersection_loop_nil_r;
    try reflexivity.
  rewrite !intersection_loop_cons, (intersection_step_comm rb ra).
  simpl in Hlen.
  destruct (Z.leb_spec (irange_upper ra) (irange_upper rb));
    destruct (Z.leb_spec (irange_upper rb) (irange_upper ra)); try lia.
  - apply (IH (length ca + length cb)%nat); [lia|reflexivity].
  - apply (IH (length ca + length (rb :: cb))%nat); [simpl; lia|reflexivity].
  - apply (IH (length (ra :: ca) + length cb)%nat); [simpl; lia|reflexivity].
Qed.

Lemma find_covers l i :
  irange_list_covers l i <-> irange_list_find l i <> None.
Proof.
  split.
  - intros (r & Hin & Hc) Hnone.
    exact (find_None_not_covers l i r Hnone Hin Hc).
  - destruct (irange_list_find l i) eqn:F; [|congruence].
    intros _. apply find_Some_covers in F as (r & Hin & Hc & _).
    exists r. auto.
Qed.

Lemma irange_list_validb_sound l :
  irange_list_validb l = true -> irange_list_valid l.
Proof.
  intros H. apply valid_ordered.
  induction l as [|r l IH]; simpl in *; [exact I|].
  apply andb_true_iff in H as [H Hrec].
  apply andb_true_iff in H as [H Hall].
  apply andb_true_iff in H as [H Hup].
  apply andb_true_iff in H as [H Hlu].
  apply andb_true_iff in H as [Hv Hlo].
  specialize (IH Hrec).
  split; [|split; [|exact IH]].
  - unfold irange_wf. zbool. auto.
  - apply List.Forall_forall. intros x Hx.
    rewrite forallb_forall in Hall. specialize (Hall x Hx).
    apply andb_true_iff in Hall as [H1 H2]. apply negb_true_iff in H2.
    pose proof (ordered_wf l x IH Hx) as Hwx.
    unfold iranges_intersect, irange_before, irange_wf in *. zbool.
Qed.

(** C1.  For valid range lists [a] and [b] (well-formed ranges, sorted by
    lower bound, not overlapping), [irange_list_union a b] is again a valid
    range list; it covers an ordinal exactly when [a] or [b] covers it; and
    the lossiness [irange_list_find] reports for an ordinal of the result is
    [lossy_in_a && lossy_in_b] when both lists cover it and otherwise the
    lossiness of the list that covers it. *)
Theorem irange_list_union_spec a b :
  irange_list_valid a -> irange_list_valid b ->
  irange_list_valid (irange_list_union a b) /\
  forall i,
    (irange_list_covers (irange_list_union a b) i <->
     irange_list_covers a i \/ irange_list_covers b i) /\
    irange_list_find (irange_list_union a b) i =
      match irange_list_find a i, irange_list_find b i with
      | Some lossy_in_a, Some lossy_in_b => Some (lossy_in_a && lossy_in_b)
      | Some lossy_in_a, None => Some lossy_in_a
      | None, Some lossy_in_b => Some lossy_in_b
      | None, None => None
      end.
Proof.
  intros Ha Hb. destruct (irange_list_union_find a b Ha Hb) as [Hv Hf].
  split; [exact Hv|]. intros i. specialize (Hf i). split.
  - rewrite !find_covers, Hf.
    destruct (irange_list_find a i), (irange_list_find b i); simpl;
      intuition congruence.
  - rewrite Hf.
    destruct (irange_list_find a i), (irange_list_find b i); reflexivity.
Qed.

(** C1 at the lists of the worked example. *)
Lemma irange_list_union_spec_witness :
  irange_list_valid example_a /\ irange_list_valid example_b /\
  irange_list_valid (irange_list_union example_a example_b) /\
  forall i,
    (irange_list_covers (irange_list_union example_a example_b) i <->
     irange_list_covers example_a i \/ irange_list_covers example_b i) /\
    irange_list_find (irange_list_union example_a example_b) i =
      match irange_list_find example_a i, irange_list_find example_b i with
      | Some lossy_in_a, Some lossy_in_b => Some (lossy_in_a && lossy_in_b)
      | Some lossy_in_a, None => Some lossy_in_a
      | None, Some lossy_in_b => Some lossy_in_b
      | None, None => None
      end.
Proof.
  split; [apply irange_list_validb_sound; reflexivity|].
  split; [apply irange_list_validb_sound; reflexivity|].
  apply (irange_list_union_spec example_a example_b);
    apply irange_list_validb_sound; reflexivity.
Defined.

(** C3.  For valid range lists [a] and [b], [irange_list_intersection a b]
    covers an ordinal exactly when both [a] and [b] cover it, and the
    lossiness of a covered ordinal is [lossy_in_a || lossy_in_b]. *)
Theorem irange_list_intersection_spec a b :
  irange_list_valid a -> irange_list_valid b ->
  forall i,
    (irange_list_covers (irange_list_intersection a b) i <->
     irange_list_covers a i /\ irange_list_covers b i) /\
    irange_list_find (irange_list_intersection a b) i =
      match irange_list_find a i, irange_list_find b i with
      | Some lossy_in_a, Some lossy_in_b => Some (lossy_in_a || lossy_in_b)
      | _, _ => None
      end.
Proof.
  intros Ha Hb i. destruct (irange_list_intersection_find a b Ha Hb) as [_ Hf].
  specialize (Hf i). split.
  - rewrite !find_covers, Hf.
    destruct (irange_list_find a i), (irange_list_find b i); simpl;
      intuition congruence.
  - rewrite Hf. reflexivity.
Qed.

(** C3 at the lists of the worked example. *)
Lemma irange_list_intersection_spec_witness :
  irange_list_valid example_a /\ irange_list_valid example_b /\
  forall i,
    (irange_list_covers (irange_list_intersection example_a example_b) i <->
     irange_list_covers example_a i /\ irange_list_covers example_b i) /\
    irange_list_find (irange_list_intersection example_a example_b) i =
      match irange_list_find example_a i, irange_list_find example_b i with
      | Some lossy_in_a, Some lossy_in_b => Some (lossy_in_a || lossy_in_b)
      | _, _ => None
      end.
Proof.
  split; [apply irange_list_validb_sound; reflexivity|].
  split; [apply irange_list_validb_sound; reflexivity|].
  apply (irange_list_intersection_spec example_a example_b);
    apply irange_list_validb_sound; reflexivity.
Defined.

(** C2, amended.  For a = [(0,2,exact); (5,5,lossy)] and
    b = [(2,4,lossy)] the union is the list [(0,2,exact); (3,5,lossy)]:
    ordinal 2 stays exact and the ordinals 3, 4 and 5 stay lossy, the
    adjoining lossy ranges (3,4) and (5,5) being united into one. *)
Theorem union_example_coalesced :
  irange_list_union example_a example_b =
    [make_irange 0 2 false; make_irange 3 5 true] /\
  irange_list_find (irange_list_union example_a example_b) 2 = Some false /\
  irange_list_find (irange_list_union example_a example_b) 3 = Some true /\
  irange_list_find (irange_list_union example_a example_b) 4 = Some true /\
  irange_list_find (irange_list_union example_a example_b) 5 = Some true.
Proof. repeat split; reflexivity. Qed.

(** C2 as stated fails: the union of the example is not the list of three
    ranges. *)
Lemma union_example_not_three_ranges :
  irange_list_union example_a example_b <>
  [make_irange 0 2 false; make_irange 3 4 true; make_irange 5 5 true].
Proof. intros H. vm_compute in H. discriminate H. Qed.

(** C8 as stated fails: the unions in the two orders can be different
    lists. *)
Lemma union_not_commutative_on_lists :
  ~ (forall a b, irange_list_valid a -> irange_list_valid b ->
       irange_list_union a b = irange_list_union b a).
Proof.
  intros H.
  specialize (H commute_a commute_b (irange_list_validb_sound commute_a eq_refl)
                (irange_list_validb_sound commute_b eq_refl)).
  vm_compute in H. discriminate H.
Qed.

(** C8, amended.  For valid range lists [a] and [b], the unions in the two
    orders report the same coverage and lossiness for every ordinal, the
    intersections in the two orders are the same list, and uniting
    (intersecting) the result with [b] once more leaves the coverage and
    lossiness of every ordinal as they are. *)
Theorem union_intersection_commute a b :
  irange_list_valid a -> irange_list_valid b ->
  (forall i, irange_list_find (irange_list_union a b) i =
             irange_list_find (irange_list_union b a) i) /\
  irange_list_intersection a b = irange_list_intersection b a /\
  (forall i,
     irange_list_find (irange_list_union (irange_list_union a b) b) i =
     irange_list_find (irange_list_union a b) i) /\
  (forall i,
     irange_list_find
       (irange_list_intersection (irange_list_intersection a b) b) i =
     irange_list_find (irange_list_intersection a b) i).
Proof.
  intros Ha Hb.
  destruct (irange_list_union_find a b Ha Hb) as [Hvu Hu].
  destruct (irange_list_union_find b a Hb Ha) as [_ Hu'].
  destruct (irange_list_intersection_find a b Ha Hb) as [Hvi Hi].
  destruct (irange_list_union_find _ b Hvu Hb) as [_ Huu].
  destruct (irange_list_intersection_find _ b Hvi Hb) as [_ Hii].
  split; [|split; [|split]].
  - intros i. rewrite Hu, Hu'. apply union_lossiness_comm.
  - apply (intersection_loop_comm _ a b [] eq_refl).
  - intros i. rewrite Huu, Hu.
    destruct (irange_list_find a i) as [[]|], (irange_list_find b i) as [[]|];
      reflexivity.
  - intros i. rewrite Hii, Hi.
    destruct (irange_list_find a i) as [[]|], (irange_list_find b i) as [[]|];
      reflexivity.
Qed.

(** C8, amended, at the two lists whose unions differ as lists. *)
Lemma union_intersection_commute_witness :
  irange_list_valid commute_a /\ irange_list_valid commute_b /\
  (forall i, irange_list_find (irange_list_union commute_a commute_b) i =
             irange_list_find (irange_list_union commute_b commute_a) i) /\
  irange_list_intersection commute_a commute_b =
    irange_list_intersection commute_b commute_a /\
  (forall i,
     irange_list_find
       (irange_list_union (irange_list_union commute_a commute_b) commute_b) i
     = irange_list_find (irange_list_union commute_a commute_b) i) /\
  (forall i,
     irange_list_find
       (irange_list_intersection
          (irange_list_intersection commute_a commute_b) commute_b) i =
     irange_list_find (irange_list_intersection commute_a commute_b) i).
Proof.
  split; [apply irange_list_validb_sound; reflexivity|].
  split; [apply irange_list_validb_sound; reflexivity|].
  apply (union_intersection_commute commute_a commute_b);
    apply irange_list_validb_sound; reflexivity.
Defined.

(** *** Further properties *)

(** X1.  The intersection of two valid range lists is a valid range list:
    its ranges are well formed, sorted by lower bound and do not
    overlap. *)
Theorem irange_list_intersection_valid a b :
  irange_list_valid a -> irange_list_valid b ->
  irange_list_valid (irange_list_intersection a b).
Proof. intros Ha Hb. apply (irange_list_intersection_find a b Ha Hb). Qed.

Lemma irange_list_intersection_valid_witness :
  irange_list_valid example_a /\ irange_list_valid example_b /\
  irange_list_valid (irange_list_intersection example_a example_b).
Proof.
  split; [apply irange_list_validb_sound; reflexivity|].
  split; [apply irange_list_validb_sound; reflexivity|].
  apply (irange_list_intersection_valid example_a example_b);
    apply irange_list_validb_sound; reflexivity.
Defined.

Lemma ordered_covers_unique l i r r' :
  ordered l -> In r l -> In r' l ->
  irange_covers r i -> irange_covers r' i -> r = r'.
Proof.
  induction l as [|x l IH]; simpl; [tauto|].
  intros (Hw & Hb & Ho) Hr Hr' Hc Hc'.
  rewrite List.Forall_forall in Hb. unfold irange_before, irange_covers in *.
  destruct Hr as [<-|Hr], Hr' as [<-|Hr']; auto.
  - specialize (Hb _ Hr'). lia.
  - specialize (Hb _ Hr). lia.
Qed.

(** X2.  In a valid range list at most one range covers an ordinal, and
    [irange_list_find] reports exactly that range: it finds the ordinal
    with lossiness [x] if and only if a range of the list covers it and
    has lossiness [x], and it finds nothing if and only if no range covers
    it. *)
Theorem irange_list_find_spec l i :
  irange_list_valid l ->
  (forall r r', In r l -> In r' l ->
     irange_covers r i -> irange_covers r' i -> r = r') /\
  (forall x, irange_list_find l i = Some x <->
     exists r, In r l /\ irange_covers r i /\ is_irange_lossy r = x) /\
  (irange_list_find l i = None <->
     forall r, In r l -> ~ irange_covers r i).
Proof.
  intros Hv. apply valid_ordered in Hv. split; [|split].
  - intros r r'. apply ordered_covers_unique. exact Hv.
  - intros x. split; [apply find_Some_covers|].
    intros (r & Hin & Hc & Hx).
    destruct (irange_list_find l i) as [y|] eqn:F.
    + apply find_Some_covers in F as (r' & Hin' & Hc' & Hy).
      rewrite (ordered_covers_unique l i r r' Hv Hin Hin' Hc Hc') in Hx.
      congruence.
    + exfalso. exact (find_None_not_covers l i r F Hin Hc).
  - split; [intros F r; apply find_None_not_covers; exact F|].
    intros Hnone. destruct (irange_list_find l i) eqn:F; [|reflexivity].
    apply find_Some_covers in F as (r & Hin & Hc & _).
    exfalso. exact (Hnone r Hin Hc).
Qed.

Lemma irange_list_find_spec_witness :
  irange_list_valid example_a /\
  (forall r r', In r example_a -> In r' example_a ->
     irange_covers r 5 -> irange_covers r' 5 -> r = r') /\
  (forall x, irange_list_find example_a 5 = Some x <->
     exists r, In r example_a /\ irange_covers r 5 /\ is_irange_lossy r = x) /\
  (irange_list_find example_a 5 = None <->
     forall r, In r example_a -> ~ irange_covers r 5).
Proof.
  split; [apply irange_list_validb_sound; reflexivity|].
  apply (irange_list_find_spec example_a 5).
  apply irange_list_validb_sound; reflexivity.
Defined.

Lemma count_covered_bounds l n :
  0 <= count_covered l n <= Z.of_nat n.
Proof.
  induction n as [|n IH]; cbn [count_covered]; [lia|].
  destruct (irange_list_find l (Z.of_nat n)); lia.
Qed.

Lemma count_covered_single r n :
  irange_wf r ->
  count_covered [r] n =
  Z.max 0 (Z.min (irange_upper r + 1) (Z.of_nat n) - irange_lower r).
Proof.
  intros (_ & H0 & Hlu & _). induction n as [|n IH].
  - simpl. lia.
  - cbn [count_covered]. rewrite IH. simpl irange_list_find.
    zbool; lia.
Qed.

Lemma count_covered_cons r l n :
  ordered (r :: l) ->
  count_covered (r :: l) n = count_covered [r] n + count_covered l n.
Proof.
  intros Ho. induction n as [|n IH]; [reflexivity|].
  cbn [count_covered]. rewrite IH.
  rewrite (find_cons_ordered r l _ Ho).
  assert (Hdisj : forall x, irange_list_find [r] (Z.of_nat n) = Some x ->
                            irange_list_find l (Z.of_nat n) = None).
  { intros x Hx. apply (find_cons_covered r l _ x Ho Hx). }
  destruct (irange_list_find [r] (Z.of_nat n)) as [x|] eqn:F1.
  - rewrite (Hdisj x eq_refl). simpl. lia.
  - destruct (irange_list_find l (Z.of_nat n)); simpl; lia.
Qed.

(** The sum the loop of [irange_list_length] computes when nothing wraps. *)
Lemma count_covered_total l n :
  ordered l -> Forall (fun r => irange_upper r < Z.of_nat n) l ->
  count_covered l n =
  fold_right (fun r acc => irange_upper r - irange_lower r + 1 + acc) 0 l.
Proof.
  induction l as [|r l IH]; intros Ho Hn.
  - simpl. clear. induction n; simpl; lia.
  - rewrite (count_covered_cons r l n Ho).
    apply List.Forall_cons_iff in Hn as [Hr Hn].
    destruct Ho as (Hw & Hb & Ho).
    rewrite (count_covered_single r n Hw), (IH Ho Hn). simpl.
    destruct Hw as (_ & ? & ? & _). lia.
Qed.

Lemma length_loop_no_wrap l : forall acc,
  Forall irange_wf l -> 0 <= acc ->
  acc + fold_right (fun r s => irange_upper r - irange_lower r + 1 + s) 0 l
    < 2 ^ 32 ->
  fold_left
    (fun result irange =>
       uint32
         (result +
          uint32 (uint32 (irange_upper irange - irange_lower irange) + 1)))
    l acc =
  acc + fold_right (fun r s => irange_upper r - irange_lower r + 1 + s) 0 l.
Proof.
  induction l as [|r l IH]; intros acc Hw Hacc Hfit;
    cbn [fold_left fold_right] in *; [lia|].
  apply List.Forall_cons_iff in Hw as [(_ & H0 & Hlu & _) Hw].
  assert (Hpos : 0 <= fold_right
            (fun r s => irange_upper r - irange_lower r + 1 + s) 0 l).
  { clear -Hw. induction Hw as [|x l (_ & ? & ? & _) _ IHl]; simpl; lia. }
  unfold uint32.
  rewrite (Z.mod_small (irange_upper r - irange_lower r)) by lia.
  rewrite (Z.mod_small (irange_upper r - irange_lower r + 1)) by lia.
  rewrite (Z.mod_small (acc + _)) by lia.
  fold uint32. rewrite IH by (auto; lia). lia.
Qed.

(** What [irange_list_length] returns, by the number of ordinals the list
    covers. *)
Lemma irange_list_length_all l :
  irange_list_valid l ->
  Forall (fun r => irange_upper r < Z.of_nat (Z.to_nat (2 ^ 31))) l /\
  irange_list_length l =
  int_of_uint32 (count_covered l (Z.to_nat (2 ^ 31))).
Proof.
  intros Hv. pose proof Hv as (Hw & _). apply valid_ordered in Hv.
  assert (Hall : Forall (fun r => irange_upper r < Z.of_nat (Z.to_nat (2 ^ 31))) l).
  { eapply List.Forall_impl; [|exact Hw].
    intros r (_ & _ & _ & Hu). unfold IRANGE_BOUNDARY_MASK in Hu.
    rewrite Z2Nat.id by lia. simpl. lia. }
  split; [exact Hall|].
  pose proof (count_covered_total l _ Hv Hall) as Hc.
  pose proof (count_covered_bounds l (Z.to_nat (2 ^ 31))) as Hb.
  rewrite Z2Nat.id in Hb by lia.
  unfold irange_list_length.
  rewrite (length_loop_no_wrap l 0 Hw) by lia.
  rewrite Z.add_0_l, <- Hc. reflexivity.
Qed.

(** X3.  For a valid range list whose ranges all end below [n],
    [irange_list_length] is the number of ordinals below [n] the list
    covers, as long as that number fits an [int]; a list that covers all
    2^31 ordinals makes the result wrap to -2^31. *)
Theorem irange_list_length_counts l n :
  irange_list_valid l ->
  Forall (fun r => irange_upper r < Z.of_nat n) l ->
  irange_list_length l =
  if count_covered l n <? 2 ^ 31 then count_covered l n else - 2 ^ 31.
Proof.
  intros Hv Hn. destruct (irange_list_length_all l Hv) as [Hall ->].
  apply valid_ordered in Hv.
  pose proof (count_covered_total l n Hv Hn) as Hc.
  pose proof (count_covered_total l _ Hv Hall) as Hc'.
  pose proof (count_covered_bounds l (Z.to_nat (2 ^ 31))) as Hb.
  rewrite Z2Nat.id in Hb by lia.
  rewrite <- Hc' in Hc. rewrite Hc. unfold int_of_uint32.
  destruct (Z.ltb_spec (count_covered l (Z.to_nat (2 ^ 31))) (2 ^ 31)); lia.
Qed.

Lemma irange_list_length_counts_witness :
  irange_list_valid example_a /\
  Forall (fun r => irange_upper r < Z.of_nat 6) example_a /\
  irange_list_length example_a =
  if count_covered example_a 6 <? 2 ^ 31
  then count_covered example_a 6 else - 2 ^ 31.
Proof.
  assert (Hn : Forall (fun r => irange_upper r < Z.of_nat 6) example_a)
    by (repeat constructor; simpl; lia).
  split; [apply irange_list_validb_sound; reflexivity|].
  split; [exact Hn|].
  apply (irange_list_length_counts example_a 6);
    [apply irange_list_validb_sound; reflexivity|exact Hn].
Defined.

Lemma count_covered_missing l n i :
  0 <= i < Z.of_nat n -> irange_list_find l i = None ->
  count_covered l n < Z.of_nat n.
Proof.
  induction n as [|n IH]; intros Hi F; [lia|].
  cbn [count_covered].
  destruct (Z.eq_dec i (Z.of_nat n)) as [<-|Hne].
  - rewrite F. pose proof (count_covered_bounds l n). lia.
  - assert (Hlt : count_covered l n < Z.of_nat n) by (apply IH; [lia|exact F]).
    destruct (irange_list_find l (Z.of_nat n)); lia.
Qed.

Lemma irange_list_length_missing l i :
  irange_list_valid l -> 0 <= i <= IRANGE_BOUNDARY_MASK ->
  irange_list_find l i = None ->
  irange_list_length l = count_covered l (Z.to_nat (2 ^ 31)).
Proof.
  intros Hv Hi F. destruct (irange_list_length_all l Hv) as [_ ->].
  pose proof (count_covered_missing l (Z.to_nat (2 ^ 31)) i) as Hlt.
  rewrite Z2Nat.id in Hlt by lia. unfold IRANGE_BOUNDARY_MASK in Hi.
  specialize (Hlt ltac:(lia) F). unfold int_of_uint32.
  destruct (Z.ltb_spec (count_covered l (Z.to_nat (2 ^ 31))) (2 ^ 31)); lia.
Qed.

Lemma count_covered_union_intersection a b n :
  irange_list_valid a -> irange_list_valid b ->
  count_covered (irange_list_union a b) n +
  count_covered (irange_list_intersection a b) n =
  count_covered a n + count_covered b n /\
  count_covered (irange_list_intersection a b) n <= count_covered a n /\
  count_covered (irange_list_intersection a b) n <= count_covered b n.
Proof.
  intros Ha Hb.
  destruct (irange_list_union_find a b Ha Hb) as [_ Hu].
  destruct (irange_list_intersection_find a b Ha Hb) as [_ Hi].
  induction n as [|n IH]; cbn [count_covered]; [lia|].
  rewrite Hu, Hi.
  destruct (irange_list_find a (Z.of_nat n)),
           (irange_list_find b (Z.of_nat n)); simpl; lia.
Qed.

(** X4.  For valid range lists [a] and [b] that between them leave some
    ordinal uncovered, the lengths obey inclusion and exclusion: the length
    of the union plus the length of the intersection is the sum of the two
    lengths; so the union is no longer than the two lists together and the
    intersection no longer than either. *)
Theorem irange_list_length_union_intersection a b i :
  irange_list_valid a -> irange_list_valid b ->
  0 <= i <= IRANGE_BOUNDARY_MASK ->
  irange_list_find a i = None -> irange_list_find b i = None ->
  irange_list_length (irange_list_union a b) +
  irange_list_length (irange_list_intersection a b) =
  irange_list_length a + irange_list_length b /\
  irange_list_length (irange_list_union a b) <=
  irange_list_length a + irange_list_length b /\
  0 <= irange_list_length (irange_list_intersection a b) /\
  irange_list_length (irange_list_intersection a b) <= irange_list_length a /\
  irange_list_length (irange_list_intersection a b) <= irange_list_length b.
Proof.
  intros Ha Hb Hi Fa Fb.
  destruct (irange_list_union_find a b Ha Hb) as [Hvu Hu].
  destruct (irange_list_intersection_find a b Ha Hb) as [Hvi Hin].
  assert (Fu : irange_list_find (irange_list_union a b) i = None)
    by (rewrite Hu, Fa, Fb; reflexivity).
  assert (Fi : irange_list_find (irange_list_intersection a b) i = None)
    by (rewrite Hin, Fa; reflexivity).
  rewrite (irange_list_length_missing _ i Hvu Hi Fu),
    (irange_list_length_missing _ i Hvi Hi Fi),
    (irange_list_length_missing _ i Ha Hi Fa),
    (irange_list_length_missing _ i Hb Hi Fb).
  destruct (count_covered_union_intersection a b (Z.to_nat (2 ^ 31)) Ha Hb)
    as (Hsum & Hia & Hib).
  pose proof (count_covered_bounds (irange_list_intersection a b)
                (Z.to_nat (2 ^ 31))).
  lia.
Qed.

Lemma irange_list_length_union_intersection_witness :
  irange_list_valid example_a /\ irange_list_valid example_b /\
  0 <= 6 <= IRANGE_BOUNDARY_MASK /\
  irange_list_find example_a 6 = None /\
  irange_list_find example_b 6 = None /\
  irange_list_length (irange_list_union example_a example_b) +
  irange_list_length (irange_list_intersection example_a example_b) =
  irange_list_length example_a + irange_list_length example_b /\
  irange_list_length (irange_list_union example_a example_b) <=
  irange_list_length example_a + irange_list_length example_b /\
  0 <= irange_list_length (irange_list_intersection example_a example_b) /\
  irange_list_length (irange_list_intersection example_a example_b)
    <= irange_list_length example_a /\
  irange_list_length (irange_list_intersection example_a example_b)
    <= irange_list_length example_b.
Proof.
  assert (Hi : 0 <= 6 <= IRANGE_BOUNDARY_MASK)
    by (unfold IRANGE_BOUNDARY_MASK; lia).
  split; [apply irange_list_validb_sound; reflexivity|].
  split; [apply irange_list_validb_sound; reflexivity|].
  split; [exact Hi|]. split; [reflexivity|]. split; [reflexivity|].
  apply (irange_list_length_union_intersection example_a example_b 6);
    try reflexivity; try exact Hi;
    apply irange_list_validb_sound; reflexivity.
Defined.

Example irange_list_length_example :
  irange_list_length example_a = 4 /\
  irange_list_length (irange_list_union example_a example_b) = 6 /\
  irange_list_length (irange_list_intersection example_a example_b) = 1 /\
  irange_list_length [make_irange 0 IRANGE_BOUNDARY_MASK true] = - 2 ^ 31.
Proof. repeat split; vm_compute; reflexivity. Qed.

Lemma irange_union_internal_apart c r res :
  irange_wf c -> irange_wf r -> irange_before c r ->
  ~ (irange_upper c + 1 = irange_lower r /\
     is_irange_lossy c = is_irange_lossy r) ->
  irange_union_internal c r res = (r, lappend_irange res c).
Proof.
  destruct c as [cv cl cu cy], r as [rv rl ru ry].
  unfold irange_wf, irange_before; simpl.
  intros (-> & Hc0 & Hc1 & Hc2) (-> & Hr0 & Hr1 & Hr2) Hb Hn.
  unfold irange_union_internal, iranges_intersect, iranges_adjoin,
    irange_cmp_lossiness, irb_pred; simpl.
  destruct cy, ry; simpl; zbool; try reflexivity; exfalso; apply Hn; split;
    (lia || reflexivity).
Qed.

Lemma union_loop_one_sided l : forall c res,
  ordered (c :: l) -> coalesced (c :: l) ->
  flush (union_loop l [] (c, res)) = res ++ c :: l /\
  flush (union_loop [] l (c, res)) = res ++ c :: l.
Proof.
  induction l as [|r l IH]; intros c res Ho Hc.
  - destruct Ho as ((V & _) & _). unfold flush. simpl. rewrite V. auto.
  - rewrite union_loop_cons_nil, union_loop_nil_cons.
    pose proof Ho as (Hwc & Hb & Ho'). pose proof Hc as (Hn & Hc').
    assert (Hstep : union_step r (c, res) = (r, lappend_irange res c)).
    { unfold union_step. destruct Hwc as (V & Hwc). rewrite V. simpl negb.
      cbv iota. apply irange_union_internal_apart; auto.
      - split; auto.
      - apply Ho'.
      - apply List.Forall_inv in Hb. exact Hb. }
    rewrite Hstep. destruct (IH r (lappend_irange res c) Ho' Hc') as [H1 H2].
    rewrite H1, H2. unfold lappend_irange. rewrite <- app_assoc. auto.
Qed.

(** X5.  The empty list is neutral for the union and absorbing for the
    intersection: uniting a valid, coalesced range list with the empty
    list, on either side, returns the list itself, and intersecting any
    list, valid or not, with the empty list returns the empty list. *)
Theorem irange_list_union_nil a :
  (irange_list_valid a -> coalesced a ->
   irange_list_union a [] = a /\ irange_list_union [] a = a) /\
  irange_list_intersection a [] = [] /\ irange_list_intersection [] a = [].
Proof.
  split; [|split].
  - intros Hv Hc. apply valid_ordered in Hv.
    rewrite !irange_list_union_flush. split.
    + destruct a as [|r l]; [reflexivity|].
      rewrite union_loop_cons_nil.
      apply (union_loop_one_sided l r [] Hv Hc).
    + destruct a as [|r l]; [reflexivity|].
      rewrite union_loop_nil_cons.
      apply (union_loop_one_sided l r [] Hv Hc).
  - apply intersection_loop_nil_r.
  - apply intersection_loop_nil_l.
Qed.

(** X5 at a valid list, and at a list that is not valid. *)
Lemma irange_list_union_nil_witness :
  irange_list_valid example_a /\ coalesced example_a /\
  irange_list_union example_a [] = example_a /\
  irange_list_union [] example_a = example_a /\
  irange_list_intersection example_a [] = [] /\
  irange_list_intersection [] example_a = [] /\
  irange_list_validb (rev example_a ++ example_a) = false /\
  irange_list_intersection (rev example_a ++ example_a) [] = [] /\
  irange_list_intersection [] (rev example_a ++ example_a) = [].
Proof.
  assert (Hc : coalesced example_a).
  { simpl. repeat split; try exact I. intros [H _]. discriminate H. }
  assert (Hv : irange_list_valid example_a)
    by (apply irange_list_validb_sound; reflexivity).
  destruct (irange_list_union_nil example_a) as [Hu Hi].
  destruct (irange_list_union_nil (rev example_a ++ example_a)) as [_ Hj].
  split; [exact Hv|]. split; [exact Hc|].
  split; [exact (proj1 (Hu Hv Hc))|]. split; [exact (proj2 (Hu Hv Hc))|].
  split; [exact (proj1 Hi)|]. split; [exact (proj2 Hi)|].
  split; [reflexivity|exact Hj].
Defined.

(** Lists that are valid but not coalesced come back coalesced. *)
Example irange_list_union_nil_coalesces :
  irange_list_union [make_irange 0 1 true; make_irange 2 3 true] [] =
  [make_irange 0 3 true].
Proof. reflexivity. Qed.

(** X6.  Splitting a covering range around an inner range of the other
    lossiness: what [irange_handle_cover_internal] appends, followed by the
    range it returns, is an ordered list of at most three well-formed
    ranges, also when the inner range touches an end of the covering one;
    it covers exactly the covering range, exact where either range is
    exact; and an exact covering range is returned as it is with nothing
    appended. *)
Theorem irange_handle_cover_internal_spec covering inner new_iranges :
  irange_wf covering -> irange_wf inner ->
  irange_lower covering <= irange_lower inner ->
  irange_upper inner <= irange_upper covering ->
  is_irange_lossy covering <> is_irange_lossy inner ->
  exists emitted,
    snd (irange_handle_cover_internal covering inner new_iranges) =
      new_iranges ++ emitted /\
    (length emitted <= 2)%nat /\
    (is_irange_lossy covering = false ->
       emitted = [] /\
       fst (irange_handle_cover_internal covering inner new_iranges)
         = covering) /\
    ordered
      (emitted ++
       [fst (irange_handle_cover_internal covering inner new_iranges)]) /\
    forall i,
      irange_list_find
        (emitted ++
         [fst (irange_handle_cover_internal covering inner new_iranges)]) i =
      union_lossiness (irange_list_find [covering] i)
                      (irange_list_find [inner] i).
Proof.
  pose proof mask_nonneg as HM.
  destruct covering as [cv cl cu cy], inner as [nv nl nu ny].
  unfold irange_wf; simpl.
  intros (-> & Hc0 & Hc1 & Hc2) (-> & Hn0 & Hn1 & Hn2) Hl Hu Hy.
  unfold irange_handle_cover_internal, lappend_irange, make_irange,
    irb_pred, irb_succ; simpl.
  destruct cy, ny; try congruence; simpl; zbool.
  all: try (exists []; rewrite app_nil_r; split; [reflexivity|]).
  all: try (eexists; split; [rewrite <- ?app_assoc; simpl; reflexivity|]).
  all: (split; [simpl; lia|]).
  all: (split; [intros; try discriminate; auto|]).
  all: split;
    [simpl;
     repeat match goal with
            | |- _ /\ _ => split
            | |- Forall _ [] => apply Forall_nil
            | |- Forall _ (_ :: _) => apply Forall_cons
            | |- True => exact I
            end;
     unfold irange_wf, irange_before; simpl; repeat split; lia|].
  all: intros i; zbool; reflexivity.
Qed.

Lemma irange_handle_cover_internal_spec_witness :
  let covering := make_irange 0 5 true in
  let inner := make_irange 0 2 false in
  irange_wf covering /\ irange_wf inner /\
  irange_lower covering <= irange_lower inner /\
  irange_upper inner <= irange_upper covering /\
  is_irange_lossy covering <> is_irange_lossy inner /\
  exists emitted,
    snd (irange_handle_cover_internal covering inner []) = [] ++ emitted /\
    (length emitted <= 2)%nat /\
    (is_irange_lossy covering = false ->
       emitted = [] /\
       fst (irange_handle_cover_internal covering inner []) = covering) /\
    ordered
      (emitted ++ [fst (irange_handle_cover_internal covering inner [])]) /\
    forall i,
      irange_list_find
        (emitted ++ [fst (irange_handle_cover_internal covering inner [])]) i
      = union_lossiness (irange_list_find [covering] i)
                        (irange_list_find [inner] i).
Proof.
  intros covering inner.
  assert (Hwc : irange_wf covering)
    by (unfold irange_wf, IRANGE_BOUNDARY_MASK; simpl; repeat split; lia).
  assert (Hwi : irange_wf inner)
    by (unfold irange_wf, IRANGE_BOUNDARY_MASK; simpl; repeat split; lia).
  assert (Hl : irange_lower covering <= irange_lower inner) by (simpl; lia).
  assert (Hu : irange_upper inner <= irange_upper covering) by (simpl; lia).
  assert (Hy : is_irange_lossy covering <> is_irange_lossy inner)
    by (simpl; discriminate).
  split; [exact Hwc|]. split; [exact Hwi|]. split; [exact Hl|].
  split; [exact Hu|]. split; [exact Hy|].
  exact (irange_handle_cover_internal_spec covering inner [] Hwc Hwi Hl Hu Hy).
Defined.

(** X7.  Union and intersection of valid range lists compose as set
    operations do, as far as coverage and lossiness of every ordinal go:
    both are associative, each absorbs the other, and intersection
    distributes over union. *)
Theorem irange_list_algebra a b c :
  irange_list_valid a -> irange_list_valid b -> irange_list_valid c ->
  forall i,
    irange_list_find (irange_list_union (irange_list_union a b) c) i =
    irange_list_find (irange_list_union a (irange_list_union b c)) i /\
    irange_list_find
      (irange_list_intersection (irange_list_intersection a b) c) i =
    irange_list_find
      (irange_list_intersection a (irange_list_intersection b c)) i /\
    irange_list_find (irange_list_union a (irange_list_intersection a b)) i =
    irange_list_find a i /\
    irange_list_find (irange_list_intersection a (irange_list_union a b)) i =
    irange_list_find a i /\
    irange_list_find (irange_list_intersection a (irange_list_union b c)) i =
    irange_list_find
      (irange_list_union (irange_list_intersection a b)
                         (irange_list_intersection a c)) i.
Proof.
  intros Ha Hb Hc i.
  destruct (irange_list_union_find a b Ha Hb) as [Vab Uab].
  destruct (irange_list_union_find b c Hb Hc) as [Vbc Ubc].
  destruct (irange_list_intersection_find a b Ha Hb) as [Wab Iab].
  destruct (irange_list_intersection_find b c Hb Hc) as [Wbc Ibc].
  destruct (irange_list_intersection_find a c Ha Hc) as [Wac Iac].
  destruct (irange_list_union_find _ c Vab Hc) as [_ E1].
  destruct (irange_list_union_find a _ Ha Vbc) as [_ E2].
  destruct (irange_list_intersection_find _ c Wab Hc) as [_ E3].
  destruct (irange_list_intersection_find a _ Ha Wbc) as [_ E4].
  destruct (irange_list_union_find a _ Ha Wab) as [_ E5].
  destruct (irange_list_intersection_find a _ Ha Vab) as [_ E6].
  destruct (irange_list_intersection_find a _ Ha Vbc) as [_ E7].
  destruct (irange_list_union_find _ _ Wab Wac) as [_ E8].
  rewrite E1, E2, E3, E4, E5, E6, E7, E8, Uab, Ubc, Iab, Ibc, Iac.
  destruct (irange_list_find a i) as [[]|],
           (irange_list_find b i) as [[]|],
           (irange_list_find c i) as [[]|]; repeat split; reflexivity.
Qed.

Lemma irange_list_algebra_witness :
  irange_list_valid example_a /\ irange_list_valid example_b /\
  irange_list_valid sample_c /\
  forall i,
    irange_list_find
      (irange_list_union (irange_list_union example_a example_b) sample_c) i =
    irange_list_find
      (irange_list_union example_a (irange_list_union example_b sample_c)) i /\
    irange_list_find
      (irange_list_intersection
         (irange_list_intersection example_a example_b) sample_c) i =
    irange_list_find
      (irange_list_intersection example_a
         (irange_list_intersection example_b sample_c)) i /\
    irange_list_find
      (irange_list_union example_a
         (irange_list_intersection example_a example_b)) i =
    irange_list_find example_a i /\
    irange_list_find
      (irange_list_intersection example_a
         (irange_list_union example_a example_b)) i =
    irange_list_find example_a i /\
    irange_list_find
      (irange_list_intersection example_a
         (irange_list_union example_b sample_c)) i =
    irange_list_find
      (irange_list_union (irange_list_intersection example_a example_b)
                         (irange_list_intersection example_a sample_c)) i.
Proof.
  split; [apply irange_list_validb_sound; reflexivity|].
  split; [apply irange_list_validb_sound; reflexivity|].
  split; [apply irange_list_validb_sound; reflexivity|].
  apply (irange_list_algebra example_a example_b sample_c);
    apply irange_list_validb_sound; reflexivity.
Defined.

Lemma coalesced_snoc l : forall y x,
  coalesced (l ++ [y]) ->
  ~ (irange_upper y + 1 = irange_lower x /\
     is_irange_lossy y = is_irange_lossy x) ->
  coalesced (l ++ [y; x]).
Proof.
  induction l as [|a l IH]; intros y x Hc Hn.
  - simpl. auto.
  - destruct Hc as [Hh Hc]. split; [|apply IH; assumption].
    destruct l; exact Hh.
Qed.

Lemma coalesced_replace_last l : forall y x,
  coalesced (l ++ [y]) ->
  irange_lower x = irange_lower y -> is_irange_lossy x = is_irange_lossy y ->
  coalesced (l ++ [x]).
Proof.
  induction l as [|a l IH]; intros y x Hc Hl Hy.
  - simpl. auto.
  - destruct Hc as [Hh Hc]. split; [|eapply IH; eassumption].
    destruct l; [|exact Hh]. simpl in *. rewrite Hl, Hy. exact Hh.
Qed.

Lemma intersection_step_coalesced ra rb result :
  irange_wf ra -> irange_wf rb -> ordered result ->
  (forall r, In r result ->
     irange_upper r < Z.max (irange_lower ra) (irange_lower rb)) ->
  coalesced result -> coalesced (intersection_step ra rb result).
Proof.
  intros Hwa Hwb Ho Hlt Hc.
  destruct (iranges_intersect ra rb) eqn:Hint.
  2:{ unfold intersection_step. rewrite Hint. exact Hc. }
  destruct (irange_intersection_simple_spec ra rb Hwa Hwb Hint) as [Hwx _].
  destruct (list_nil_or_last result) as [->|(init & lst & ->)].
  { unfold intersection_step. rewrite Hint. simpl. auto. }
  assert (Hl : irange_before lst (irange_intersection_simple ra rb)).
  { apply Hlt. apply in_or_app. right. left. reflexivity. }
  apply ordered_app in Ho as (_ & Hol & _).
  assert (Hwl : irange_wf lst) by apply Hol.
  rewrite intersection_step_snoc, Hint. cbv zeta.
  destruct (_ && _) eqn:Hglue.
  - apply andb_true_iff in Hglue as [Hadj Hly]. apply Bool.eqb_prop in Hly.
    destruct (glue_spec _ _ Hwl Hwx Hl Hadj Hly) as (_ & Hml & _ & _).
    apply (coalesced_replace_last init lst); [exact Hc|exact Hml|].
    unfold irange_union_simple, make_irange. cbn [is_irange_lossy].
    rewrite <- Hly. apply andb_diag.
  - unfold lappend_irange. rewrite <- app_assoc. simpl.
    apply coalesced_snoc; [exact Hc|]. intros [Hadj Hly].
    apply andb_false_iff in Hglue as [Hg|Hg].
    + unfold iranges_adjoin, irb_pred in Hg.
      destruct Hwl as (_ & ? & ? & ?). revert Hg. zbool; discriminate.
    + rewrite Hly in Hg. rewrite Bool.eqb_reflx in Hg. discriminate.
Qed.

Lemma intersection_loop_coalesced n : forall a b result,
  (length a + length b = n)%nat ->
  intersection_inv a b result -> coalesced result ->
  coalesced (intersection_loop a b result).
Proof.
  induction n as [n IH] using lt_wf_ind. intros a b result Hlen Hinv Hc.
  destruct a as [|ra ca]; [rewrite intersection_loop_nil_l; exact Hc|].
  destruct b as [|rb cb]; [rewrite intersection_loop_nil_r; exact Hc|].
  destruct Hinv as (Hoa & Hob & Hor & Hlt).
  assert (Hwa : irange_wf ra) by apply Hoa.
  assert (Hwb : irange_wf rb) by apply Hob.
  assert (Hlt' : forall r, In r result ->
            irange_upper r < Z.max (irange_lower ra) (irange_lower rb)).
  { intros r Hr. apply Hlt; auto; left; reflexivity. }
  destruct (intersection_step_spec ra rb result Hwa Hwb Hor Hlt')
    as (Hor' & _ & Hu').
  pose proof (intersection_step_coalesced ra rb result Hwa Hwb Hor Hlt' Hc)
    as Hc'.
  rewrite intersection_loop_cons.
  assert (Hsub : forall ca' cb',
    ordered ca' -> ordered cb' -> (length ca' + length cb' < n)%nat ->
    (forall x, In x ca' -> In x (ra :: ca)) ->
    (forall x, In x cb' -> In x (rb :: cb)) ->
    (forall ra' rb', In ra' ca' -> In rb' cb' ->
       Z.min (irange_upper ra) (irange_upper rb) <
       Z.max (irange_lower ra') (irange_lower rb')) ->
    coalesced (intersection_loop ca' cb' (intersection_step ra rb result))).
  { intros ca' cb' Hoa' Hob' Hlen' Hsa Hsb Hadv.
    apply (IH _ Hlen' ca' cb' _ eq_refl); [|exact Hc'].
    split; [auto|]. split; [auto|]. split; [auto|].
    intros r ra' rb' Hr Hra' Hrb'.
    destruct (Hu' r Hr) as [(r0 & Hr0 & Heq)|Heq]; rewrite Heq; [auto|].
    apply Hadv; auto. }
  pose proof Hoa as (_ & Hba & Hoa').
  pose proof Hob as (_ & Hbb & Hob').
  rewrite List.Forall_forall in Hba, Hbb. unfold irange_before in *.
  simpl in Hlen.
  destruct (Z.leb_spec (irange_upper ra) (irange_upper rb)) as [Hle|Hgt];
    [destruct (Z.leb_spec (irange_upper rb) (irange_upper ra)) as [Hge|Hlt2]|].
  - apply Hsub; auto; try lia; try (intros; right; assumption).
    intros ra' rb' Hra' Hrb'. specialize (Hba _ Hra'). lia.
  - apply Hsub; auto; try lia; try (intros; right; assumption).
    + simpl. lia.
    + intros ra' rb' Hra' Hrb'. specialize (Hba _ Hra'). lia.
  - apply Hsub; auto; try lia; try (intros; right; assumption).
    + simpl. lia.
    + intros ra' rb' Hra' Hrb'. specialize (Hbb _ Hrb'). lia.
Qed.

(** X8.  The intersection of two valid range lists is coalesced, whether
    the inputs are or not: no two neighbours of the result adjoin with the
    same lossiness. *)
Theorem irange_list_intersection_coalesced a b :
  irange_list_valid a -> irange_list_valid b ->
  coalesced (irange_list_intersection a b).
Proof.
  intros Ha Hb. apply valid_ordered in Ha, Hb.
  unfold irange_list_intersection.
  apply (intersection_loop_coalesced _ a b [] eq_refl); [|exact I].
  split; [exact Ha|]. split; [exact Hb|]. split; [exact I|].
  intros r ra rb [].
Qed.

Lemma irange_list_intersection_coalesced_witness :
  let a := [make_irange 0 2 true; make_irange 3 5 false] in
  let b := [make_irange 0 5 true] in
  irange_list_valid a /\ irange_list_valid b /\
  coalesced (irange_list_intersection a b).
Proof.
  intros a b.
  split; [apply irange_list_validb_sound; reflexivity|].
  split; [apply irange_list_validb_sound; reflexivity|].
  apply (irange_list_intersection_coalesced a b);
    apply irange_list_validb_sound; reflexivity.
Defined.

(** The union does not share this: two coalesced lists whose union has
    two exact neighbours that adjoin. *)
Example irange_list_union_not_coalesced :
  irange_list_union [make_irange 0 2 false; make_irange 3 10 true]
                    [make_irange 3 5 false] =
  [make_irange 0 2 false; make_irange 3 5 false; make_irange 6 10 true].
Proof. reflexivity. Qed.

End RangeSetFacts.

(** ** Properties of the scheme cache and of the delayed invalidation *)

Module RelationInfoFacts.
Import RelationInfo.

Ltac monad_unfold :=
  unfold mbind, pathman_bind, mret, pathman_ret, assign_prel, modify_state,
    elog_ERROR, null_dereference, get_state, DisablePathman, FreeChildrenArray,
    FreeRangesArray, FreeIfNotNull, read_prel in *.

Lemma lookup_prel_assign relid f st :
  lookup_prel relid (with_caches (with_partitioned_rels (alter f relid)) st)
  = f <$> lookup_prel relid st.
Proof. unfold lookup_prel. simpl. apply lookup_alter_eq. Qed.

Lemma lookup_prel_assign_Some relid f st p :
  lookup_prel relid st = Some p ->
  lookup_prel relid (with_caches (with_partitioned_rels (alter f relid)) st)
  = Some (f p).
Proof. intros H. rewrite lookup_prel_assign, H. reflexivity. Qed.

Lemma lookup_prel_insert relid p st :
  lookup_prel relid (with_caches (with_partitioned_rels (insert relid p)) st)
  = Some p.
Proof. unfold lookup_prel. simpl. apply lookup_insert_eq. Qed.

Lemma lookup_prel_delete relid st :
  lookup_prel relid (with_caches (with_partitioned_rels (delete relid)) st)
  = None.
Proof. unfold lookup_prel. simpl. apply lookup_delete_eq. Qed.

#[local] Arguments lookup_prel : simpl never.

#[local] Arguments with_caches : simpl never.

(** [invalidate_pathman_relation_info(relid, NULL)] always leaves an
    invalid entry with null arrays. *)
Lemma invalidate_enter_spec E relid st :
  exists st' p,
    invalidate_pathman_relation_info E relid false st =
      (st', Done (Some relid, bool_decide (is_Some (lookup_prel relid st)))) /\
    lookup_prel relid st' = Some p /\
    valid p = false /\ children p = None /\ ranges p = None.
Proof.
  unfold invalidate_pathman_relation_info. monad_unfold. cbn.
  destruct (lookup_prel relid st) as [p|] eqn:L.
  - cbn. rewrite L. cbn.
    destruct (valid p); cbn; eexists _, _; (split; [reflexivity|]);
      (split; [repeat apply lookup_prel_assign_Some; exact L|]); auto.
  - cbn. rewrite lookup_prel_insert. cbn.
    eexists _, _. split; [reflexivity|].
    split; [repeat apply lookup_prel_assign_Some; apply lookup_prel_insert|].
    auto.
Qed.

Lemma invalidate_find_spec E relid st :
  exists st',
    invalidate_pathman_relation_info E relid true st =
      (st', Done (if bool_decide (is_Some (lookup_prel relid st))
                  then Some relid else None,
                  bool_decide (is_Some (lookup_prel relid st)))) /\
    delayed_invalidation_parent_rels st' = delayed_invalidation_parent_rels st /\
    delayed_invalidation_vague_rels st' = delayed_invalidation_vague_rels st /\
    delayed_shutdown st' = delayed_shutdown st /\
    (lookup_prel relid st = None -> st' = st).
Proof.
  unfold invalidate_pathman_relation_info. monad_unfold. cbn.
  destruct (lookup_prel relid st) as [p|] eqn:L; cbn.
  - destruct (valid p); cbn; eexists; (split; [reflexivity|]);
      repeat split; discriminate.
  - eexists. split; [reflexivity|]. auto.
Qed.

Lemma remove_spec E relid st :
  exists st',
    remove_pathman_relation_info E relid st = (st', Done tt) /\
    lookup_prel relid st' = None.
Proof.
  unfold remove_pathman_relation_info. monad_unfold.
  destruct (invalidate_find_spec E relid st) as (st1 & -> & _ & _ & _ & Hnone).
  cbn. destruct (lookup_prel relid st) eqn:L; cbn.
  - eexists. split; [reflexivity|]. apply lookup_prel_delete.
  - eexists. split; [reflexivity|]. rewrite Hnone by reflexivity. exact L.
Qed.

Lemma preserves_ret {X A} (view : PathmanState -> X) (a : A) :
  preserves view (mret a).
Proof. intros st. reflexivity. Qed.

Lemma preserves_bind {X A B} (view : PathmanState -> X)
    (m : Pathman A) (k : A -> Pathman B) :
  preserves view m -> (forall a, preserves view (k a)) ->
  preserves view (m ≫= k).
Proof.
  intros Hm Hk st. unfold mbind, pathman_bind.
  specialize (Hm st). destruct (m st) as [st' [a| |]]; simpl in *;
    [rewrite Hk|..]; exact Hm.
Qed.

Lemma preserves_elog {X A} (view : PathmanState -> X) msg :
  preserves view (@elog_ERROR A msg).
Proof. intros st. reflexivity. Qed.

Lemma preserves_crash {X A} (view : PathmanState -> X) :
  preserves view (@null_dereference A).
Proof. intros st. reflexivity. Qed.

Lemma preserves_get {X} (view : PathmanState -> X) :
  preserves view get_state.
Proof. intros st. reflexivity. Qed.

Lemma preserves_read {X} (view : PathmanState -> X) E relid :
  preserves view (read_prel E relid).
Proof. intros st. reflexivity. Qed.

Lemma preserves_modify {X} (view : PathmanState -> X) f :
  (forall st, view (f st) = view st) -> preserves view (modify_state f).
Proof. intros H st. apply H. Qed.

Lemma preserves_try {X A} (view : PathmanState -> X)
    (body : Pathman A) (handler : Pathman unit) :
  preserves view body -> preserves view handler ->
  preserves view (PG_TRY_CATCH_RETHROW body handler).
Proof.
  intros Hb Hh st. unfold PG_TRY_CATCH_RETHROW.
  specialize (Hb st). destruct (body st) as [st' [a| |]]; simpl in *; auto.
  specialize (Hh st'). destruct (handler st') as [st'' [[]| |]]; simpl in *;
    congruence.
Qed.

Lemma preserves_check_children {X} (view : PathmanState -> X) slots :
  preserves view DisablePathman ->
  preserves view (check_children_assigned slots).
Proof.
  intros Hd. induction slots as [|child rest IH]; cbn [check_children_assigned].
  - apply preserves_ret.
  - apply preserves_bind; [|intros; exact IH].
    destruct (negb _); [|apply preserves_ret].
    apply preserves_bind; [exact Hd|intros; apply preserves_elog].
Qed.

Create HintDb frame discriminated.

Ltac frame_step :=
  match goal with
  | |- preserves _ (FreeIfNotNull _ _) => unfold FreeIfNotNull
  | |- preserves _ (store_child _ _ _ _) => unfold store_child
  | |- preserves _ (store_range _ _ _ _) => unfold store_range
  | |- preserves _ (fill_prel_turn _ _ _ _ _) => unfold fill_prel_turn
  | |- preserves _ (check_children_assigned _) =>
      apply preserves_check_children
  | |- preserves _ (mbind _ _) => apply preserves_bind; [|intros]
  | |- preserves _ (mret _) => apply preserves_ret
  | |- preserves _ (elog_ERROR _) => apply preserves_elog
  | |- preserves _ null_dereference => apply preserves_crash
  | |- preserves _ get_state => apply preserves_get
  | |- preserves _ (read_prel _ _) => apply preserves_read
  | |- preserves _ (PG_TRY_CATCH_RETHROW _ _) => apply preserves_try
  | |- preserves _ (modify_state _) =>
      apply preserves_modify; intros; reflexivity
  | |- preserves _ (if ?b then _ else _) => destruct b
  | |- preserves _ (match ?x with _ => _ end) => destruct x
  | |- preserves _ (let '(_, _) := ?x in _) => destruct x
  | |- preserves _ _ => solve [auto with frame]
  end.

Ltac frame := repeat frame_step.

Lemma queues_assign relid f : preserves queues (assign_prel relid f).
Proof. unfold assign_prel. frame. Qed.

Lemma queues_disable : preserves queues DisablePathman.
Proof. unfold DisablePathman. frame. Qed.

#[local] Hint Resolve queues_assign queues_disable : frame.

Lemma queues_invalidate E relid found :
  preserves queues (invalidate_pathman_relation_info E relid found).
Proof.
  unfold invalidate_pathman_relation_info, FreeChildrenArray, FreeRangesArray,
    FreeIfNotNull. frame.
Qed.

#[local] Hint Resolve queues_invalidate : frame.

Lemma queues_remove E relid :
  preserves queues (remove_pathman_relation_info E relid).
Proof. unfold remove_pathman_relation_info. frame. Qed.

#[local] Hint Resolve queues_remove : frame.

Lemma queues_get_bounds E partition prel :
  preserves queues (get_bounds_of_partition E partition prel).
Proof.
  unfold get_bounds_of_partition, get_partition_constraint_expr,
    fill_pbin_with_bounds. frame.
Qed.

#[local] Hint Resolve queues_get_bounds : frame.

Lemma queues_fill_loop E relid n partitions : forall i,
  preserves queues (fill_prel_loop E relid n i partitions).
Proof. induction partitions as [|x l IH]; intros i; simpl; frame. Qed.

#[local] Hint Resolve queues_fill_loop : frame.

Lemma queues_fill E relid partitions n :
  preserves queues (fill_prel_with_partitions E relid partitions n).
Proof. unfold fill_prel_with_partitions. frame. Qed.

#[local] Hint Resolve queues_fill : frame.

Lemma queues_fill_guarded E relid children :
  preserves queues (fill_prel_guarded E relid children).
Proof.
  unfold fill_prel_guarded, FreeChildrenArray, FreeRangesArray, FreeIfNotNull.
  frame.
Qed.

#[local] Hint Resolve queues_fill_guarded : frame.

Lemma queues_cache_parents relid children :
  preserves queues
    (foldr (fun child rest => cache_parent_of_partition child relid;; rest)
           (mret tt) children).
Proof.
  induction children; simpl; unfold cache_parent_of_partition in *; frame.
Qed.

#[local] Hint Resolve queues_cache_parents : frame.

Lemma queues_refresh E relid values allow :
  preserves queues (refresh_pathman_relation_info E relid values allow).
Proof.
  unfold refresh_pathman_relation_info, FreeChildrenArray, FreeRangesArray,
    FreeIfNotNull. frame.
Qed.

#[local] Hint Resolve queues_refresh : frame.

Lemma queues_try_refresh E parent :
  preserves queues (try_perform_parent_refresh E parent).
Proof. unfold try_perform_parent_refresh. frame. Qed.

#[local] Hint Resolve queues_try_refresh : frame.

Lemma queues_get_parent E partition status action :
  preserves queues (get_parent_of_partition_internal E partition status action).
Proof.
  unfold get_parent_of_partition_internal, try_syscache_parent_search. frame.
Qed.

#[local] Hint Resolve queues_get_parent : frame.

Lemma queues_process_parent E parent :
  preserves queues (process_parent_rel E parent).
Proof. unfold process_parent_rel. frame. Qed.

Lemma queues_process_vague E fresh vague :
  preserves queues (process_vague_rel E fresh vague).
Proof. unfold process_vague_rel, get_parent_of_partition. frame. Qed.

#[local] Hint Resolve queues_process_parent queues_process_vague : frame.

Lemma queues_foreach body l :
  (forall oid, preserves queues (body oid)) ->
  preserves queues (foreach_oid body l).
Proof. intros H. induction l; simpl; frame. Qed.

Lemma foreach_done_queues body l st st' :
  (forall oid, preserves queues (body oid)) ->
  foreach_oid body l st = (st', Done tt) -> queues st' = queues st.
Proof.
  intros H Hrun. pose proof (queues_foreach body l H st) as Hq.
  rewrite Hrun in Hq. exact Hq.
Qed.

(** A drain that completes inside a transaction leaves nothing queued. *)
Lemma finish_done_queues E st st' :
  IsTransactionState E = true ->
  finish_delayed_invalidation E st = (st', Done tt) ->
  queues st' = ([], [], false).
Proof.
  intros Htx. unfold finish_delayed_invalidation.
  unfold mbind at 1, pathman_bind at 1, get_state at 1.
  destruct (bool_decide (delayed_invalidation_parent_rels st = [])
            && bool_decide (delayed_invalidation_vague_rels st = [])
            && negb (delayed_shutdown st)) eqn:Hnothing.
  - intros [= <-].
    apply andb_true_iff in Hnothing as [Hnothing Hs].
    apply andb_true_iff in Hnothing as [Hp Hv].
    apply bool_decide_eq_true in Hp, Hv. apply negb_true_iff in Hs.
    unfold queues. rewrite Hp, Hv, Hs. reflexivity.
  - rewrite Htx.
    assert (Hloops : forall s s', delayed_shutdown s = false ->
      (st0 ← get_state;
       foreach_oid (process_parent_rel E)
         (delayed_invalidation_parent_rels st0);;
       foreach_oid
         (process_vague_rel E (delayed_invalidation_parent_rels st0))
         (delayed_invalidation_vague_rels st0);;
       free_invalidation_lists) s = (s', Done tt) ->
      queues s' = ([], [], false)).
    { intros s s' Hs. unfold mbind, pathman_bind, get_state.
      destruct (foreach_oid (process_parent_rel E) _ s)
        as [s1 [[]| |]] eqn:R1; try discriminate.
      destruct (foreach_oid (process_vague_rel E _) _ s1)
        as [s2 [[]| |]] eqn:R2; try discriminate.
      apply foreach_done_queues in R1; [|auto with frame].
      apply foreach_done_queues in R2; [|auto with frame].
      unfold free_invalidation_lists, modify_state. intros [= <-].
      unfold queues in *. simpl. congruence. }
    destruct (delayed_shutdown st) eqn:Hs.
    + unfold mbind at 1 2, pathman_bind at 1 2, modify_state at 1.
      destruct (negb (OidIsValid (cur_pathman_config_relid E))
                || negb (cur_pathman_config_relid E =? get_pathman_config_relid E)).
      * cbn. intros [= <-]. reflexivity.
      * cbn -[foreach_oid]. apply Hloops. reflexivity.
    + unfold mbind at 1, pathman_bind at 1. cbn -[foreach_oid].
      apply Hloops. exact Hs.
Qed.

(** *** The drain *)

(** C6.  Inside a transaction, once a drain has completed, draining again
    with nothing enqueued in between changes nothing. *)
Theorem finish_delayed_invalidation_idempotent E st st' :
  IsTransactionState E = true ->
  finish_delayed_invalidation E st = (st', Done tt) ->
  finish_delayed_invalidation E st' = (st', Done tt).
Proof.
  intros Htx Hrun. apply finish_done_queues in Hrun; [|exact Htx].
  unfold queues in Hrun. injection Hrun as Hp Hv Hs.
  unfold finish_delayed_invalidation, mbind, pathman_bind, get_state.
  rewrite Hp, Hv, Hs. reflexivity.
Qed.

(** *** Identifiers of the TOAST namespace *)

Lemma foreach_oid_app body l1 l2 st :
  foreach_oid body (l1 ++ l2) st =
  (foreach_oid body l1;; foreach_oid body l2) st.
Proof.
  revert st. induction l1 as [|x l1 IH]; intros st; simpl.
  - reflexivity.
  - unfold mbind, pathman_bind in *.
    destruct (body x st) as [s1 [[]| |]]; auto.
Qed.

Lemma foreach_oid_skip body oid l1 l2 st :
  (forall s, body oid s = (s, Done tt)) ->
  foreach_oid body (l1 ++ oid :: l2) st = foreach_oid body (l1 ++ l2) st.
Proof.
  intros Hskip. rewrite !foreach_oid_app. unfold mbind, pathman_bind.
  destruct (foreach_oid body l1 st) as [s1 [[]| |]]; auto.
  simpl. unfold mbind, pathman_bind. rewrite Hskip. reflexivity.
Qed.


(** *** Invalidation of a relation that is not cached *)

(** C9.  Invalidating, with no [found] out-parameter, a relation that has
    no entry changes the cache: it gets an entry that is invalid and has
    null children and ranges arrays, and the next
    [get_pathman_relation_info] goes for the rebuild. *)
Theorem invalidate_creates_invalid_entry E relid st :
  lookup_prel relid st = None ->
  exists st' p,
    invalidate_pathman_relation_info E relid false st =
      (st', Done (Some relid, false)) /\
    st' <> st /\
    lookup_prel relid st' = Some p /\
    valid p = false /\ children p = None /\ ranges p = None /\
    get_pathman_relation_info E relid st' =
      match pathman_config_contains_relation E relid with
      | Some values =>
          refresh_pathman_relation_info E relid
            (if cfg_cooked_expr_isnull values
             then pathman_config_refresh_parsed_expression E relid values
             else values) false st'
      | None => (remove_pathman_relation_info E relid;; mret None) st'
      end.
Proof.
  intros Hnone.
  destruct (invalidate_enter_spec E relid st)
    as (st' & p & Hrun & Hl & Hv & Hc & Hr).
  rewrite Hnone in Hrun. exists st', p.
  split; [exact Hrun|]. split; [congruence|].
  split; [exact Hl|]. split; [exact Hv|]. split; [exact Hc|].
  split; [exact Hr|].
  unfold get_pathman_relation_info.
  unfold mbind at 1, pathman_bind at 1, get_state at 1.
  rewrite Hl. cbn [PrelIsValid]. rewrite Hv.
  rewrite bool_decide_true by eauto. cbn [andb negb].
  destruct (pathman_config_contains_relation E relid); reflexivity.
Qed.

(** C7.  When the bound of a partition is derived and its check constraint
    does not have the canonical shape (the constraint is missing; or it is
    not the NULL test of the NULL partition and fails the validation of the
    HASH method, or of the RANGE method, or the method is none of the two),
    deriving the bound disables the hooks and then raises an error: the
    outcome is the error, and nothing else changes. *)
Theorem malformed_constraint_is_hard_failure E partition prel st :
  bound_not_cached E partition st ->
  constraint_malformed E partition prel ->
  exists msg,
    get_bounds_of_partition E partition prel st =
      (hooks_disabled st, Raised msg) /\
    pg_pathman_enable (caches (hooks_disabled st)) = false.
Proof.
  intros Hnc Hbad. unfold get_bounds_of_partition.
  unfold mbind at 1, pathman_bind at 1, get_state at 1.
  assert ((if pg_pathman_enable_bounds_cache E
           then bound_cache (caches st) !! partition else None) = None) as ->.
  { destruct Hnc as [-> | ->]; [reflexivity|].
    destruct (pg_pathman_enable_bounds_cache E); reflexivity. }
  unfold constraint_malformed in Hbad.
  unfold get_partition_constraint_expr, fill_pbin_with_bounds.
  destruct (partition_constraint E partition) as [| |e].
  - eexists. split; reflexivity.
  - contradiction.
  - destruct Hbad as [Hnt Hshape]. monad_unfold. cbn. rewrite Hnt.
    destruct (parttype prel); cbn.
    + eexists. split; reflexivity.
    + rewrite Hshape. eexists. split; reflexivity.
    + rewrite Hshape. eexists. split; reflexivity.
    + eexists. split; reflexivity.
Qed.

(** C5, amended.  Inside a transaction with a shutdown pending: when the
    configuration table has indeed been dropped, the drain unloads the
    configuration, empties both queues and does nothing else; when it is
    still in place, the drain clears the shutdown flag and processes the
    queued identifiers as usual. *)
Theorem shutdown_short_circuits_when_config_dropped E st :
  IsTransactionState E = true ->
  delayed_shutdown st = true ->
  (config_table_dropped E = true ->
   finish_delayed_invalidation E st =
     (mk_state [] [] false (unload_config E (caches st)), Done tt)) /\
  (config_table_dropped E = false ->
   finish_delayed_invalidation E st =
     (foreach_oid (process_parent_rel E)
        (delayed_invalidation_parent_rels st);;
      foreach_oid
        (process_vague_rel E (delayed_invalidation_parent_rels st))
        (delayed_invalidation_vague_rels st);;
      free_invalidation_lists)
       (mk_state (delayed_invalidation_parent_rels st)
                 (delayed_invalidation_vague_rels st) false (caches st))).
Proof.
  intros Htx Hs. unfold config_table_dropped, finish_delayed_invalidation.
  unfold mbind, pathman_bind, get_state, modify_state, mret, pathman_ret.
  rewrite Hs, Htx, andb_false_r.
  split; intros Hd; rewrite Hd; reflexivity.
Qed.

Lemma same_meta_refl p : same_meta p p.
Proof. unfold same_meta. tauto. Qed.

Lemma same_meta_trans p q r : same_meta p q -> same_meta q r -> same_meta p r.
Proof. unfold same_meta. intuition congruence. Qed.

Lemma fills_refl n p : fills n p p.
Proof. split; [apply same_meta_refl|auto]. Qed.

Lemma fills_trans n p q r : fills n p q -> fills n q r -> fills n p r.
Proof.
  intros [M1 A1] [M2 A2]. split; [eapply same_meta_trans; eauto|auto].
Qed.

Section EntrySteps.

Context (relid : Oid) (R : PartRelationInfo -> PartRelationInfo -> Prop).

Hypothesis R_refl : forall p, R p p.

Hypothesis R_trans : forall p q r, R p q -> R q r -> R p r.

Lemma entry_of_preserves {A} (m : Pathman A) :
  preserves rels m -> entry_step relid R m.
Proof.
  intros H st p L. exists p. split; [|apply R_refl].
  unfold lookup_prel. specialize (H st). unfold rels in H. rewrite H. exact L.
Qed.

Lemma entry_bind {A B} (m : Pathman A) (k : A -> Pathman B) :
  entry_step relid R m -> (forall a, entry_step relid R (k a)) ->
  entry_step relid R (m ≫= k).
Proof.
  intros Hm Hk st p L. unfold mbind, pathman_bind.
  destruct (Hm st p L) as (p1 & L1 & R1).
  destruct (m st) as [st1 [a| |]]; simpl in *; eauto.
  destruct (Hk a st1 p1 L1) as (p2 & L2 & R2). eauto.
Qed.

Lemma entry_assign f :
  (forall p, R p (f p)) -> entry_step relid R (assign_prel relid f).
Proof.
  intros H st p L. exists (f p). split; [|apply H].
  unfold assign_prel, modify_state. simpl.
  apply lookup_prel_assign_Some. exact L.
Qed.

Lemma entry_try {A} (body : Pathman A) (handler : Pathman unit) :
  entry_step relid R body -> entry_step relid R handler ->
  entry_step relid R (PG_TRY_CATCH_RETHROW body handler).
Proof.
  intros Hb Hh st p L. unfold PG_TRY_CATCH_RETHROW.
  destruct (Hb st p L) as (p1 & L1 & R1).
  destruct (body st) as [st1 [a| |]]; simpl in *; eauto.
  destruct (Hh st1 p1 L1) as (p2 & L2 & R2).
  destruct (handler st1) as [st2 [[]| |]]; simpl in *; eauto.
Qed.

End EntrySteps.

Lemma rels_disable : preserves rels DisablePathman.
Proof. unfold DisablePathman. frame. Qed.

#[local] Hint Resolve rels_disable : frame.

Lemma rels_get_bounds E partition prel :
  preserves rels (get_bounds_of_partition E partition prel).
Proof.
  unfold get_bounds_of_partition, get_partition_constraint_expr,
    fill_pbin_with_bounds. frame.
Qed.

#[local] Hint Resolve rels_get_bounds : frame.

Lemma rels_cache_parents relid children :
  preserves rels
    (foldr (fun child rest => cache_parent_of_partition child relid;; rest)
           (mret tt) children).
Proof.
  induction children; simpl; unfold cache_parent_of_partition in *; frame.
Qed.

Ltac entry_step_tac Rrefl Rtrans :=
  repeat match goal with
  | |- entry_step _ _ (mbind _ _) =>
      apply (entry_bind _ _ Rtrans); [|intros]
  | |- entry_step _ _ (if ?b then _ else _) => destruct b
  | |- entry_step _ _ (match ?x with _ => _ end) => destruct x
  | |- entry_step _ _ (assign_prel _ _) => apply entry_assign; intros
  | |- entry_step _ _ _ =>
      apply (entry_of_preserves _ _ Rrefl); solve [frame]
  end.

Lemma has_arrays_store_children n i v p :
  has_arrays n p ->
  has_arrays n (set_children (store i v <$> children p) p).
Proof.
  intros ((ch & Hch & Hlen) & Hc & Hr). unfold has_arrays. simpl.
  rewrite Hch. simpl. split; [|auto].
  eexists. split; [reflexivity|]. unfold store. rewrite length_insert.
  exact Hlen.
Qed.

Lemma has_arrays_store_ranges n i v p :
  has_arrays n p -> has_arrays n (set_ranges (store i v <$> ranges p) p).
Proof.
  intros (Hch & Hc & Hr). unfold has_arrays. simpl.
  split; [exact Hch|]. split; [exact Hc|].
  intros Hp. destruct (Hr Hp) as [l ->]. simpl. eauto.
Qed.

Lemma fill_prel_turn_entry E relid n i partition :
  entry_step relid (fills n) (fill_prel_turn E relid n i partition).
Proof.
  unfold fill_prel_turn, store_child, store_range.
  entry_step_tac (fills_refl n) (fills_trans n).
  all: split; [unfold same_meta; simpl; tauto|].
  - apply has_arrays_store_children.
  - apply has_arrays_store_ranges.
  - apply has_arrays_store_children.
  - unfold has_arrays. simpl. tauto.
Qed.

Lemma fill_prel_loop_entry E relid n partitions : forall i,
  entry_step relid (fills n) (fill_prel_loop E relid n i partitions).
Proof.
  induction partitions as [|x l IH]; intros i; cbn [fill_prel_loop].
  - apply entry_of_preserves; [apply fills_refl|frame].
  - apply (entry_bind _ _ (fills_trans n)); [apply fill_prel_turn_entry|].
    intros _. apply IH.
Qed.

Lemma foldl_insert_length {A B} (f : B -> A) (l : list (nat * B)) :
  forall ch : list A,
  length (foldl (fun ch '(i, re) => <[i := f re]> ch) ch l) = length ch.
Proof.
  induction l as [|[i re] l IH]; intros ch; simpl; [reflexivity|].
  rewrite IH. apply length_insert.
Qed.

Lemma bind_done {A B} (m : Pathman A) (k : A -> Pathman B) st st1 a :
  m st = (st1, Done a) -> (m ≫= k) st = k a st1.
Proof. unfold mbind, pathman_bind. intros ->. reflexivity. Qed.

Lemma bind_raised {A B} (m : Pathman A) (k : A -> Pathman B) st st1 msg :
  m st = (st1, Raised msg) -> (m ≫= k) st = (st1, Raised msg).
Proof. unfold mbind, pathman_bind. intros ->. reflexivity. Qed.

Lemma bind_crashed {A B} (m : Pathman A) (k : A -> Pathman B) st st1 :
  m st = (st1, Crashed) -> (m ≫= k) st = (st1, Crashed).
Proof. unfold mbind, pathman_bind. intros ->. reflexivity. Qed.

Lemma bind_assign {B} relid f (k : unit -> Pathman B) st :
  (assign_prel relid f ≫= k) st =
  k tt (with_caches (with_partitioned_rels (alter f relid)) st).
Proof. reflexivity. Qed.

Lemma bind_ret {A B} (a : A) (k : A -> Pathman B) st :
  (mret a ≫= k) st = k a st.
Proof. reflexivity. Qed.

Lemma bind_elog {A B} msg (k : A -> Pathman B) st :
  (elog_ERROR msg ≫= k) st = (st, Raised msg).
Proof. reflexivity. Qed.

Lemma bind_read {B} E relid (k : PartRelationInfo -> Pathman B) st p :
  lookup_prel relid st = Some p -> (read_prel E relid ≫= k) st = k p st.
Proof.
  intros L. unfold mbind, pathman_bind, read_prel. rewrite L. reflexivity.
Qed.

(** However [fill_prel_with_partitions] ends, the entry is still there,
    has its arrays allocated, and differs from the entry before in
    nothing but the arrays. *)
Lemma fills_sorted E n p :
  fills n p
    (set_ranges
       ((fun l =>
           qsort_range_entries E p (take (PrelRangePartitionsCount E p) l)
           ++ drop (PrelRangePartitionsCount E p) l) <$> ranges p) p).
Proof.
  split; [unfold same_meta; simpl; tauto|].
  intros (Hch & Hc & Hr). unfold has_arrays. simpl.
  split; [exact Hch|]. split; [exact Hc|].
  intros Hp. destruct (Hr Hp) as [l ->]. simpl. eauto.
Qed.

Lemma fills_children_initialized E n p :
  fills n p
    (set_children
       ((fun ch =>
           foldl (fun ch '(i, re) => <[i := child_oid re]> ch) ch
             (imap (fun i re => (i, re))
                (take (PrelRangePartitionsCount E p)
                      (default [] (ranges p)))))
        <$> children p) p).
Proof.
  split; [unfold same_meta; simpl; tauto|].
  intros ((ch & Hch & Hlen) & Hc & Hr). unfold has_arrays. simpl.
  rewrite Hch. simpl. split; [|auto].
  eexists. split; [reflexivity|]. rewrite foldl_insert_length. exact Hlen.
Qed.

(** However [fill_prel_with_partitions] ends, the entry is still there,
    has its arrays allocated, and differs from the entry before in
    nothing but the arrays. *)
Lemma fill_prel_entry E relid partitions n st p :
  lookup_prel relid st = Some p ->
  exists p',
    lookup_prel relid (fill_prel_with_partitions E relid partitions n st).1
      = Some p' /\
    same_meta p p' /\ has_arrays n p'.
Proof.
  intros L. unfold fill_prel_with_partitions.
  rewrite !bind_assign.
  erewrite bind_read by (repeat apply lookup_prel_assign_Some; exact L).
  cbn [parttype set_children_count set_has_null_partition set_ranges
       set_children].
  assert (Hrun : forall (m : Pathman unit) s q,
    entry_step relid (fills n) m ->
    lookup_prel relid s = Some q -> same_meta p q -> has_arrays n q ->
    exists p', lookup_prel relid (m s).1 = Some p' /\
               same_meta p p' /\ has_arrays n p').
  { intros m s q Hstep Lq Mq Aq.
    destruct (Hstep s q Lq) as (p' & L' & [M' A']).
    exists p'. split; [exact L'|]. split; [|auto].
    eapply same_meta_trans; eauto. }
  destruct (parttype p) eqn:Hpt.
  all: rewrite ?bind_assign, ?bind_ret.
  all: match goal with
       | |- exists p', lookup_prel _ (?m ?s).1 = Some p' /\ _ =>
           eapply (Hrun m s)
       end.
  all: try (repeat apply lookup_prel_assign_Some; exact L).
  all: try (unfold same_meta; simpl; tauto).
  all: try (unfold has_arrays; simpl;
            split; [eexists; split; [reflexivity|apply length_replicate]|];
            split; [reflexivity|first [intros; congruence|eauto]]).
  all: apply (entry_bind _ _ (fills_trans n)); [apply fill_prel_loop_entry|];
    intros _.
  all: entry_step_tac (fills_refl n) (fills_trans n).
  all: first [apply fills_sorted|apply fills_children_initialized].
Qed.

Lemma cache_parents_spec relid children st :
  exists st',
    foldr (fun child rest => cache_parent_of_partition child relid;; rest)
          (mret tt) children st = (st', Done tt) /\
    rels st' = rels st.
Proof.
  revert st. induction children as [|c l IH]; intros st; simpl.
  - exists st. split; reflexivity.
  - destruct (IH (with_caches (with_parent_cache <[c:=relid]>) st))
      as (st' & Hrun & Hr).
    exists st'. split; [|rewrite Hr; reflexivity].
    erewrite bind_done by reflexivity. exact Hrun.
Qed.

Lemma fill_prel_guarded_spec E relid children st :
  match fill_prel_with_partitions E relid children (length children) st with
  | (st1, Raised msg) =>
      fill_prel_guarded E relid children st =
        (resources_freed relid st1, Raised msg)
  | (st1, r) => fill_prel_guarded E relid children st = (st1, r)
  end.
Proof.
  unfold fill_prel_guarded, PG_TRY_CATCH_RETHROW.
  destruct (fill_prel_with_partitions E relid children (length children) st)
    as [st1 [[]| |]]; reflexivity.
Qed.

(** The entry after [refresh_pathman_relation_info], by the way it
    ends. *)
Lemma refresh_outcomes E relid values allow_incomplete st :
  match refresh_pathman_relation_info E relid values allow_incomplete st with
  | (st', Done (Some prel)) =>
      prel = relid /\
      exists p, lookup_prel relid st' = Some p /\ valid p = true /\
                populated E relid values allow_incomplete p
  | (st', Done None) => PrelIsValid (lookup_prel relid st') = false
  | (st', Raised _) => entry_invalid_without_arrays relid st'
  | (st', Crashed) => PrelIsValid (lookup_prel relid st') = false
  end.
Proof.
  unfold refresh_pathman_relation_info.
  destruct (invalidate_enter_spec E relid st)
    as (st1 & p1 & Hinv & L1 & V1 & C1 & R1).
  rewrite (bind_done _ _ _ _ _ Hinv). clear Hinv.
  unfold mbind, pathman_bind, mret, pathman_ret, assign_prel, modify_state,
    elog_ERROR.
  destruct (allow_incomplete && negb (ConditionalLockRelationOid E relid)).
  { cbn. rewrite L1. exact V1. }
  destruct (negb (SearchSysCacheExists_RELOID E relid)).
  { destruct (remove_spec E relid st1) as (st2 & -> & L2).
    cbn. rewrite L2. reflexivity. }
  destruct (negb (expr_references_one_table E _)).
  { eexists. split;
      [repeat apply lookup_prel_assign_Some; exact L1|]. cbn. auto. }
  destruct (SearchSysCache_TYPEOID E _) as [[typtypmod typcollation]|] eqn:Hty.
  2:{ eexists. split;
      [repeat apply lookup_prel_assign_Some; exact L1|]. cbn. auto. }
  destruct (find_inheritance_children_array E relid allow_incomplete)
    as [[] prel_children] eqn:Hfind.
  { match goal with |- context [remove_pathman_relation_info E relid ?s] =>
      destruct (remove_spec E relid s) as (st2 & -> & L2) end.
    cbn. rewrite L2. reflexivity. }
  { cbn. erewrite (lookup_prel_assign_Some relid);
      [|repeat apply lookup_prel_assign_Some; exact L1]. cbn. exact V1. }
  match goal with |- context [fill_prel_guarded E relid prel_children ?s] =>
    set (s2 := s) end.
  assert (L2 : exists p2, lookup_prel relid s2 = Some p2 /\
             valid p2 = false /\
             parttype p2 = cfg_parttype values /\
             expr_cstr p2 = Some (cfg_expr values) /\
             expr p2 = Some (stringToNode E (cfg_cooked_expr values)) /\
             expr_vars p2 =
               pull_var_clause E (stringToNode E (cfg_cooked_expr values)) /\
             expr_atts p2 =
               pull_varattnos E
                 (pull_var_clause E (stringToNode E (cfg_cooked_expr values))) /\
             ev_type p2 = exprType E (stringToNode E (cfg_cooked_expr values)) /\
             ev_typmod p2 = typtypmod /\ ev_collid p2 = typcollation /\
             ev_byval p2 = typbyval (lookup_type_cache E (ev_type p2)) /\
             ev_len p2 = typlen (lookup_type_cache E (ev_type p2)) /\
             ev_align p2 = typalign (lookup_type_cache E (ev_type p2)) /\
             cmp_proc p2 = tc_cmp_proc (lookup_type_cache E (ev_type p2)) /\
             hash_proc p2 = tc_hash_proc (lookup_type_cache E (ev_type p2))).
  { eexists. split;
      [subst s2; repeat apply lookup_prel_assign_Some; exact L1|].
    cbn. rewrite V1. repeat split; reflexivity. }
  destruct L2 as (p2 & L2 & V2 & F2). clearbody s2.
  pose proof (fill_prel_guarded_spec E relid prel_children s2) as Hg.
  destruct (fill_prel_entry E relid prel_children (length prel_children)
              s2 p2 L2) as (p3 & L3 & M3 & A3).
  destruct (fill_prel_with_partitions E relid prel_children
              (length prel_children) s2) as [s3 [[]|msg|]];
    cbn [fst] in L3; rewrite Hg; clear Hg.
  - destruct (cache_parents_spec relid prel_children s3) as (s4 & Hcp & Hrels).
    unfold mbind, pathman_bind, mret, pathman_ret in Hcp. rewrite Hcp.
    assert (L4 : lookup_prel relid s4 = Some p3).
    { unfold lookup_prel. unfold rels in Hrels. rewrite Hrels. exact L3. }
    destruct M3 as (_ & _ & _ & M3).
    destruct A3 as ((ch & Hch & Hlen) & Hcc & Hrg).
    decompose [and] F2. decompose [and] M3.
    assert (Hpop : forall ep,
      ep = default (DEFAULT_ENABLE_PARENT E) (read_pathman_params E relid) ->
      populated E relid values allow_incomplete
        (set_valid true (set_enable_parent ep p3))).
    { intros ep ->. unfold populated. cbn. rewrite Hty, Hfind. cbn.
      repeat split; try congruence.
      - exists ch. split; [exact Hch|]. split; congruence.
      - exact Hrg. }
    destruct (read_pathman_params E relid) as [ep|] eqn:Hep; cbn.
    + split; [reflexivity|]. eexists.
      split; [repeat apply lookup_prel_assign_Some; exact L4|].
      split; [reflexivity|]. apply Hpop. reflexivity.
    + split; [reflexivity|]. eexists.
      split; [repeat apply lookup_prel_assign_Some; exact L4|].
      split; [reflexivity|]. apply Hpop. reflexivity.
  - eexists. split;
      [unfold resources_freed, arrays_freed;
       repeat apply lookup_prel_assign_Some; exact L3|].
    cbn. destruct M3 as (_ & <- & _). auto.
  - rewrite L3. cbn. destruct M3 as (_ & <- & _). exact V2.
Qed.

(** C5 as stated fails: with a shutdown pending but the configuration
    table still in place, the drain goes on to the queued identifiers. *)
Lemma shutdown_does_not_always_short_circuit :
  ~ (forall E st,
       IsTransactionState E = true -> delayed_shutdown st = true ->
       finish_delayed_invalidation E st =
         (mk_state [] [] false (unload_config E (caches st)), Done tt)).
Proof.
  intros H.
  specialize (H (sample_backend 5) shutdown_pending_state eq_refl eq_refl).
  apply (f_equal (fun r => valid <$> lookup_prel 10 r.1)) in H.
  vm_compute in H. discriminate H.
Qed.

(** C5, amended, at a backend whose configuration table is gone. *)
Lemma shutdown_short_circuits_witness :
  IsTransactionState (sample_backend 0) = true /\
  delayed_shutdown shutdown_pending_state = true /\
  (config_table_dropped (sample_backend 0) = true ->
   finish_delayed_invalidation (sample_backend 0) shutdown_pending_state =
     (mk_state [] [] false
        (unload_config (sample_backend 0) (caches shutdown_pending_state)),
      Done tt)) /\
  (config_table_dropped (sample_backend 0) = false ->
   finish_delayed_invalidation (sample_backend 0) shutdown_pending_state =
     (foreach_oid (process_parent_rel (sample_backend 0))
        (delayed_invalidation_parent_rels shutdown_pending_state);;
      foreach_oid
        (process_vague_rel (sample_backend 0)
           (delayed_invalidation_parent_rels shutdown_pending_state))
        (delayed_invalidation_vague_rels shutdown_pending_state);;
      free_invalidation_lists)
       (mk_state (delayed_invalidation_parent_rels shutdown_pending_state)
                 (delayed_invalidation_vague_rels shutdown_pending_state)
                 false (caches shutdown_pending_state))).
Proof.
  split; [reflexivity|]. split; [reflexivity|].
  apply (shutdown_short_circuits_when_config_dropped (sample_backend 0)
           shutdown_pending_state); reflexivity.
Defined.

(** C6 at the sample state. *)
Lemma finish_delayed_invalidation_idempotent_witness :
  IsTransactionState (sample_backend 5) = true /\
  finish_delayed_invalidation (sample_backend 5) shutdown_pending_state =
    ((finish_delayed_invalidation (sample_backend 5)
        shutdown_pending_state).1, Done tt) /\
  finish_delayed_invalidation (sample_backend 5)
    (finish_delayed_invalidation (sample_backend 5) shutdown_pending_state).1
  = ((finish_delayed_invalidation (sample_backend 5)
        shutdown_pending_state).1, Done tt).
Proof.
  split; [reflexivity|]. split; [vm_compute; reflexivity|].
  apply (finish_delayed_invalidation_idempotent (sample_backend 5)
           shutdown_pending_state); [reflexivity|vm_compute; reflexivity].
Defined.


(** C9 at the empty cache. *)
Lemma invalidate_creates_invalid_entry_witness :
  lookup_prel 10 empty_state = None /\
  exists st' p,
    invalidate_pathman_relation_info (sample_backend 5) 10 false empty_state =
      (st', Done (Some 10, false)) /\
    st' <> empty_state /\
    lookup_prel 10 st' = Some p /\
    valid p = false /\ children p = None /\ ranges p = None /\
    get_pathman_relation_info (sample_backend 5) 10 st' =
      match pathman_config_contains_relation (sample_backend 5) 10 with
      | Some values =>
          refresh_pathman_relation_info (sample_backend 5) 10
            (if cfg_cooked_expr_isnull values
             then pathman_config_refresh_parsed_expression
                    (sample_backend 5) 10 values
             else values) false st'
      | None =>
          (remove_pathman_relation_info (sample_backend 5) 10;; mret None) st'
      end.
Proof.
  split; [reflexivity|].
  apply (invalidate_creates_invalid_entry (sample_backend 5) 10 empty_state).
  reflexivity.
Defined.

(** C7 at partition 12 of the sample database. *)
Lemma malformed_constraint_is_hard_failure_witness :
  bound_not_cached (sample_backend 5) 12 empty_state /\
  constraint_malformed (sample_backend 5) 12 (sample_prel 10 PT_HASH false) /\
  exists msg,
    get_bounds_of_partition (sample_backend 5) 12
      (sample_prel 10 PT_HASH false) empty_state =
      (hooks_disabled empty_state, Raised msg) /\
    pg_pathman_enable (caches (hooks_disabled empty_state)) = false.
Proof.
  assert (Hnc : bound_not_cached (sample_backend 5) 12 empty_state)
    by (right; reflexivity).
  assert (Hbad : constraint_malformed (sample_backend 5) 12
                   (sample_prel 10 PT_HASH false))
    by (split; reflexivity).
  split; [exact Hnc|]. split; [exact Hbad|].
  exact (malformed_constraint_is_hard_failure (sample_backend 5) 12
           (sample_prel 10 PT_HASH false) empty_state Hnc Hbad).
Defined.

(** A NULL test marks the NULL partition whatever the method of the table:
    it is accepted before the method is looked at, and the hooks stay on. *)
Example null_test_marks_the_null_partition :
  let run :=
    get_bounds_of_partition (sample_backend 5) 13
      (sample_prel 10 PT_ANY false) empty_state in
  pbin_parttype <$> (match run.2 with Done pbin => Some pbin | _ => None end)
    = Some PT_NULL /\
  pg_pathman_enable (caches run.1) = true.
Proof. vm_compute. split; reflexivity. Qed.

(** *** Closed forms of invalidation and removal *)

Lemma with_rels_compose f g st :
  with_caches (with_partitioned_rels f)
    (with_caches (with_partitioned_rels g) st) =
  with_caches (with_partitioned_rels (f ∘ g)) st.
Proof. reflexivity. Qed.

Lemma with_rels_ext f g st :
  f (rels st) = g (rels st) ->
  with_caches (with_partitioned_rels f) st =
  with_caches (with_partitioned_rels g) st.
Proof.
  unfold with_caches, with_partitioned_rels, rels. intros ->. reflexivity.
Qed.

Lemma with_rels_id f st :
  f (rels st) = rels st -> with_caches (with_partitioned_rels f) st = st.
Proof.
  unfold with_caches, with_partitioned_rels, rels. intros ->.
  destruct st as [? ? ? []]. reflexivity.
Qed.

Lemma alter_is_insert {A} (f : A -> A) (k : Z) (m : gmap Z A) x :
  m !! k = Some x -> alter f k m = <[k := f x]> m.
Proof.
  intros H. apply map_eq. intros j. destruct (decide (j = k)) as [->|Hne].
  - rewrite lookup_alter_eq, lookup_insert_eq, H. reflexivity.
  - rewrite lookup_alter_ne, lookup_insert_ne by congruence. reflexivity.
Qed.

Lemma invalidate_enter_eq E relid st :
  invalidate_pathman_relation_info E relid false st =
    (with_caches
       (with_partitioned_rels (insert relid (invalidated_entry E relid st)))
       st,
     Done (Some relid, bool_decide (is_Some (lookup_prel relid st)))).
Proof.
  unfold invalidate_pathman_relation_info, invalidated_entry.
  unfold FreeChildrenArray, FreeRangesArray, FreeIfNotNull. monad_unfold. cbn.
  destruct (lookup_prel relid st) as [p|] eqn:L.
  - cbn. rewrite L. cbn. pose proof L as L'.
    unfold lookup_prel in L'. fold (rels st) in L'.
    destruct (valid p); cbn; f_equal; rewrite !with_rels_compose;
      apply with_rels_ext; unfold compose;
      rewrite (alter_is_insert _ _ _ _ L'), !alter_insert_eq; reflexivity.
  - cbn. rewrite lookup_prel_insert. cbn.
    rewrite !with_rels_compose. f_equal. apply with_rels_ext. unfold compose.
    rewrite !alter_insert_eq. reflexivity.
Qed.

Lemma invalidate_find_eq E relid st :
  invalidate_pathman_relation_info E relid true st =
    (match lookup_prel relid st with
     | Some _ =>
         with_caches
           (with_partitioned_rels
              (insert relid (invalidated_entry E relid st))) st
     | None => st
     end,
     Done (if bool_decide (is_Some (lookup_prel relid st))
           then Some relid else None,
           bool_decide (is_Some (lookup_prel relid st)))).
Proof.
  unfold invalidate_pathman_relation_info, invalidated_entry.
  unfold FreeChildrenArray, FreeRangesArray, FreeIfNotNull. monad_unfold. cbn.
  destruct (lookup_prel relid st) as [p|] eqn:L; [|reflexivity].
  cbn. pose proof L as L'. unfold lookup_prel in L'. fold (rels st) in L'.
  destruct (valid p); cbn; f_equal; rewrite !with_rels_compose;
    apply with_rels_ext; unfold compose;
    rewrite (alter_is_insert _ _ _ _ L'), !alter_insert_eq; reflexivity.
Qed.

Lemma remove_eq E relid st :
  remove_pathman_relation_info E relid st =
    (with_caches (with_partitioned_rels (delete relid)) st, Done tt).
Proof.
  unfold remove_pathman_relation_info.
  erewrite bind_done by apply invalidate_find_eq.
  destruct (lookup_prel relid st) as [p|] eqn:L; cbn.
  - unfold modify_state. rewrite with_rels_compose. f_equal.
    apply with_rels_ext. unfold compose. apply delete_insert_eq.
  - unfold mret, pathman_ret. f_equal. symmetry. apply with_rels_id.
    apply delete_id. exact L.
Qed.

Lemma lookup_prel_insert_ne relid other p st :
  other <> relid ->
  lookup_prel other
    (with_caches (with_partitioned_rels (insert relid p)) st) =
  lookup_prel other st.
Proof. intros H. unfold lookup_prel. cbn. apply lookup_insert_ne. congruence. Qed.

Lemma lookup_prel_delete_ne relid other st :
  other <> relid ->
  lookup_prel other (with_caches (with_partitioned_rels (delete relid)) st) =
  lookup_prel other st.
Proof. intros H. unfold lookup_prel. cbn. apply lookup_delete_ne. congruence. Qed.

(** *** Invalidation and removal of an entry *)

Lemma invalidated_entry_fields E relid st :
  valid (invalidated_entry E relid st) = false /\
  children (invalidated_entry E relid st) = None /\
  ranges (invalidated_entry E relid st) = None.
Proof.
  unfold invalidated_entry. destruct (lookup_prel relid st) as [p|];
    [destruct (valid p)|]; repeat split; reflexivity.
Qed.

Lemma invalidated_entry_twice E relid st :
  invalidated_entry E relid
    (with_caches
       (with_partitioned_rels (insert relid (invalidated_entry E relid st)))
       st) =
  invalidated_entry E relid st.
Proof.
  unfold invalidated_entry at 1. rewrite lookup_prel_insert.
  destruct (invalidated_entry_fields E relid st) as (-> & _).
  unfold invalidated_entry. destruct (lookup_prel relid st) as [p|];
    [destruct (valid p)|]; reflexivity.
Qed.

(** X9.  [invalidate_pathman_relation_info(relid, NULL)] in closed form:
    the entry of [relid] becomes what was there (or else a fresh entry)
    with the valid flag down and both arrays null; the expression string
    of an entry that was valid is freed, the one of an invalid entry is
    left; every other field, the children count and the expression tree
    included, is kept; and nothing else in the state changes: the other
    entries, the parent and bounds caches, the switch of the hooks and the
    queues stay.  Invalidating once more, with or without the [found]
    out-parameter, changes nothing. *)
Theorem invalidate_pathman_relation_info_effect E relid st :
  let st' :=
    with_caches
      (with_partitioned_rels (insert relid (invalidated_entry E relid st)))
      st in
  invalidate_pathman_relation_info E relid false st =
    (st', Done (Some relid, bool_decide (is_Some (lookup_prel relid st)))) /\
  invalidate_pathman_relation_info E relid false st' =
    (st', Done (Some relid, true)) /\
  invalidate_pathman_relation_info E relid true st' =
    (st', Done (Some relid, true)) /\
  valid (invalidated_entry E relid st) = false /\
  children (invalidated_entry E relid st) = None /\
  ranges (invalidated_entry E relid st) = None /\
  (forall q, lookup_prel relid st = Some q ->
     expr_cstr (invalidated_entry E relid st) =
       (if valid q then None else expr_cstr q) /\
     same_meta
       (set_valid false (set_expr_cstr (if valid q then None else expr_cstr q) q))
       (invalidated_entry E relid st) /\
     children_count (invalidated_entry E relid st) = children_count q /\
     has_null_partition (invalidated_entry E relid st) =
       has_null_partition q) /\
  (forall other, other <> relid ->
     lookup_prel other st' = lookup_prel other st) /\
  parents st' = parents st /\ bounds st' = bounds st /\
  enabled st' = enabled st /\ queues st' = queues st.
Proof.
  intros st'.
  assert (Hl : lookup_prel relid st' = Some (invalidated_entry E relid st))
    by apply lookup_prel_insert.
  assert (Hfix : with_caches
            (with_partitioned_rels
               (insert relid (invalidated_entry E relid st'))) st' = st').
  { subst st'. rewrite invalidated_entry_twice.
    rewrite with_rels_compose. apply with_rels_ext. unfold compose.
    rewrite insert_insert_eq. reflexivity. }
  split; [apply invalidate_enter_eq|].
  split; [rewrite invalidate_enter_eq, Hfix, Hl, bool_decide_true by eauto;
          reflexivity|].
  split; [rewrite invalidate_find_eq, Hl, Hfix, bool_decide_true by eauto;
          reflexivity|].
  destruct (invalidated_entry_fields E relid st) as (Hv & Hc & Hr).
  split; [exact Hv|]. split; [exact Hc|]. split; [exact Hr|].
  split.
  { intros q Hq. unfold invalidated_entry. rewrite Hq.
    destruct (valid q); cbn; unfold same_meta; cbn; tauto. }
  split; [intros other Hne; apply lookup_prel_insert_ne; exact Hne|].
  repeat split; reflexivity.
Qed.

(** X10.  [remove_pathman_relation_info] in closed form: it always
    returns, the entry of [relid] is gone and nothing else changes; on a
    relation without an entry it is the identity, so removing twice is
    removing once; and it undoes the entry that an invalidation of an
    unknown relation creates. *)
Theorem remove_pathman_relation_info_effect E relid st :
  let st' := with_caches (with_partitioned_rels (delete relid)) st in
  remove_pathman_relation_info E relid st = (st', Done tt) /\
  lookup_prel relid st' = None /\
  (forall other, other <> relid ->
     lookup_prel other st' = lookup_prel other st) /\
  parents st' = parents st /\ bounds st' = bounds st /\
  enabled st' = enabled st /\ queues st' = queues st /\
  remove_pathman_relation_info E relid st' = (st', Done tt) /\
  (lookup_prel relid st = None ->
     st' = st /\
     remove_pathman_relation_info E relid
       (invalidate_pathman_relation_info E relid false st).1 = (st, Done tt)).
Proof.
  intros st'.
  split; [apply remove_eq|].
  split; [apply lookup_prel_delete|].
  split; [intros other Hne; apply lookup_prel_delete_ne; exact Hne|].
  do 4 (split; [reflexivity|]).
  split.
  { rewrite remove_eq. f_equal. subst st'. rewrite with_rels_compose.
    apply with_rels_ext. unfold compose. apply delete_delete_eq. }
  intros Hnone.
  assert (Hid : st' = st).
  { subst st'. apply with_rels_id. apply delete_id. exact Hnone. }
  split; [exact Hid|].
  rewrite invalidate_enter_eq, remove_eq. cbn [fst]. f_equal.
  rewrite with_rels_compose. apply with_rels_id. unfold compose.
  rewrite delete_insert_eq. apply delete_id. exact Hnone.
Qed.

(** *** Lookup of a cache entry *)

Lemma get_pathman_relation_info_eq E relid st :
  get_pathman_relation_info E relid st =
  match lookup_prel relid st with
  | None => (st, Done None)
  | Some p =>
      if valid p then (st, Done (Some relid))
      else
        match pathman_config_contains_relation E relid with
        | Some values =>
            refresh_pathman_relation_info E relid
              (if cfg_cooked_expr_isnull values
               then pathman_config_refresh_parsed_expression E relid values
               else values) false st
        | None =>
            (with_caches (with_partitioned_rels (delete relid)) st, Done None)
        end
  end.
Proof.
  unfold get_pathman_relation_info.
  unfold mbind at 1, pathman_bind at 1, get_state.
  destruct (lookup_prel relid st) as [p|]; [|reflexivity].
  rewrite bool_decide_true by eauto. cbn [PrelIsValid andb].
  destruct (valid p); cbn [negb]; [reflexivity|].
  destruct (pathman_config_contains_relation E relid); [reflexivity|].
  erewrite bind_done by apply remove_eq. reflexivity.
Qed.

Lemma get_pathman_relation_info_outcomes E relid st :
  match get_pathman_relation_info E relid st with
  | (st', Done (Some prel)) =>
      prel = relid /\ PrelIsValid (lookup_prel relid st') = true
  | (st', Done None) => PrelIsValid (lookup_prel relid st') = false
  | (st', Raised _) => entry_invalid_without_arrays relid st'
  | (st', Crashed) => PrelIsValid (lookup_prel relid st') = false
  end.
Proof.
  rewrite get_pathman_relation_info_eq.
  destruct (lookup_prel relid st) as [p|] eqn:L; [|rewrite L; reflexivity].
  destruct (valid p) eqn:V; [rewrite L; cbn; auto|].
  destruct (pathman_config_contains_relation E relid) as [values|].
  - pose proof (refresh_outcomes E relid
                  (if cfg_cooked_expr_isnull values
                   then pathman_config_refresh_parsed_expression E relid values
                   else values) false st) as H.
    destruct (refresh_pathman_relation_info E relid _ false st)
      as [st' [[prel|]|msg|]]; auto.
    destruct H as (-> & q & Lq & Vq & _). rewrite Lq. auto.
  - rewrite lookup_prel_delete. reflexivity.
Qed.

(** X11.  [get_pathman_relation_info]: a relation without an entry gives
    null and a valid entry is handed out, both without touching the
    state; an invalid entry of a relation that is not in the configuration
    is removed; and however the call ends, the assertion before its
    [return] holds and more: a returned entry is the valid entry of
    [relid], a null result leaves no valid entry behind, and after an
    error the entry is there, invalid, with null arrays. *)
Theorem get_pathman_relation_info_result E relid st :
  (lookup_prel relid st = None ->
   get_pathman_relation_info E relid st = (st, Done None)) /\
  (forall p, lookup_prel relid st = Some p -> valid p = true ->
   get_pathman_relation_info E relid st = (st, Done (Some relid))) /\
  (forall p, lookup_prel relid st = Some p -> valid p = false ->
   pathman_config_contains_relation E relid = None ->
   get_pathman_relation_info E relid st =
     (with_caches (with_partitioned_rels (delete relid)) st, Done None)) /\
  match get_pathman_relation_info E relid st with
  | (st', Done (Some prel)) =>
      prel = relid /\ PrelIsValid (lookup_prel relid st') = true
  | (st', Done None) => PrelIsValid (lookup_prel relid st') = false
  | (st', Raised _) => entry_invalid_without_arrays relid st'
  | (st', Crashed) => PrelIsValid (lookup_prel relid st') = false
  end.
Proof.
  split; [|split; [|split]]; [..|apply get_pathman_relation_info_outcomes].
  all: rewrite get_pathman_relation_info_eq.
  - intros ->. reflexivity.
  - intros p -> ->. reflexivity.
  - intros p -> -> ->. reflexivity.
Qed.

(** *** The parent cache *)

Lemma with_parents_id f st :
  f (parents st) = parents st ->
  with_caches (with_parent_cache f) st = st.
Proof.
  unfold with_caches, with_parent_cache, parents. intros ->.
  destruct st as [? ? ? []]. reflexivity.
Qed.

(** X12.  Round trip through the parent cache.  Once a pair is cached,
    [get_parent_of_partition] returns that parent, with the status
    PPS_ENTRY_PART_PARENT when a status is asked for, whatever the catalog
    and the configuration say now, and leaves the state alone;
    [forget_parent_of_partition] returns the same and drops the pair, so
    that a later lookup without status finds nothing; and caching then
    forgetting a pair for a partition that had none restores the state. *)
Theorem parent_cache_round_trip E partition parent status st :
  let st1 :=
    with_caches (with_parent_cache (insert partition parent)) st in
  let st2 := with_caches (with_parent_cache (delete partition)) st1 in
  let answer :=
    (parent, if status : bool then Some PPS_ENTRY_PART_PARENT else None) in
  cache_parent_of_partition partition parent st = (st1, Done tt) /\
  get_parent_of_partition E partition status st1 = (st1, Done answer) /\
  forget_parent_of_partition E partition status st1 = (st2, Done answer) /\
  parents st2 !! partition = None /\
  get_parent_of_partition E partition false st2 =
    (st2, Done (InvalidOid, None)) /\
  forget_parent_of_partition E partition false st2 =
    (st2, Done (InvalidOid, None)) /\
  (parents st !! partition = None -> st2 = st).
Proof.
  intros st1 st2 answer.
  assert (L1 : parent_cache (caches st1) !! partition = Some parent)
    by apply lookup_insert_eq.
  assert (L2 : parent_cache (caches st2) !! partition = None)
    by apply lookup_delete_eq.
  split; [reflexivity|].
  unfold get_parent_of_partition, forget_parent_of_partition,
    get_parent_of_partition_internal.
  unfold mbind, pathman_bind, get_state, mret, pathman_ret, modify_state.
  rewrite L1, L2.
  split; [reflexivity|]. split; [reflexivity|]. split; [exact L2|].
  split; [reflexivity|]. split; [reflexivity|].
  intros Hnone. subst st2 st1.
  change (with_caches
            (with_parent_cache
               (delete partition ∘ insert partition parent)) st = st).
  apply with_parents_id. unfold compose.
  rewrite delete_insert_eq. apply delete_id. exact Hnone.
Qed.

(** X13.  A lookup of a partition that is not in the parent cache never
    changes the state, so what the search finds is not cached.  Without a
    status nothing is searched.  With a status: outside a transaction the
    answer is no parent with PPS_NOT_SURE; inside a transaction the status
    is never PPS_NOT_SURE, it is PPS_ENTRY_NOT_FOUND exactly when the
    partition inherits from nothing, and otherwise the parent of the
    catalog is returned, as PPS_ENTRY_PART_PARENT exactly when that parent
    is in the configuration. *)
Theorem parent_search_on_miss E partition action st :
  parents st !! partition = None -> action <> HASH_ENTER ->
  get_parent_of_partition_internal E partition false action st =
    (st, Done (InvalidOid, None)) /\
  exists parent search,
    get_parent_of_partition_internal E partition true action st =
      (st, Done (parent, Some search)) /\
    (IsTransactionState E = false ->
       parent = InvalidOid /\ search = PPS_NOT_SURE) /\
    (IsTransactionState E = true ->
       search <> PPS_NOT_SURE /\
       (search = PPS_ENTRY_NOT_FOUND <-> inherits_parent E partition = None) /\
       (search = PPS_ENTRY_NOT_FOUND -> parent = InvalidOid) /\
       (forall p, inherits_parent E partition = Some p ->
          parent = p /\
          (search = PPS_ENTRY_PART_PARENT <->
           is_Some (pathman_config_contains_relation E p)))).
Proof.
  unfold parents. intros Hmiss Hact.
  unfold get_parent_of_partition_internal, try_syscache_parent_search.
  unfold mbind, pathman_bind, get_state, mret, pathman_ret, elog_ERROR.
  rewrite Hmiss.
  destruct action; try congruence.
  all: split; [reflexivity|].
  all: destruct (IsTransactionState E); cbn [negb].
  all: try (eexists _, _; split; [reflexivity|];
            split; [auto|intros; discriminate]).
  all: destruct (inherits_parent E partition) as [p|] eqn:Hp.
  all: try (destruct (pathman_config_contains_relation E p) as [row|] eqn:Hc;
            [rewrite bool_decide_true by eauto
            |rewrite bool_decide_false by (intros [? ?]; discriminate)]).
  all: eexists _, _; (split; [reflexivity|]); (split; [intros; discriminate|]).
  all: intros _; split; [discriminate|].
  all: split; [split; intros; congruence|].
  all: split; [intros; congruence|].
  all: intros p' Hp'; try discriminate; injection Hp' as <-.
  all: split; [reflexivity|].
  all: rewrite ?Hc; split; intros H; try discriminate; eauto.
  all: destruct H; discriminate.
Qed.

Lemma parent_search_on_miss_witness :
  exists parent search,
    get_parent_of_partition_internal healthy_backend 11 true HASH_FIND
      empty_state = (empty_state, Done (parent, Some search)) /\
    search = PPS_ENTRY_PART_PARENT /\ parent = 10.
Proof.
  assert (Hmiss : parents empty_state !! 11 = None) by reflexivity.
  assert (Hact : HASH_FIND <> HASH_ENTER) by discriminate.
  destruct (parent_search_on_miss healthy_backend 11 HASH_FIND empty_state
              Hmiss Hact) as (_ & parent & search & Hrun & _ & Htx).
  exists parent, search. split; [exact Hrun|].
  destruct (Htx eq_refl) as (_ & _ & _ & Hp).
  destruct (Hp 10 eq_refl) as [-> Hs]. split; [|reflexivity].
  apply Hs. eexists. reflexivity.
Defined.

(** *** Which errors a routine can raise *)

Section Raises.

Context (P : string -> Prop).

Lemma raises_ret {A} (a : A) : raises_only P (mret a).
Proof. intros st st' msg [=]. Qed.

Lemma raises_bind_post {A B} (Q : A -> Prop)
    (m : Pathman A) (k : A -> Pathman B) :
  raises_only P m -> returns Q m -> (forall a, Q a -> raises_only P (k a)) ->
  raises_only P (m ≫= k).
Proof.
  intros Hm Hq Hk st st' msg. unfold mbind, pathman_bind.
  destruct (m st) as [st1 [a| |]] eqn:Hrun.
  - apply Hk. eapply Hq. exact Hrun.
  - intros [= <- <-]. eapply Hm. exact Hrun.
  - discriminate.
Qed.

Lemma raises_bind {A B} (m : Pathman A) (k : A -> Pathman B) :
  raises_only P m -> (forall a, raises_only P (k a)) ->
  raises_only P (m ≫= k).
Proof.
  intros Hm Hk. apply (raises_bind_post (fun _ => True)); auto.
  intros st st' a _. exact I.
Qed.

Lemma raises_elog {A} msg : P msg -> raises_only P (@elog_ERROR A msg).
Proof. intros H st st' msg' [= <- <-]. exact H. Qed.

Lemma raises_crash {A} : raises_only P (@null_dereference A).
Proof. intros st st' msg [=]. Qed.

Lemma raises_get : raises_only P get_state.
Proof. intros st st' msg [=]. Qed.

Lemma raises_read E relid : raises_only P (read_prel E relid).
Proof. intros st st' msg [=]. Qed.

Lemma raises_modify f : raises_only P (modify_state f).
Proof. intros st st' msg [=]. Qed.

Lemma raises_assign relid f : raises_only P (assign_prel relid f).
Proof. apply raises_modify. Qed.

Lemma raises_disable : raises_only P DisablePathman.
Proof. apply raises_modify. Qed.

Lemma raises_try {A} (body : Pathman A) (handler : Pathman unit) :
  raises_only P body -> raises_only P handler ->
  raises_only P (PG_TRY_CATCH_RETHROW body handler).
Proof.
  intros Hb Hh st st' msg. unfold PG_TRY_CATCH_RETHROW.
  destruct (body st) as [st1 [a|msg1|]] eqn:Hrun; try discriminate.
  destruct (handler st1) as [st2 [[]|msg2|]] eqn:Hrun2; try discriminate.
  - intros [= <- <-]. eapply Hb. exact Hrun.
  - intros [= <- <-]. eapply Hh. exact Hrun2.
Qed.

Lemma raises_check_children slots :
  P "pg_pathman's cache for relation has not been properly initialized" ->
  raises_only P (check_children_assigned slots).
Proof.
  intros HP. induction slots as [|child rest IH]; cbn [check_children_assigned].
  - apply raises_ret.
  - apply raises_bind; [|intros; exact IH].
    destruct (negb _); [|apply raises_ret].
    apply raises_bind; [apply raises_disable|].
    intros _. apply raises_elog. exact HP.
Qed.

Lemma raises_invalidate E relid found :
  raises_only P (invalidate_pathman_relation_info E relid found).
Proof.
  intros st st' msg. destruct found.
  - rewrite invalidate_find_eq. discriminate.
  - rewrite invalidate_enter_eq. discriminate.
Qed.

Lemma raises_remove E relid :
  raises_only P (remove_pathman_relation_info E relid).
Proof. intros st st' msg. rewrite remove_eq. discriminate. Qed.

Lemma raises_cache_parents relid children :
  raises_only P
    (foldr (fun child rest => cache_parent_of_partition child relid;; rest)
           (mret tt) children).
Proof.
  intros st st' msg.
  destruct (cache_parents_spec relid children st) as (st1 & -> & _).
  discriminate.
Qed.

End Raises.

Create HintDb raises discriminated.

#[local] Hint Resolve raises_invalidate raises_remove raises_cache_parents
  raises_assign raises_disable : raises.

Ltac raises_step msg_tac :=
  match goal with
  | |- raises_only _ (FreeIfNotNull _ _) => unfold FreeIfNotNull
  | |- raises_only _ (store_child _ _ _ _) => unfold store_child
  | |- raises_only _ (store_range _ _ _ _) => unfold store_range
  | |- raises_only _ (fill_prel_turn _ _ _ _ _) => unfold fill_prel_turn
  | |- raises_only _ (check_children_assigned _) =>
      apply raises_check_children; msg_tac
  | |- raises_only _ (mbind _ _) => apply raises_bind; [|intros]
  | |- raises_only _ (mret _) => apply raises_ret
  | |- raises_only _ (elog_ERROR _) => apply raises_elog; msg_tac
  | |- raises_only _ null_dereference => apply raises_crash
  | |- raises_only _ get_state => apply raises_get
  | |- raises_only _ (read_prel _ _) => apply raises_read
  | |- raises_only _ (modify_state _) => apply raises_modify
  | |- raises_only _ (PG_TRY_CATCH_RETHROW _ _) => apply raises_try
  | |- raises_only _ (if ?b then _ else _) => destruct b eqn:?
  | |- raises_only _ (match ?x with _ => _ end) => destruct x
  | |- raises_only _ (let '(_, _) := ?x in _) => destruct x
  | |- raises_only _ _ => solve [auto with raises]
  end.

Ltac in_refresh_errors :=
  unfold refresh_error, refresh_errors, children_unassigned; cbn [In];
  split;
  [repeat first [left; reflexivity | right]
  |first [intros _; assumption | intros H; discriminate H]].

Ltac raises := repeat raises_step in_refresh_errors.

Lemma raises_get_bounds E partition prel :
  raises_only (refresh_error E) (get_bounds_of_partition E partition prel).
Proof.
  unfold get_bounds_of_partition, get_partition_constraint_expr,
    fill_pbin_with_bounds. raises.
Qed.

#[local] Hint Resolve raises_get_bounds : raises.

Lemma raises_fill_loop E relid n partitions : forall i,
  raises_only (refresh_error E) (fill_prel_loop E relid n i partitions).
Proof. induction partitions as [|x l IH]; intros i; simpl; raises. Qed.

#[local] Hint Resolve raises_fill_loop : raises.

Lemma raises_fill E relid partitions n :
  raises_only (refresh_error E) (fill_prel_with_partitions E relid partitions n).
Proof. unfold fill_prel_with_partitions. raises. Qed.

#[local] Hint Resolve raises_fill : raises.

Lemma raises_fill_guarded E relid children :
  raises_only (refresh_error E) (fill_prel_guarded E relid children).
Proof.
  unfold fill_prel_guarded, FreeChildrenArray, FreeRangesArray, FreeIfNotNull.
  raises.
Qed.

#[local] Hint Resolve raises_fill_guarded : raises.

Lemma raises_refresh E relid values allow :
  raises_only (refresh_error E)
    (refresh_pathman_relation_info E relid values allow).
Proof. unfold refresh_pathman_relation_info. raises. Qed.

#[local] Hint Resolve raises_refresh : raises.

Lemma raises_try_refresh E parent :
  raises_only (refresh_error E) (try_perform_parent_refresh E parent).
Proof. unfold try_perform_parent_refresh. raises. Qed.

#[local] Hint Resolve raises_try_refresh : raises.

Lemma raises_process_parent E parent :
  raises_only (refresh_error E) (process_parent_rel E parent).
Proof. unfold process_parent_rel. raises. Qed.

Lemma returns_get_parent E partition :
  IsTransactionState E = true ->
  returns (fun r => r.2 <> Some PPS_NOT_SURE)
          (get_parent_of_partition E partition true).
Proof.
  intros Htx st st' [parent search].
  unfold get_parent_of_partition, get_parent_of_partition_internal,
    try_syscache_parent_search.
  unfold mbind, pathman_bind, get_state, mret, pathman_ret. rewrite Htx.
  destruct (parent_cache (caches st) !! partition).
  - intros [= <- <- <-]. discriminate.
  - cbn [negb]. destruct (inherits_parent E partition);
      [destruct (bool_decide _)|]; intros [= <- <- <-]; discriminate.
Qed.

Lemma raises_process_vague E fresh vague :
  IsTransactionState E = true ->
  raises_only (refresh_error E) (process_vague_rel E fresh vague).
Proof.
  intros Htx. unfold process_vague_rel.
  destruct (IsToastNamespace E _); [apply raises_ret|].
  apply raises_bind; [apply raises_try_refresh|]. intros [|]; [apply raises_ret|].
  eapply raises_bind_post; [|apply (returns_get_parent E vague Htx)|].
  - intros st st' msg.
    unfold get_parent_of_partition, get_parent_of_partition_internal,
      try_syscache_parent_search.
    unfold mbind, pathman_bind, get_state, mret, pathman_ret.
    destruct (parent_cache (caches st) !! vague); [discriminate|].
    destruct (negb _); [discriminate|].
    destruct (inherits_parent E vague); [destruct (bool_decide _)|];
      discriminate.
  - intros [parent search] Hs. cbn in Hs.
    destruct search as [[]|]; try congruence; raises.
Qed.

Lemma raises_foreach P body l :
  (forall oid, raises_only P (body oid)) ->
  raises_only P (foreach_oid body l).
Proof.
  intros H. induction l; simpl; [apply raises_ret|].
  apply raises_bind; auto.
Qed.

(** *** Errors of the drain *)

Lemma raises_finish E :
  IsTransactionState E = true ->
  raises_only (refresh_error E) (finish_delayed_invalidation E).
Proof.
  intros Htx. unfold finish_delayed_invalidation, free_invalidation_lists.
  apply raises_bind; [apply raises_get|]. intros st.
  destruct (_ && _); [apply raises_ret|]. rewrite Htx.
  apply raises_bind; [raises|]. intros [|]; [apply raises_ret|].
  apply raises_bind; [apply raises_get|]. intros st0.
  apply raises_bind; [apply raises_foreach, raises_process_parent|]. intros _.
  apply raises_bind; [|intros; apply raises_modify].
  apply raises_foreach. intros oid. apply raises_process_vague. exact Htx.
Qed.

(** X14.  The drain raises an error only inside a transaction, and then
    it is one of the errors of rebuilding an entry; the error of the
    check that every slot of a HASH table is assigned is raised only in a
    build with USE_ASSERT_CHECKING.  The error for a relation of unknown
    status, which the source marks as never happening, is indeed never
    raised, nor is the one for an unexpected hash action. *)
Theorem drain_raises_only_refresh_errors E st st' msg :
  finish_delayed_invalidation E st = (st', Raised msg) ->
  IsTransactionState E = true /\
  In msg refresh_errors /\
  (msg = children_unassigned -> USE_ASSERT_CHECKING E = true) /\
  msg <> "Unknown table status, this should never happen"%string /\
  msg <> "Unexpected HTAB action"%string.
Proof.
  intros Hrun.
  assert (Htx : IsTransactionState E = true).
  { destruct (IsTransactionState E) eqn:Htx; [reflexivity|exfalso].
    revert Hrun. unfold finish_delayed_invalidation.
    unfold mbind, pathman_bind, get_state, mret, pathman_ret.
    rewrite Htx. destruct (_ && _); discriminate. }
  split; [exact Htx|].
  destruct (raises_finish E Htx st st' msg Hrun) as [Hin Hassert].
  split; [exact Hin|]. split; [exact Hassert|].
  unfold refresh_errors, children_unassigned in Hin. cbn [In] in Hin.
  split; intros ->; repeat (destruct Hin as [Hin|Hin]; [discriminate Hin|]);
    exact Hin.
Qed.

Lemma drain_raises_only_refresh_errors_witness :
  exists st' msg,
    finish_delayed_invalidation (sample_backend 5)
      (mk_state [] [10] false (mk_caches ∅ ∅ ∅ true)) = (st', Raised msg) /\
    IsTransactionState (sample_backend 5) = true /\
    In msg refresh_errors /\
    (msg = children_unassigned ->
     USE_ASSERT_CHECKING (sample_backend 5) = true) /\
    msg <> "Unknown table status, this should never happen"%string /\
    msg <> "Unexpected HTAB action"%string.
Proof.
  eexists _, _.
  assert (Hrun :
    finish_delayed_invalidation (sample_backend 5)
      (mk_state [] [10] false (mk_caches ∅ ∅ ∅ true)) =
    ((finish_delayed_invalidation (sample_backend 5)
        (mk_state [] [10] false (mk_caches ∅ ∅ ∅ true))).1,
     Raised "wrong constraint format for HASH partition")).
  { vm_compute. reflexivity. }
  split; [exact Hrun|].
  exact (drain_raises_only_refresh_errors _ _ _ _ Hrun).
Defined.

(** X15.  A drain that does not complete, because a rebuild raised an
    error or crashed, happened inside a transaction and leaves both
    queues as they were, so the jobs are tried again; a pending shutdown,
    however, is no longer pending. *)
Theorem failed_drain_keeps_jobs E st st' (r : outcome unit) :
  finish_delayed_invalidation E st = (st', r) -> r <> Done tt ->
  IsTransactionState E = true /\
  delayed_invalidation_parent_rels st' = delayed_invalidation_parent_rels st /\
  delayed_invalidation_vague_rels st' = delayed_invalidation_vague_rels st /\
  delayed_shutdown st' = false.
Proof.
  unfold finish_delayed_invalidation.
  unfold mbind at 1, pathman_bind at 1, get_state at 1.
  destruct (_ && _); [intros [= <- <-] H; congruence|].
  destruct (IsTransactionState E); [|intros [= <- <-] H; congruence].
  assert (Hloops : forall s s' (r' : outcome unit),
    (st0 ← get_state;
     foreach_oid (process_parent_rel E)
       (delayed_invalidation_parent_rels st0);;
     foreach_oid
       (process_vague_rel E (delayed_invalidation_parent_rels st0))
       (delayed_invalidation_vague_rels st0);;
     free_invalidation_lists) s = (s', r') -> r' <> Done tt ->
    queues s' = queues s).
  { intros s s' r'. unfold mbind, pathman_bind, get_state.
    pose proof (queues_foreach (process_parent_rel E)
                  (delayed_invalidation_parent_rels s)
                  (queues_process_parent E) s) as Q1.
    destruct (foreach_oid (process_parent_rel E) _ s) as [s1 [[]| |]];
      cbn [fst] in Q1; try (intros [= <- <-] _; exact Q1).
    pose proof (queues_foreach
                  (process_vague_rel E (delayed_invalidation_parent_rels s))
                  (delayed_invalidation_vague_rels s)
                  (queues_process_vague E _) s1) as Q2.
    destruct (foreach_oid (process_vague_rel E _) _ s1) as [s2 [[]| |]];
      cbn [fst] in Q2; try (intros [= <- <-] _; congruence).
    unfold free_invalidation_lists, modify_state. intros [= <- <-] H.
    congruence. }
  intros Hrun Hr. split; [reflexivity|]. revert Hrun.
  destruct (delayed_shutdown st) eqn:Hs.
  - unfold mbind at 1 2, pathman_bind at 1 2, modify_state at 1.
    destruct (negb (OidIsValid (cur_pathman_config_relid E))
              || negb (cur_pathman_config_relid E =? get_pathman_config_relid E)).
    + cbn. intros [= <- <-]. congruence.
    + cbn -[foreach_oid]. intros Hrun. apply Hloops in Hrun; [|exact Hr].
      unfold queues in Hrun. cbn in Hrun. injection Hrun as -> -> ->. auto.
  - unfold mbind at 1, pathman_bind at 1. cbn -[foreach_oid].
    intros Hrun. apply Hloops in Hrun; [|exact Hr].
    unfold queues in Hrun. injection Hrun as -> -> ->. auto.
Qed.

Lemma failed_drain_keeps_jobs_witness :
  let st := mk_state [] [10] true (mk_caches ∅ ∅ ∅ true) in
  exists st',
    finish_delayed_invalidation (sample_backend 5) st =
      (st', Raised "wrong constraint format for HASH partition") /\
    IsTransactionState (sample_backend 5) = true /\
    delayed_invalidation_parent_rels st' = [] /\
    delayed_invalidation_vague_rels st' = [10] /\
    delayed_shutdown st' = false.
Proof.
  intros st. eexists.
  assert (Hrun :
    finish_delayed_invalidation (sample_backend 5) st =
    ((finish_delayed_invalidation (sample_backend 5) st).1,
     Raised "wrong constraint format for HASH partition")).
  { vm_compute. reflexivity. }
  split; [exact Hrun|].
  exact (failed_drain_keeps_jobs _ _ _ _ Hrun ltac:(discriminate)).
Defined.

(** *** What a completed drain leaves in the cache *)

Lemma process_parent_rel_eq E parent st :
  process_parent_rel E parent st =
    (if IsToastNamespace E (get_rel_namespace E parent) then st
     else match pathman_config_contains_relation E parent with
          | None => with_caches (with_partitioned_rels (delete parent)) st
          | Some _ =>
              with_caches
                (with_partitioned_rels
                   (insert parent (invalidated_entry E parent st))) st
          end,
     Done tt).
Proof.
  unfold process_parent_rel.
  destruct (IsToastNamespace E _); [reflexivity|].
  destruct (pathman_config_contains_relation E parent) as [row|].
  - rewrite bool_decide_true by eauto. cbn [negb].
    erewrite bind_done by apply invalidate_enter_eq. reflexivity.
  - rewrite bool_decide_false by (intros [? ?]; discriminate). cbn [negb].
    apply remove_eq.
Qed.

Lemma invalidated_entry_invalid E relid st :
  entry_invalid_without_arrays relid
    (with_caches
       (with_partitioned_rels (insert relid (invalidated_entry E relid st)))
       st).
Proof.
  exists (invalidated_entry E relid st).
  split; [apply lookup_prel_insert|]. apply invalidated_entry_fields.
Qed.

Lemma foreach_parents_spec E l : forall st,
  exists st',
    foreach_oid (process_parent_rel E) l st = (st', Done tt) /\
    queues st' = queues st /\ parents st' = parents st /\
    bounds st' = bounds st /\ enabled st' = enabled st /\
    (forall relid, relid ∈ l ->
       IsToastNamespace E (get_rel_namespace E relid) = false ->
       match pathman_config_contains_relation E relid with
       | Some _ => entry_invalid_without_arrays relid st'
       | None => lookup_prel relid st' = None
       end) /\
    (forall relid,
       relid ∉ l \/ IsToastNamespace E (get_rel_namespace E relid) = true ->
       lookup_prel relid st' = lookup_prel relid st).
Proof.
  induction l as [|x l IH]; intros st.
  { exists st. repeat split; auto. intros relid H. inversion H. }
  cbn [foreach_oid]. erewrite bind_done by apply process_parent_rel_eq.
  match goal with |- context [foreach_oid _ l ?s] => set (st1 := s) end.
  assert (Hframe : queues st1 = queues st /\ parents st1 = parents st /\
                   bounds st1 = bounds st /\ enabled st1 = enabled st).
  { subst st1. destruct (IsToastNamespace E _); [auto|].
    destruct (pathman_config_contains_relation E x); auto. }
  assert (Hother : forall relid,
            relid <> x \/ IsToastNamespace E (get_rel_namespace E relid) = true ->
            lookup_prel relid st1 = lookup_prel relid st).
  { intros relid H. subst st1.
    destruct (IsToastNamespace E (get_rel_namespace E x)) eqn:Hx;
      [reflexivity|].
    assert (Hne : relid <> x) by (destruct H; congruence).
    destruct (pathman_config_contains_relation E x);
      [apply lookup_prel_insert_ne|apply lookup_prel_delete_ne]; exact Hne. }
  assert (Hx : IsToastNamespace E (get_rel_namespace E x) = false ->
            match pathman_config_contains_relation E x with
            | Some _ => entry_invalid_without_arrays x st1
            | None => lookup_prel x st1 = None
            end).
  { intros Hnt. subst st1. rewrite Hnt.
    destruct (pathman_config_contains_relation E x);
      [apply invalidated_entry_invalid|apply lookup_prel_delete]. }
  clearbody st1.
  destruct (IH st1) as (st' & Hrun & Hq & Hp & Hb & He & Hin & Hout).
  destruct Hframe as (Hq1 & Hp1 & Hb1 & He1).
  exists st'. split; [exact Hrun|].
  split; [congruence|]. split; [congruence|]. split; [congruence|].
  split; [congruence|]. split.
  - intros relid Hrel Hnt. destruct (decide (relid ∈ l)) as [Hl|Hl].
    + apply Hin; assumption.
    + apply elem_of_cons in Hrel as [->|Hrel]; [|contradiction].
      specialize (Hx Hnt). specialize (Hout x (or_introl Hl)).
      destruct (pathman_config_contains_relation E x).
      * destruct Hx as (q & Lq & Hq'). exists q. split; [congruence|exact Hq'].
      * congruence.
  - intros relid H. rewrite Hout, Hother; [reflexivity| |].
    + destruct H as [H|H]; [left|right; exact H].
      intros ->. apply H. left.
    + destruct H as [H|H]; [left|right; exact H].
      intros Hl. apply H. right. exact Hl.
Qed.

(** X16.  Inside a transaction, with no shutdown pending and no vague
    relation queued, the drain always completes and empties the queues.
    Every queued relation outside the TOAST namespace then has no entry
    when it is not in the configuration, and an invalid entry with null
    arrays when it is, so that the next lookup rebuilds it.  The entries
    of all other relations, the parent cache, the bounds cache and the
    switch of the hooks are as before. *)
Theorem drain_of_parent_rels E st :
  IsTransactionState E = true ->
  delayed_shutdown st = false ->
  delayed_invalidation_vague_rels st = [] ->
  exists st',
    finish_delayed_invalidation E st = (st', Done tt) /\
    queues st' = ([], [], false) /\ parents st' = parents st /\
    bounds st' = bounds st /\ enabled st' = enabled st /\
    (forall relid, relid ∈ delayed_invalidation_parent_rels st ->
       IsToastNamespace E (get_rel_namespace E relid) = false ->
       match pathman_config_contains_relation E relid with
       | Some _ => entry_invalid_without_arrays relid st'
       | None => lookup_prel relid st' = None
       end) /\
    (forall relid,
       relid ∉ delayed_invalidation_parent_rels st \/
       IsToastNamespace E (get_rel_namespace E relid) = true ->
       lookup_prel relid st' = lookup_prel relid st).
Proof.
  intros Htx Hs Hv.
  destruct (foreach_parents_spec E (delayed_invalidation_parent_rels st) st)
    as (st1 & Hrun & Hq & Hp & Hb & He & Hin & Hout).
  unfold finish_delayed_invalidation.
  unfold mbind at 1, pathman_bind at 1, get_state at 1.
  rewrite Htx, Hs, Hv.
  destruct (delayed_invalidation_parent_rels st) as [|x l] eqn:Hl.
  { cbn in Hrun. injection Hrun as <-. exists st. split; [reflexivity|].
    split; [unfold queues; rewrite Hl, Hv, Hs; reflexivity|]. auto. }
  rewrite bool_decide_false by discriminate. cbn [andb].
  rewrite bind_ret. cbv iota.
  unfold mbind at 1, pathman_bind at 1, get_state at 1. rewrite Hl, Hv.
  erewrite bind_done by exact Hrun. cbn [foreach_oid]. rewrite bind_ret.
  eexists. split; [reflexivity|].
  unfold queues in *. injection Hq as _ _ Hs1. cbn.
  split; [rewrite Hs1, Hs; reflexivity|].
  split; [exact Hp|]. split; [exact Hb|]. split; [exact He|].
  split; [exact Hin|exact Hout].
Qed.

Lemma drain_of_parent_rels_witness :
  let E := sample_backend 5 in
  let st :=
    mk_state [10; 20; 30] [] false
      (mk_caches {[ 10 := sample_prel 10 PT_HASH true;
                    20 := sample_prel 20 PT_HASH true;
                    30 := sample_prel 30 PT_HASH true ]} ∅ ∅ true) in
  exists st',
    finish_delayed_invalidation E st = (st', Done tt) /\
    entry_invalid_without_arrays 10 st' /\
    lookup_prel 20 st' = Some (sample_prel 20 PT_HASH true) /\
    lookup_prel 30 st' = None.
Proof.
  intros E st.
  destruct (drain_of_parent_rels E st eq_refl eq_refl eq_refl)
    as (st' & Hrun & _ & _ & _ & _ & Hin & Hout).
  exists st'. split; [exact Hrun|].
  split; [apply (Hin 10); [set_solver|reflexivity]|].
  split; [rewrite (Hout 20) by (right; reflexivity); reflexivity|].
  apply (Hin 30); [set_solver|reflexivity].
Defined.

(** *** The queues *)

Lemma list_add_unique_spec l oid :
  oid ∈ list_add_unique l oid /\
  (NoDup l -> NoDup (list_add_unique l oid)) /\
  list_add_unique (list_add_unique l oid) oid = list_add_unique l oid /\
  (forall x, x ∈ list_add_unique l oid <-> x = oid \/ x ∈ l) /\
  l `prefix_of` list_add_unique l oid.
Proof.
  unfold list_add_unique. destruct (decide (oid ∈ l)) as [Hin|Hout].
  - rewrite !bool_decide_true by exact Hin.
    split; [exact Hin|]. split; [auto|]. split; [reflexivity|].
    split; [|reflexivity]. intros x. split; [auto|]. intros [->|H]; auto.
  - rewrite (bool_decide_false _ Hout).
    assert (Hnew : oid ∈ l ++ [oid])
      by (apply elem_of_app; right; apply list_elem_of_singleton; reflexivity).
    rewrite (bool_decide_true _ Hnew).
    split; [exact Hnew|]. split.
    { intros Hnd. apply NoDup_app. split; [exact Hnd|].
      split; [|apply NoDup_singleton]. intros x Hx Hx'.
      apply list_elem_of_singleton in Hx'. congruence. }
    split; [reflexivity|]. split.
    { intros x. rewrite elem_of_app, list_elem_of_singleton. tauto. }
    apply prefix_app_r. reflexivity.
Qed.

(** X17.  Enqueuing an invalidation job, in either queue, puts the
    relation in that queue, behind what is already there, and touches
    nothing else; a queue without duplicates stays so, and enqueuing the
    same relation twice is enqueuing it once. *)
Theorem delay_invalidation_keeps_queue_unique rel st :
  let st1 := (delay_invalidation_parent_rel rel st).1 in
  let st2 := (delay_invalidation_vague_rel rel st).1 in
  (rel ∈ delayed_invalidation_parent_rels st1 /\
   delayed_invalidation_parent_rels st
     `prefix_of` delayed_invalidation_parent_rels st1 /\
   (forall x, x ∈ delayed_invalidation_parent_rels st1 <->
              x = rel \/ x ∈ delayed_invalidation_parent_rels st) /\
   (NoDup (delayed_invalidation_parent_rels st) ->
    NoDup (delayed_invalidation_parent_rels st1)) /\
   delay_invalidation_parent_rel rel st1 = (st1, Done tt) /\
   delayed_invalidation_vague_rels st1 = delayed_invalidation_vague_rels st /\
   delayed_shutdown st1 = delayed_shutdown st /\ caches st1 = caches st) /\
  (rel ∈ delayed_invalidation_vague_rels st2 /\
   delayed_invalidation_vague_rels st
     `prefix_of` delayed_invalidation_vague_rels st2 /\
   (forall x, x ∈ delayed_invalidation_vague_rels st2 <->
              x = rel \/ x ∈ delayed_invalidation_vague_rels st) /\
   (NoDup (delayed_invalidation_vague_rels st) ->
    NoDup (delayed_invalidation_vague_rels st2)) /\
   delay_invalidation_vague_rel rel st2 = (st2, Done tt) /\
   delayed_invalidation_parent_rels st2 = delayed_invalidation_parent_rels st /\
   delayed_shutdown st2 = delayed_shutdown st /\ caches st2 = caches st).
Proof.
  cbn.
  destruct (list_add_unique_spec (delayed_invalidation_parent_rels st) rel)
    as (P1 & P2 & P3 & P4 & P5).
  destruct (list_add_unique_spec (delayed_invalidation_vague_rels st) rel)
    as (V1 & V2 & V3 & V4 & V5).
  split.
  - split; [exact P1|]. split; [exact P5|]. split; [exact P4|].
    split; [exact P2|]. split; [|auto].
    unfold delay_invalidation_parent_rel, modify_state. cbn. rewrite P3.
    reflexivity.
  - split; [exact V1|]. split; [exact V5|]. split; [exact V4|].
    split; [exact V2|]. split; [|auto].
    unfold delay_invalidation_vague_rel, modify_state. cbn. rewrite V3.
    reflexivity.
Qed.

(** *** The bounds cache *)

Lemma with_bounds_id f st :
  f (bounds st) = bounds st -> with_caches (with_bound_cache f) st = st.
Proof.
  unfold with_caches, with_bound_cache, bounds. intros ->.
  destruct st as [? ? ? []]. reflexivity.
Qed.

Lemma get_bounds_hit E partition prel st pbin :
  pg_pathman_enable_bounds_cache E = true ->
  bounds st !! partition = Some pbin ->
  get_bounds_of_partition E partition prel st = (st, Done pbin).
Proof.
  unfold bounds. intros He Hb. unfold get_bounds_of_partition.
  unfold mbind at 1, pathman_bind at 1, get_state at 1.
  rewrite He, Hb. reflexivity.
Qed.

(** X18.  [get_bounds_of_partition] and its cache.  The call changes
    neither the entries, nor the parent cache, nor the queues.  When it
    returns a bound with the cache switched on, the bound is the cached
    one afterwards, and every later call returns it without looking at
    the constraint or at the entry it is given; with the cache switched
    off nothing is stored.  When it fails, by an error or a crash, nothing
    is stored and the hooks are disabled. *)
Theorem get_bounds_of_partition_cache E partition prel st :
  let '(st', r) := get_bounds_of_partition E partition prel st in
  rels st' = rels st /\ parents st' = parents st /\ queues st' = queues st /\
  match r with
  | Done pbin =>
      enabled st' = enabled st /\
      if pg_pathman_enable_bounds_cache E
      then bounds st' = <[partition := pbin]> (bounds st) /\
           forall E' prel',
             pg_pathman_enable_bounds_cache E' = true ->
             get_bounds_of_partition E' partition prel' st' = (st', Done pbin)
      else bounds st' = bounds st
  | _ => bounds st' = bounds st /\ enabled st' = false
  end.
Proof.
  pose proof (fun pbin E' prel' (H : pg_pathman_enable_bounds_cache E' = true) =>
    get_bounds_hit E' partition prel'
      (with_caches (with_bound_cache (insert partition pbin)) st) pbin H
      (lookup_insert_eq _ _ _)) as Hhit.
  unfold get_bounds_of_partition.
  unfold mbind at 1, pathman_bind at 1, get_state at 1.
  destruct (pg_pathman_enable_bounds_cache E) eqn:He;
    [destruct (bound_cache (caches st) !! partition) as [pbin|] eqn:Hb|].
  { cbn. repeat split; auto.
    - symmetry. apply insert_id. exact Hb.
    - intros E' prel' He'. apply get_bounds_hit; assumption. }
  all: unfold get_partition_constraint_expr, fill_pbin_with_bounds.
  all: monad_unfold.
  all: destruct (partition_constraint E partition) as [| |e]; cbn;
    [repeat split; reflexivity..|].
  all: destruct (IsA_NullTest E e); cbn;
    [|destruct (parttype prel); cbn;
      [|destruct (validate_hash_constraint E e prel); cbn
       |destruct (validate_range_constraint E e prel) as [[lo hi]|]; cbn|]].
  all: rewrite ?He; cbn.
  all: repeat split; try reflexivity; intros; apply Hhit; assumption.
Qed.

Lemma forget_bounds_eq E partition st :
  forget_bounds_of_partition E partition st =
    (if pg_pathman_enable_bounds_cache E
     then with_caches (with_bound_cache (delete partition)) st
     else st, Done tt).
Proof.
  unfold forget_bounds_of_partition.
  unfold mbind at 1, pathman_bind at 1, get_state at 1.
  destruct (pg_pathman_enable_bounds_cache E); [|reflexivity].
  destruct (bound_cache (caches st) !! partition) as [pbin|] eqn:Hb.
  - destruct (pbin_parttype pbin); reflexivity.
  - unfold mret, pathman_ret. f_equal. symmetry. apply with_bounds_id.
    apply delete_id. exact Hb.
Qed.

(** X19.  [forget_bounds_of_partition] in closed form: with the bounds
    cache switched on the bound of the partition is dropped and nothing
    else changes, with the cache switched off nothing changes at all, so a
    bound cached earlier stays.  Forgetting undoes a derivation: after
    [get_bounds_of_partition] has derived and cached the bound of a
    partition that had none, forgetting it restores the state. *)
Theorem forget_bounds_of_partition_effect E partition st :
  forget_bounds_of_partition E partition st =
    (if pg_pathman_enable_bounds_cache E
     then with_caches (with_bound_cache (delete partition)) st
     else st, Done tt) /\
  (forall prel st' pbin,
     pg_pathman_enable_bounds_cache E = true ->
     bounds st !! partition = None ->
     get_bounds_of_partition E partition prel st = (st', Done pbin) ->
     forget_bounds_of_partition E partition st' = (st, Done tt)).
Proof.
  split; [apply forget_bounds_eq|].
  intros prel st' pbin He Hb. rewrite forget_bounds_eq, He.
  unfold bounds in Hb. unfold get_bounds_of_partition.
  unfold mbind at 1, pathman_bind at 1, get_state at 1. rewrite He, Hb.
  assert (Hback : forall pbin,
    with_caches (with_bound_cache (delete partition))
      (with_caches (with_bound_cache (insert partition pbin)) st) = st).
  { intros pb.
    change (with_caches
              (with_bound_cache (delete partition ∘ insert partition pb)) st
            = st).
    apply with_bounds_id. unfold compose, bounds.
    rewrite delete_insert_eq. apply delete_id. exact Hb. }
  unfold get_partition_constraint_expr, fill_pbin_with_bounds. monad_unfold.
  destruct (partition_constraint E partition) as [| |e]; cbn;
    try discriminate.
  destruct (IsA_NullTest E e); cbn.
  { rewrite ?He. cbn. intros [= <- <-]. rewrite Hback. reflexivity. }
  destruct (parttype prel); cbn; try discriminate.
  - destruct (validate_hash_constraint E e prel); cbn; try discriminate.
    rewrite ?He. cbn. intros [= <- <-]. rewrite Hback. reflexivity.
  - destruct (validate_range_constraint E e prel) as [[lo hi]|]; cbn;
      try discriminate.
    rewrite ?He. cbn. intros [= <- <-]. rewrite Hback. reflexivity.
Qed.

(** X20.  A partition whose check constraint has a null [conbin]: when
    its bound has to be derived, [get_partition_constraint_expr] disables
    the hooks, warns and returns null, and [fill_pbin_with_bounds] then
    reads the node tag through the null pointer. *)
Theorem null_conbin_crashes E partition prel st :
  bound_not_cached E partition st ->
  partition_constraint E partition = NullConbin ->
  get_partition_constraint_expr E partition st =
    (hooks_disabled st, Done None) /\
  (forall pbin s,
     fill_pbin_with_bounds E pbin prel None s = (s, Crashed)) /\
  get_bounds_of_partition E partition prel st = (hooks_disabled st, Crashed).
Proof.
  intros Hnc Hnull.
  split; [unfold get_partition_constraint_expr; rewrite Hnull; reflexivity|].
  split; [reflexivity|].
  unfold get_bounds_of_partition.
  unfold mbind at 1, pathman_bind at 1, get_state at 1.
  assert ((if pg_pathman_enable_bounds_cache E
           then bound_cache (caches st) !! partition else None) = None) as ->.
  { destruct Hnc as [-> | ->]; [reflexivity|].
    destruct (pg_pathman_enable_bounds_cache E); reflexivity. }
  unfold get_partition_constraint_expr. rewrite Hnull. reflexivity.
Qed.

Lemma null_conbin_crashes_witness :
  let E := null_conbin_backend in
  let prel := sample_prel 10 PT_HASH false in
  bound_not_cached E 12 empty_state /\
  partition_constraint E 12 = NullConbin /\
  get_bounds_of_partition E 12 prel empty_state =
    (hooks_disabled empty_state, Crashed) /\
  (refresh_pathman_relation_info E 10 sample_row false empty_state).2 =
    Crashed.
Proof.
  intros E prel.
  assert (Hnc : bound_not_cached E 12 empty_state) by (right; reflexivity).
  assert (Hnull : partition_constraint E 12 = NullConbin) by reflexivity.
  split; [exact Hnc|]. split; [exact Hnull|].
  split; [apply (null_conbin_crashes E 12 prel empty_state Hnc Hnull)|].
  vm_compute. reflexivity.
Defined.

(** *** The refresh and the parent cache *)

Lemma parents_assign relid f : preserves parents (assign_prel relid f).
Proof. unfold assign_prel. frame. Qed.

Lemma parents_disable : preserves parents DisablePathman.
Proof. unfold DisablePathman. frame. Qed.

#[local] Hint Resolve parents_assign parents_disable : frame.

Lemma parents_invalidate E relid found :
  preserves parents (invalidate_pathman_relation_info E relid found).
Proof.
  unfold invalidate_pathman_relation_info, FreeChildrenArray, FreeRangesArray,
    FreeIfNotNull. frame.
Qed.

#[local] Hint Resolve parents_invalidate : frame.

Lemma parents_remove E relid :
  preserves parents (remove_pathman_relation_info E relid).
Proof. unfold remove_pathman_relation_info. frame. Qed.

#[local] Hint Resolve parents_remove : frame.

Lemma parents_get_bounds E partition prel :
  preserves parents (get_bounds_of_partition E partition prel).
Proof.
  unfold get_bounds_of_partition, get_partition_constraint_expr,
    fill_pbin_with_bounds. frame.
Qed.

#[local] Hint Resolve parents_get_bounds : frame.

Lemma parents_fill_loop E relid n partitions : forall i,
  preserves parents (fill_prel_loop E relid n i partitions).
Proof. induction partitions as [|x l IH]; intros i; simpl; frame. Qed.

#[local] Hint Resolve parents_fill_loop : frame.

Lemma parents_fill E relid partitions n :
  preserves parents (fill_prel_with_partitions E relid partitions n).
Proof. unfold fill_prel_with_partitions. frame. Qed.

#[local] Hint Resolve parents_fill : frame.

Lemma parents_fill_guarded E relid children :
  preserves parents (fill_prel_guarded E relid children).
Proof.
  unfold fill_prel_guarded, FreeChildrenArray, FreeRangesArray, FreeIfNotNull.
  frame.
Qed.

#[local] Hint Resolve parents_fill_guarded : frame.

Lemma cache_parents_parents relid children : forall st,
  exists st',
    foldr (fun child rest => cache_parent_of_partition child relid;; rest)
          (mret tt) children st = (st', Done tt) /\
    parents st' = with_children_cached relid children (parents st).
Proof.
  induction children as [|c l IH]; intros st; simpl.
  - exists st. split; reflexivity.
  - destruct (IH (with_caches (with_parent_cache <[c:=relid]>) st))
      as (st' & Hrun & Hp).
    exists st'. split; [|rewrite Hp; reflexivity].
    erewrite bind_done by reflexivity. exact Hrun.
Qed.

Lemma with_children_cached_lookup relid children : forall m,
  (forall child, child ∈ children ->
     with_children_cached relid children m !! child = Some relid) /\
  (forall other, other ∉ children ->
     with_children_cached relid children m !! other = m !! other).
Proof.
  induction children as [|c l IH]; intros m.
  { split; [intros child H; inversion H|reflexivity]. }
  destruct (IH (<[c:=relid]> m)) as [Hin Hout]. cbn. split.
  - intros child Hc. destruct (decide (child ∈ l)) as [Hl|Hl]; [auto|].
    apply elem_of_cons in Hc as [->|Hc]; [|contradiction].
    unfold with_children_cached in Hout. rewrite (Hout c Hl).
    apply lookup_insert_eq.
  - intros other Ho. apply not_elem_of_cons in Ho as [Hne Hl].
    unfold with_children_cached in Hout. rewrite (Hout other Hl).
    apply lookup_insert_ne. congruence.
Qed.

Section ChangesOnSuccess.

Context {X : Type} (view : PathmanState -> X) (F : X -> X).

Lemma changes_bind {A B} (m : Pathman A) (k : A -> Pathman (option B)) :
  preserves view m -> (forall a, changes_on_success view F (k a)) ->
  changes_on_success view F (m ≫= k).
Proof.
  intros Hm Hk st. unfold mbind, pathman_bind.
  specialize (Hm st). destruct (m st) as [st1 [a| |]]; cbn in *;
    [|exact Hm..].
  rewrite Hk, Hm. reflexivity.
Qed.

Lemma changes_none {B} : changes_on_success view F (mret (@None B)).
Proof. intros st. reflexivity. Qed.

End ChangesOnSuccess.

Lemma refresh_changes_parents E relid values allow :
  changes_on_success parents
    (with_children_cached relid
       (find_inheritance_children_array E relid allow).2)
    (refresh_pathman_relation_info E relid values allow).
Proof.
  unfold refresh_pathman_relation_info.
  apply changes_bind; [frame|]. intros _.
  destruct (_ && _); [apply changes_none|].
  destruct (negb (SearchSysCacheExists_RELOID E relid)).
  { apply changes_bind; [frame|]. intros _. apply changes_none. }
  do 5 (apply changes_bind; [frame|]; intros _).
  apply changes_bind; [frame|]. intros _.
  do 5 (apply changes_bind; [frame|]; intros _).
  apply changes_bind; [frame|]. intros _.
  do 5 (apply changes_bind; [frame|]; intros _).
  destruct (find_inheritance_children_array E relid allow)
    as [[] prel_children].
  { apply changes_bind; [frame|]. intros _. apply changes_none. }
  { apply changes_none. }
  apply changes_bind; [frame|]. intros _. intros st.
  destruct (cache_parents_parents relid prel_children st)
    as (st1 & Hrun & Hp).
  erewrite bind_done by exact Hrun.
  destruct (read_pathman_params E relid); cbn; exact Hp.
Qed.

(** X21.  The refresh and the parent cache.  When the refresh returns
    the rebuilt entry, every child of the relation is in the parent cache
    as a partition of it, so that [get_parent_of_partition] answers from
    the cache, and the pairs of all other relations are as before.  When
    the refresh returns null, raises an error or crashes, the parent cache
    is as before. *)
Theorem refresh_and_parent_cache E relid values allow st :
  let '(st', r) := refresh_pathman_relation_info E relid values allow st in
  let children := (find_inheritance_children_array E relid allow).2 in
  match r with
  | Done (Some _) =>
      (forall child, child ∈ children ->
         parents st' !! child = Some relid /\
         forall E' status,
           get_parent_of_partition E' child status st' =
             (st', Done (relid,
                         if status : bool
                         then Some PPS_ENTRY_PART_PARENT else None))) /\
      (forall other, other ∉ children ->
         parents st' !! other = parents st !! other)
  | _ => parents st' = parents st
  end.
Proof.
  pose proof (refresh_changes_parents E relid values allow st) as H.
  destruct (refresh_pathman_relation_info E relid values allow st)
    as [st' [[prel|]| |]]; cbn in *; try exact H.
  destruct (with_children_cached_lookup relid
              (find_inheritance_children_array E relid allow).2 (parents st))
    as [Hin Hout].
  rewrite H. split; [|exact Hout].
  intros child Hc. specialize (Hin child Hc). split; [exact Hin|].
  intros E' status.
  unfold get_parent_of_partition, get_parent_of_partition_internal.
  unfold mbind, pathman_bind, get_state, mret, pathman_ret.
  change (parent_cache (caches st')) with (parents st').
  rewrite H, Hin. reflexivity.
Qed.

(** *** A refresh that returns null *)

Lemma refresh_tail_not_null E relid prel_children st st' :
  (fill_prel_guarded E relid prel_children;;
   foldr (fun child rest => cache_parent_of_partition child relid;; rest)
         (mret tt) prel_children;;
   match read_pathman_params E relid with
   | Some enable_parent =>
       assign_prel relid (set_enable_parent enable_parent)
   | None => assign_prel relid (set_enable_parent (DEFAULT_ENABLE_PARENT E))
   end;;
   assign_prel relid (set_valid true);;
   mret (Some relid)) st <> (st', Done None).
Proof.
  unfold mbind at 1, pathman_bind at 1.
  destruct (fill_prel_guarded E relid prel_children st) as [s1 [[]| |]];
    try discriminate.
  destruct (cache_parents_spec relid prel_children s1) as (s2 & Hrun & _).
  erewrite bind_done by exact Hrun.
  destruct (read_pathman_params E relid); discriminate.
Qed.

(** X22.  What a refresh that returns null leaves behind.  When the
    parent could not be locked at once (and waiting was not asked for),
    the state is that of the invalidation alone: the entry is there and
    invalid.  When the relation is gone, or has no children, the refresh
    amounts to the removal of the entry.  When the children could not be
    locked, the entry stays, invalid and with null arrays, but already
    with the method and the expression of the configuration row.  A
    refresh that found children never returns null. *)
Theorem refresh_null_result E relid values allow st st' :
  refresh_pathman_relation_info E relid values allow st = (st', Done None) ->
  if allow && negb (ConditionalLockRelationOid E relid)
  then st' = with_caches
               (with_partitioned_rels
                  (insert relid (invalidated_entry E relid st))) st
  else if negb (SearchSysCacheExists_RELOID E relid)
  then st' = with_caches (with_partitioned_rels (delete relid)) st
  else
    match (find_inheritance_children_array E relid allow).1 with
    | FCS_NO_CHILDREN =>
        st' = with_caches (with_partitioned_rels (delete relid)) st
    | FCS_COULD_NOT_LOCK =>
        exists p, lookup_prel relid st' = Some p /\
          valid p = false /\ children p = None /\ ranges p = None /\
          parttype p = cfg_parttype values /\
          expr_cstr p = Some (cfg_expr values) /\
          expr p = Some (stringToNode E (cfg_cooked_expr values))
    | FCS_FOUND => False
    end.
Proof.
  unfold refresh_pathman_relation_info.
  erewrite bind_done by apply invalidate_enter_eq.
  unfold mbind, pathman_bind, mret, pathman_ret, assign_prel, modify_state,
    elog_ERROR.
  destruct (allow && negb (ConditionalLockRelationOid E relid)).
  { intros [= <-]. reflexivity. }
  destruct (negb (SearchSysCacheExists_RELOID E relid)).
  { rewrite remove_eq. intros [= <-].
    rewrite with_rels_compose. apply with_rels_ext. unfold compose.
    apply delete_insert_eq. }
  destruct (negb (expr_references_one_table E _)); [discriminate|].
  destruct (SearchSysCache_TYPEOID E _) as [[typtypmod typcollation]|];
    [|discriminate].
  destruct (find_inheritance_children_array E relid allow)
    as [[] prel_children]; cbn [fst].
  - rewrite remove_eq. intros [= <-].
    rewrite !with_rels_compose. apply with_rels_ext. unfold compose.
    rewrite !delete_alter_eq. apply delete_insert_eq.
  - intros [= <-]. eexists.
    split; [repeat apply lookup_prel_assign_Some; apply lookup_prel_insert|].
    destruct (invalidated_entry_fields E relid st) as (Hv & _).
    cbn. rewrite Hv. repeat split; reflexivity.
  - intros H. exact (refresh_tail_not_null _ _ _ _ _ H).
Qed.

Lemma refresh_null_result_witness :
  let E := sample_backend 5 in
  let st :=
    mk_state [] [] false
      (mk_caches {[ 30 := sample_prel 30 PT_HASH true ]} ∅ ∅ true) in
  refresh_pathman_relation_info E 30 sample_row false st =
    (with_caches (with_partitioned_rels (delete 30)) st, Done None) /\
  lookup_prel 30 (with_caches (with_partitioned_rels (delete 30)) st) = None.
Proof.
  intros E st.
  assert (Hrun :
    refresh_pathman_relation_info E 30 sample_row false st =
    ((refresh_pathman_relation_info E 30 sample_row false st).1, Done None)).
  { vm_compute. reflexivity. }
  assert (H : (refresh_pathman_relation_info E 30 sample_row false st).1 =
              with_caches (with_partitioned_rels (delete 30)) st)
    by exact (refresh_null_result E 30 sample_row false st _ Hrun).
  rewrite H in Hrun. split; [exact Hrun|reflexivity].
Defined.

(** *** The common checks on an entry *)

(** X23.  [shout_if_prel_is_invalid] never changes the state and never
    crashes; it returns exactly when the entry pointer is not null, the
    entry is valid and the expected method is ANY or the method of the
    entry.  Given what [get_pathman_relation_info] has just returned, the
    error about an invalid entry in the cache cannot be raised, and with
    the expected method ANY the check passes exactly when the result was
    not null. *)
Theorem shout_if_prel_is_invalid_spec E parent_oid prel expected st :
  exists r,
    shout_if_prel_is_invalid E parent_oid prel expected st = (st, r) /\
    r <> Crashed /\
    (r = Done tt <->
     exists entry, prel = Some entry /\
       let p := default (uninitialized_prel E entry) (lookup_prel entry st) in
       valid p = true /\ (expected = PT_ANY \/ expected = parttype p)) /\
    (forall relid st0,
       get_pathman_relation_info E relid st0 = (st, Done prel) ->
       r <> Raised "pg_pathman's cache contains invalid entry for relation" /\
       (expected = PT_ANY -> (r = Done tt <-> is_Some prel))).
Proof.
  unfold shout_if_prel_is_invalid.
  destruct prel as [entry|].
  2:{ eexists. split; [reflexivity|]. split; [discriminate|]. split.
      - split; [discriminate|]. intros (entry & H & _). discriminate.
      - intros relid st0 _. split; [discriminate|]. intros _.
        split; [discriminate|]. intros [? H]. discriminate. }
  unfold mbind, pathman_bind, read_prel, mret, pathman_ret, elog_ERROR.
  cbn [PrelIsValid].
  set (p := default (uninitialized_prel E entry) (lookup_prel entry st)).
  assert (Hget : forall relid st0,
            get_pathman_relation_info E relid st0 = (st, Done (Some entry)) ->
            valid p = true).
  { intros relid st0 Hrun.
    pose proof (get_pathman_relation_info_outcomes E relid st0) as H.
    rewrite Hrun in H. destruct H as [-> H]. subst p.
    destruct (lookup_prel relid st); [exact H|discriminate]. }
  destruct (valid p) eqn:V; cbn [negb].
  2:{ eexists. split; [reflexivity|]. split; [discriminate|]. split.
      - split; [discriminate|]. intros (entry' & [= <-] & H & _).
        fold p in H. congruence.
      - intros relid st0 Hrun. specialize (Hget relid st0 Hrun).
        discriminate. }
  assert (Heqb : forall a b, PartType_eqb a b = true <-> a = b).
  { intros [] []; cbn; split; (reflexivity || discriminate). }
  destruct (PartType_eqb expected PT_ANY) eqn:Hany; cbn [negb andb].
  { apply Heqb in Hany. eexists. split; [reflexivity|].
    split; [discriminate|]. split.
    - split; [|reflexivity]. intros _. exists entry. cbn. fold p. auto.
    - intros relid st0 _. split; [discriminate|]. intros _.
      split; [eauto|reflexivity]. }
  assert (Hnany : expected <> PT_ANY).
  { intros H. apply Heqb in H. congruence. }
  destruct (PartType_eqb expected (parttype p)) eqn:Hpt; cbn [negb].
  { apply Heqb in Hpt. eexists. split; [reflexivity|].
    split; [discriminate|]. split.
    - split; [|reflexivity]. intros _. exists entry. cbn. fold p. auto.
    - intros relid st0 _. split; [discriminate|]. intros; contradiction. }
  assert (Hnpt : expected <> parttype p).
  { intros H. apply Heqb in H. congruence. }
  destruct expected; try contradiction.
  all: eexists; (split; [reflexivity|]); (split; [discriminate|]); split.
  all: try (split; [discriminate|];
            intros (entry' & [= <-] & _ & [H|H]); [discriminate H|];
            fold p in H; congruence).
  all: intros relid st0 _; split; [discriminate|]; intros; discriminate.
Qed.

(** *** Lookup after locking *)

(** X24.  [get_pathman_relation_info_after_lock] never answers from the
    cache: the entry is invalidated first, so the lookup that follows
    rebuilds it from the current configuration row, or removes it when
    there is none.  A returned entry is therefore valid and populated
    from that row, and the lock is kept; on a null result the lock is
    released exactly when [unlock_if_not_found] asks for it, and no valid
    entry is left; after an error the entry is invalid with null
    arrays.  The result of the lock acquisition is handed back when asked
    for. *)
Theorem after_lock_rebuilds {L : Type} (xact_lock : Oid -> bool -> L)
    E relid unlock_if_not_found lock_result st :
  let st1 :=
    with_caches
      (with_partitioned_rels (insert relid (invalidated_entry E relid st)))
      st in
  let lr := if lock_result : bool then Some (xact_lock relid false) else None in
  get_pathman_relation_info_after_lock xact_lock E relid unlock_if_not_found
    lock_result st =
    (prel ←
       match config_row_for_refresh E relid with
       | Some values => refresh_pathman_relation_info E relid values false
       | None => remove_pathman_relation_info E relid;; mret None
       end;
     mret (prel, lr, negb (bool_decide (is_Some prel)) && unlock_if_not_found))
      st1 /\
  match get_pathman_relation_info_after_lock xact_lock E relid
          unlock_if_not_found lock_result st with
  | (st', Done (Some prel, lr', unlocked)) =>
      prel = relid /\ lr' = lr /\ unlocked = false /\
      exists values p,
        config_row_for_refresh E relid = Some values /\
        lookup_prel relid st' = Some p /\ valid p = true /\
        populated E relid values false p
  | (st', Done (None, lr', unlocked)) =>
      lr' = lr /\ unlocked = unlock_if_not_found /\
      PrelIsValid (lookup_prel relid st') = false
  | (st', Raised _) => entry_invalid_without_arrays relid st'
  | (st', Crashed) => PrelIsValid (lookup_prel relid st') = false
  end.
Proof.
  intros st1 lr.
  assert (Heq :
    get_pathman_relation_info_after_lock xact_lock E relid
      unlock_if_not_found lock_result st =
    (prel ←
       match config_row_for_refresh E relid with
       | Some values => refresh_pathman_relation_info E relid values false
       | None => remove_pathman_relation_info E relid;; mret None
       end;
     mret (prel, lr, negb (bool_decide (is_Some prel)) && unlock_if_not_found))
      st1).
  { assert (Hget :
      get_pathman_relation_info E relid st1 =
      match config_row_for_refresh E relid with
      | Some values => refresh_pathman_relation_info E relid values false
      | None => remove_pathman_relation_info E relid;; mret None
      end st1).
    { rewrite get_pathman_relation_info_eq.
      assert (L1 : lookup_prel relid st1 = Some (invalidated_entry E relid st))
        by apply lookup_prel_insert.
      rewrite L1.
      destruct (invalidated_entry_fields E relid st) as (-> & _).
      unfold config_row_for_refresh.
      destruct (pathman_config_contains_relation E relid) as [values|];
        cbn [fmap option_fmap option_map]; [reflexivity|].
      erewrite bind_done by apply remove_eq. reflexivity. }
    unfold get_pathman_relation_info_after_lock.
    erewrite bind_done by apply invalidate_enter_eq. fold st1.
    unfold mbind at 1 2, pathman_bind at 1 2. rewrite Hget. reflexivity. }
  split; [exact Heq|]. rewrite Heq. clear Heq.
  unfold mbind at 1, pathman_bind at 1.
  destruct (config_row_for_refresh E relid) as [values|].
  - pose proof (refresh_outcomes E relid values false st1) as H.
    destruct (refresh_pathman_relation_info E relid values false st1)
      as [st' [[prel|]|msg|]]; cbn; auto.
    destruct H as (-> & p & Lp & Vp & Hpop).
    repeat split; try reflexivity. eauto 10.
  - erewrite bind_done by apply remove_eq. cbn.
    rewrite lookup_prel_delete. auto.
Qed.

(** A valid but stale entry (its children array lists a partition that is
    gone) does not survive the lookup after locking. *)
Example after_lock_replaces_a_stale_entry :
  let E := healthy_backend in
  let stale :=
    mk_prel 10 true true 1 (Some [99]) None false PT_HASH (Some "id"%string)
            (Some "cooked:id"%string) [] [] 23 (-1) true 4 4 0 351 450 in
  let st := mk_state [] [] false (mk_caches {[ 10 := stale ]} ∅ ∅ true) in
  (get_pathman_relation_info E 10 st).2 = Done (Some 10) /\
  children <$> lookup_prel 10 (get_pathman_relation_info E 10 st).1 =
    Some (Some [99]) /\
  let after :=
    get_pathman_relation_info_after_lock (fun _ _ => true) E 10 true true st in
  after.2 = Done (Some 10, Some true, false) /\
  children <$> lookup_prel 10 after.1 = Some (Some [11; 12]).
Proof. vm_compute. repeat split; reflexivity. Qed.

(** *** The hooks switch while an expression is cooked *)

(** X25.  [cook_partitioning_expression] and [pathman_hooks_enabled].
    An error of [parse_partitioning_expression] comes before the switch
    is touched.  An error of the analysis is caught, the switch is set,
    and the error is raised again as an analyze error.  After that, the
    switch is set when the routine returns, whatever it was at entry,
    and is left off whenever the routine fails: when the analysis gives
    other than one query, when the planner raises an error, when the
    expression calls a function that is not immutable. *)
Theorem cook_partitioning_expression_hooks P E relid expr_cstr hooks :
  let '(hooks', r) := cook_partitioning_expression P E relid expr_cstr hooks in
  match parse_partitioning_expression P E relid expr_cstr with
  | Done (_, query_string, parsetree) =>
      match pg_analyze_and_rewrite P parsetree query_string with
      | inl _ =>
          hooks' = true /\
          r = Raised "partitioning expression analyze error"
      | inr _ =>
          match r with
          | Done _ => hooks' = true
          | _ => hooks' = false
          end
      end
  | Raised msg => hooks' = hooks /\ r = Raised msg
  | Crashed => hooks' = hooks /\ r = Crashed
  end.
Proof.
  unfold cook_partitioning_expression.
  destruct (parse_partitioning_expression P E relid expr_cstr)
    as [[[val query_string] parsetree]|msg|]; [|auto..].
  destruct (pg_analyze_and_rewrite P parsetree query_string)
    as [msg|querytree_list]; [auto|].
  destruct (negb _); [reflexivity|].
  destruct (linitial querytree_list) as [expr_query| |]; try reflexivity.
  destruct (pg_plan_query P expr_query) as [msg|expr_plan]; [reflexivity|].
  destruct (if planTree_IsA_IndexOnlyScan expr_plan then _ else _)
    as [target_entry| |]; try reflexivity.
  destruct (contain_mutable_functions P _); reflexivity.
Qed.

(** Two runs: an immutable expression is cooked and the switch is set
    though it was off; an expression with a volatile function leaves the
    switch off though it was set. *)
Example cook_partitioning_expression_runs :
  cook_partitioning_expression sample_parser (sample_backend 5) 10 "id" false
    = (true, Done ("SELECT (id) FROM ONLY public.t"%string, 23)) /\
  cook_partitioning_expression sample_parser (sample_backend 5) 10 "random()"
    true
    = (false,
       Raised "functions in partitioning expression must be marked IMMUTABLE").
Proof. split; reflexivity. Qed.

(** *** The rebuilt entry *)

Lemma bind_assoc {A B C} (m : Pathman A) (k : A -> Pathman B)
    (k' : B -> Pathman C) st :
  ((m ≫= k) ≫= k') st = (m ≫= fun a => k a ≫= k') st.
Proof.
  unfold mbind, pathman_bind. destruct (m st) as [s1 [a| |]]; reflexivity.
Qed.

Lemma same_meta_placed n i b p : same_meta p (placed n i b p).
Proof.
  unfold placed. destruct (pbin_parttype b); unfold same_meta; cbn; tauto.
Qed.

Lemma same_meta_finalized E p : same_meta p (finalized E p).
Proof.
  unfold finalized. destruct (parttype p); unfold same_meta; cbn; tauto.
Qed.

Lemma get_bounds_done E c prel s s' b :
  get_bounds_of_partition E c prel s = (s', Done b) ->
  (pg_pathman_enable_bounds_cache E = true /\
   bounds s !! c = Some b /\ s' = s) \/
  ((exists e,
      partition_constraint E c = ConstraintExpr e /\
      fill_pbin_with_bounds E
        (mk_pbin c (pbin_parttype (uninitialized_pbin E))
                 (part_idx (uninitialized_pbin E))
                 (range_min (uninitialized_pbin E))
                 (range_max (uninitialized_pbin E)) (ev_byval prel))
        prel (Some e) s = (s, Done b)) /\
   (pg_pathman_enable_bounds_cache E = true -> bounds s !! c = None) /\
   bounds s' =
     if pg_pathman_enable_bounds_cache E then <[c := b]> (bounds s)
     else bounds s).
Proof.
  unfold get_bounds_of_partition.
  unfold mbind at 1, pathman_bind at 1, get_state at 1.
  destruct (if pg_pathman_enable_bounds_cache E
            then bound_cache (caches s) !! c else None) as [hit|] eqn:Hc.
  { intros [= <- <-]. left.
    destruct (pg_pathman_enable_bounds_cache E); [auto|discriminate]. }
  unfold get_partition_constraint_expr.
  destruct (partition_constraint E c) as [| |e]; [discriminate..|].
  rewrite bind_ret. unfold mbind at 1, pathman_bind at 1.
  destruct (fill_pbin_with_bounds E _ prel (Some e) s) as [s1 [b1| |]] eqn:Hf;
    try discriminate.
  assert (Hs1 : s1 = s).
  { revert Hf. unfold fill_pbin_with_bounds. monad_unfold.
    destruct (IsA_NullTest E e); [intros [= <- _]; reflexivity|].
    destruct (parttype prel); cbn; try discriminate.
    - destruct (validate_hash_constraint E e prel); cbn;
        [intros [= <- _]; reflexivity|discriminate].
    - destruct (validate_range_constraint E e prel) as [[lo hi]|]; cbn;
        [intros [= <- _]; reflexivity|discriminate]. }
  subst s1. intros Hrun. right.
  destruct (pg_pathman_enable_bounds_cache E); cbn in Hrun;
    injection Hrun as <- <-;
    (split; [eauto|split; [intros; first [exact Hc|discriminate]
                          |reflexivity]]).
Qed.

Lemma fill_prel_turn_done E relid n i x s s' q :
  fill_prel_turn E relid n i x s = (s', Done tt) ->
  lookup_prel relid s = Some q ->
  exists b sb,
    get_bounds_of_partition E x q s = (sb, Done b) /\
    lookup_prel relid s' = Some (placed n i b q) /\
    bounds s' = bounds sb /\ pbin_parttype b <> PT_ANY.
Proof.
  intros Hrun L. unfold fill_prel_turn in Hrun.
  erewrite bind_read in Hrun by exact L.
  unfold mbind at 1, pathman_bind at 1 in Hrun.
  pose proof (rels_get_bounds E x q s) as Hrels.
  destruct (get_bounds_of_partition E x q s) as [sb [b| |]];
    try discriminate.
  cbn [fst] in Hrels.
  assert (Lb : lookup_prel relid sb = Some q).
  { unfold lookup_prel. fold (rels sb). rewrite Hrels. exact L. }
  exists b, sb. split; [reflexivity|]. unfold placed.
  unfold store_child, store_range in Hrun.
  destruct (pbin_parttype b); [discriminate| | |].
  - erewrite bind_read in Hrun by exact Lb.
    destruct (children q) as [ch|] eqn:Hch; [|discriminate].
    injection Hrun as <-.
    split; [erewrite lookup_prel_assign_Some by exact Lb; rewrite Hch;
            reflexivity|].
    split; [reflexivity|discriminate].
  - destruct (PrelRangePartitionsCount E q <=? i)%nat; [discriminate|].
    rewrite bind_ret in Hrun. erewrite bind_read in Hrun by exact Lb.
    destruct (ranges q) as [rg|] eqn:Hrg; [|discriminate].
    injection Hrun as <-.
    split; [erewrite lookup_prel_assign_Some by exact Lb; rewrite Hrg;
            reflexivity|].
    split; [reflexivity|discriminate].
  - rewrite bind_assoc in Hrun. erewrite bind_read in Hrun by exact Lb.
    destruct (children q) as [ch|] eqn:Hch; [|discriminate].
    rewrite bind_assign in Hrun. injection Hrun as <-.
    split; [apply lookup_prel_assign_Some;
            erewrite lookup_prel_assign_Some by exact Lb; rewrite Hch;
            reflexivity|].
    split; [reflexivity|discriminate].
Qed.

Lemma same_meta_allocated E n p : same_meta p (allocated E n p).
Proof.
  unfold allocated.
  cbn [parttype set_children_count set_has_null_partition set_ranges
       set_children].
  destruct (parttype p); unfold same_meta; cbn; tauto.
Qed.

Lemma has_arrays_allocated E n p : has_arrays n (allocated E n p).
Proof.
  unfold allocated.
  cbn [parttype set_children_count set_has_null_partition set_ranges
       set_children].
  destruct (parttype p) eqn:Hpt; unfold has_arrays; cbn; rewrite ?Hpt.
  all: split; [eexists; split; [reflexivity|apply length_replicate]|].
  all: split; [reflexivity|first [intros; congruence|eauto]].
Qed.

Lemma has_arrays_placed n i b p :
  has_arrays n p -> has_arrays n (placed n i b p).
Proof.
  intros H. unfold placed. destruct (pbin_parttype b); [exact H| | |].
  - apply has_arrays_store_children. exact H.
  - apply has_arrays_store_ranges. exact H.
  - apply (has_arrays_store_children n (n - 1) (child_rel b)) in H.
    unfold has_arrays in *. cbn in *. exact H.
Qed.

Lemma derived_bound_parttype E p c b :
  derived_bound E p c b ->
  pbin_parttype b = PT_NULL \/ pbin_parttype b = parttype p.
Proof.
  intros (e & prel & s & M & _ & Hf).
  destruct M as (_ & _ & _ & -> & _).
  revert Hf. unfold fill_pbin_with_bounds. monad_unfold.
  destruct (IsA_NullTest E e); [intros [= <-]; left; reflexivity|].
  destruct (parttype prel); cbn; try discriminate.
  - destruct (validate_hash_constraint E e prel); cbn;
      [intros [= <-]; right; reflexivity|discriminate].
  - destruct (validate_range_constraint E e prel) as [[lo hi]|]; cbn;
      [intros [= <-]; right; reflexivity|discriminate].
Qed.

Lemma get_bounds_crashed E c prel s s' :
  get_bounds_of_partition E c prel s = (s', Crashed) ->
  partition_constraint E c = NullConbin.
Proof.
  unfold get_bounds_of_partition.
  unfold mbind at 1, pathman_bind at 1, get_state at 1.
  destruct (if pg_pathman_enable_bounds_cache E
            then bound_cache (caches s) !! c else None) as [hit|];
    [discriminate|].
  unfold get_partition_constraint_expr.
  destruct (partition_constraint E c) as [| |e]; [discriminate|reflexivity|].
  rewrite bind_ret. unfold fill_pbin_with_bounds. monad_unfold.
  destruct (IsA_NullTest E e);
    [destruct (pg_pathman_enable_bounds_cache E); discriminate|].
  destruct (parttype prel); cbn; try discriminate.
  - destruct (validate_hash_constraint E e prel); cbn;
      [destruct (pg_pathman_enable_bounds_cache E)|]; discriminate.
  - destruct (validate_range_constraint E e prel) as [[lo hi]|]; cbn;
      [destruct (pg_pathman_enable_bounds_cache E)|]; discriminate.
Qed.

Lemma get_bounds_malformed E partition prel st :
  bound_not_cached E partition st ->
  constraint_malformed E partition prel ->
  exists msg,
    get_bounds_of_partition E partition prel st =
      (hooks_disabled st, Raised msg).
Proof.
  intros Hnc Hbad. unfold get_bounds_of_partition.
  unfold mbind at 1, pathman_bind at 1, get_state at 1.
  assert ((if pg_pathman_enable_bounds_cache E
           then bound_cache (caches st) !! partition else None) = None) as ->.
  { destruct Hnc as [-> | ->]; [reflexivity|].
    destruct (pg_pathman_enable_bounds_cache E); reflexivity. }
  unfold constraint_malformed in Hbad.
  unfold get_partition_constraint_expr, fill_pbin_with_bounds.
  destruct (partition_constraint E partition) as [| |e].
  - eexists. reflexivity.
  - contradiction.
  - destruct Hbad as [Hnt Hshape]. monad_unfold. cbn. rewrite Hnt.
    destruct (parttype prel); cbn; rewrite ?Hshape; eexists; reflexivity.
Qed.

(** The bounds cache during the loop of a refresh that started in [st0]
    with the entry [p0]: it has grown from the cache of [st0], and what it
    holds is what [get_bounds_of_partition] gave. *)
Lemma fill_prel_turn_cache E relid n i x s s' q st0 p0 :
  fill_prel_turn E relid n i x s = (s', Done tt) ->
  lookup_prel relid s = Some q -> same_meta p0 q ->
  (pg_pathman_enable_bounds_cache E = true ->
   (forall c b, bounds s !! c = Some b -> bound_obtained E st0 p0 c b) /\
   (forall c b, bounds st0 !! c = Some b -> bounds s !! c = Some b)) ->
  exists b,
    bound_obtained E st0 p0 x b /\
    lookup_prel relid s' = Some (placed n i b q) /\
    (pg_pathman_enable_bounds_cache E = true ->
     (forall c b, bounds s' !! c = Some b -> bound_obtained E st0 p0 c b) /\
     (forall c b, bounds st0 !! c = Some b -> bounds s' !! c = Some b)) /\
    (forall c, c <> x -> bounds s' !! c = bounds s !! c).
Proof.
  intros Ht L M Hinv.
  destruct (fill_prel_turn_done _ _ _ _ _ _ _ _ Ht L)
    as (b & sb & Hb & L1 & Hbd & Hany).
  exists b. rewrite Hbd.
  destruct (get_bounds_done _ _ _ _ _ _ Hb)
    as [(Hon & Hhit & ->)|((e & He & Hf) & Hmiss & Hbs)].
  - destruct (Hinv Hon) as [Hob Hgrow].
    split; [apply Hob; exact Hhit|].
    split; [exact L1|]. split; [intros _; split; assumption|reflexivity].
  - assert (Hd : derived_bound E p0 x b) by (exists e, q, s; auto).
    rewrite Hbs.
    destruct (pg_pathman_enable_bounds_cache E) eqn:Hon.
    + destruct (Hinv eq_refl) as [Hob Hgrow].
      specialize (Hmiss eq_refl).
      assert (Hx : bound_obtained E st0 p0 x b).
      { unfold bound_obtained. rewrite Hon.
        destruct (bounds st0 !! x) as [cached|] eqn:Hc; [|exact Hd].
        apply Hgrow in Hc.
        assert (Hn : Some cached = None) by (rewrite <- Hc; exact Hmiss).
        discriminate. }
      split; [exact Hx|]. split; [exact L1|].
      split.
      * intros _. split.
        -- intros c b'. destruct (decide (c = x)) as [->|Hne].
           ++ rewrite lookup_insert_eq. intros [= <-]. exact Hx.
           ++ rewrite lookup_insert_ne by congruence. apply Hob.
        -- intros c b' Hc. destruct (decide (c = x)) as [->|Hne].
           ++ apply Hgrow in Hc.
              assert (Hn : Some b' = None) by (rewrite <- Hc; exact Hmiss).
              discriminate.
           ++ rewrite lookup_insert_ne by congruence. apply Hgrow, Hc.
      * intros c Hne. apply lookup_insert_ne. congruence.
    + split; [unfold bound_obtained; rewrite Hon; exact Hd|].
      split; [exact L1|].
      split; [discriminate|reflexivity].
Qed.

Lemma fill_prel_loop_done E relid n st0 p0 l : forall i s s' q,
  fill_prel_loop E relid n i l s = (s', Done tt) ->
  lookup_prel relid s = Some q -> same_meta p0 q ->
  (pg_pathman_enable_bounds_cache E = true ->
   (forall c b, bounds s !! c = Some b -> bound_obtained E st0 p0 c b) /\
   (forall c b, bounds st0 !! c = Some b -> bounds s !! c = Some b)) ->
  exists bs,
    Forall2 (bound_obtained E st0 p0) l bs /\
    lookup_prel relid s' = Some (placed_all n i bs q).
Proof.
  induction l as [|x l IH]; intros i s s' q Hrun L M Hinv.
  { injection Hrun as <-. exists []. split; [constructor|exact L]. }
  cbn [fill_prel_loop] in Hrun.
  unfold mbind at 1, pathman_bind at 1 in Hrun.
  destruct (fill_prel_turn E relid n i x s) as [s1 [[]| |]] eqn:Ht;
    try discriminate.
  destruct (fill_prel_turn_cache _ _ _ _ _ _ _ _ _ _ Ht L M Hinv)
    as (b & Hob & L1 & Hinv1 & _).
  destruct (IH (S i) s1 s' (placed n i b q) Hrun L1) as (bs & F2 & L');
    [eapply same_meta_trans; [exact M|apply same_meta_placed]|exact Hinv1|].
  exists (b :: bs). split; [constructor; assumption|exact L'].
Qed.

Lemma fill_prel_loop_fails E relid n st0 p0 child l : forall i s s' q,
  lookup_prel relid s = Some q -> same_meta p0 q ->
  (pg_pathman_enable_bounds_cache E = true ->
   (forall c b, bounds s !! c = Some b -> bound_obtained E st0 p0 c b) /\
   (forall c b, bounds st0 !! c = Some b -> bounds s !! c = Some b)) ->
  bound_not_cached E child s -> child ∈ l ->
  (forall prel, same_meta p0 prel -> constraint_malformed E child prel) ->
  fill_prel_loop E relid n i l s <> (s', Done tt).
Proof.
  induction l as [|x l IH]; intros i s s' q L M Hinv Hnc Hin Hbad Hrun.
  { inversion Hin. }
  cbn [fill_prel_loop] in Hrun.
  unfold mbind at 1, pathman_bind at 1 in Hrun.
  destruct (fill_prel_turn E relid n i x s) as [s1 [[]| |]] eqn:Ht;
    try discriminate.
  destruct (decide (x = child)) as [->|Hne].
  { destruct (fill_prel_turn_done _ _ _ _ _ _ _ _ Ht L)
      as (b & sb & Hb & _).
    destruct (get_bounds_malformed E child q s Hnc (Hbad q M)) as (msg & Hm).
    rewrite Hm in Hb. discriminate. }
  apply elem_of_cons in Hin as [->|Hin]; [congruence|].
  destruct (fill_prel_turn_cache _ _ _ _ _ _ _ _ _ _ Ht L M Hinv)
    as (b & _ & L1 & Hinv1 & Hother).
  apply (IH (S i) s1 s' (placed n i b q) L1); try assumption.
  - eapply same_meta_trans; [exact M|apply same_meta_placed].
  - destruct Hnc as [Hoff|Hnone]; [left; exact Hoff|right].
    fold (bounds s1). rewrite Hother by congruence. exact Hnone.
Qed.

Lemma fill_prel_loop_crashed E relid n st0 p0 l : forall i s s' q,
  fill_prel_loop E relid n i l s = (s', Crashed) ->
  lookup_prel relid s = Some q -> same_meta p0 q -> has_arrays n q ->
  (pg_pathman_enable_bounds_cache E = true ->
   (forall c b, bounds s !! c = Some b -> bound_obtained E st0 p0 c b) /\
   (forall c b, bounds st0 !! c = Some b -> bounds s !! c = Some b)) ->
  exists c, c ∈ l /\ crash_cause E st0 (parttype p0) c.
Proof.
  induction l as [|x l IH]; intros i s s' q Hrun L M A Hinv.
  { discriminate. }
  cbn [fill_prel_loop] in Hrun.
  unfold mbind at 1, pathman_bind at 1 in Hrun.
  destruct (fill_prel_turn E relid n i x s) as [s1 [[]| |]] eqn:Ht;
    try discriminate.
  - destruct (fill_prel_turn_cache _ _ _ _ _ _ _ _ _ _ Ht L M Hinv)
      as (b & _ & L1 & Hinv1 & _).
    destruct (IH (S i) s1 s' (placed n i b q) Hrun L1) as (c & Hc & Hcause);
      [eapply same_meta_trans; [exact M|apply same_meta_placed]
      |apply has_arrays_placed; exact A|exact Hinv1|].
    exists c. split; [apply elem_of_cons; auto|exact Hcause].
  - exists x. split; [apply elem_of_cons; auto|].
    clear Hrun IH. unfold fill_prel_turn in Ht.
    erewrite bind_read in Ht by exact L.
    unfold mbind at 1, pathman_bind at 1 in Ht.
    pose proof (rels_get_bounds E x q s) as Hrels.
    destruct (get_bounds_of_partition E x q s) as [sb [b| |]] eqn:Hb;
      try discriminate.
    2:{ left. eapply get_bounds_crashed. exact Hb. }
    cbn [fst] in Hrels.
    assert (Lb : lookup_prel relid sb = Some q).
    { unfold lookup_prel. fold (rels sb). rewrite Hrels. exact L. }
    destruct A as ((ch & Hch & _) & _ & Hrg).
    unfold store_child, store_range in Ht.
    destruct (pbin_parttype b) eqn:Hty; try discriminate.
    + erewrite bind_read in Ht by exact Lb. rewrite Hch in Ht.
      discriminate.
    + destruct (PrelRangePartitionsCount E q <=? i)%nat; [discriminate|].
      rewrite bind_ret in Ht. erewrite bind_read in Ht by exact Lb.
      destruct (ranges q) as [rg|] eqn:Hq; [discriminate|].
      assert (Hnr : parttype p0 <> PT_RANGE).
      { destruct M as (_ & _ & _ & -> & _). intros Hr.
        destruct (Hrg Hr) as [rg Hrg']. congruence. }
      assert (Hnd : ~ derived_bound E p0 x b).
      { intros Hd. apply derived_bound_parttype in Hd as [Hd|Hd];
          congruence. }
      destruct (get_bounds_done _ _ _ _ _ _ Hb)
        as [(Hon & Hhit & ->)|((e & He & Hf) & _)].
      * right. split; [exact Hon|]. exists b.
        destruct (Hinv Hon) as [Hob _]. specialize (Hob x b Hhit).
        unfold bound_obtained in Hob. rewrite Hon in Hob.
        destruct (bounds st0 !! x) as [cached|]; [subst cached|tauto].
        auto.
      * exfalso. apply Hnd. exists e, q, s. auto.
    + rewrite bind_assoc in Ht. erewrite bind_read in Ht by exact Lb.
      rewrite Hch in Ht. discriminate.
Qed.

Lemma check_children_run slots : forall s,
  match check_children_assigned slots s with
  | (s', Done _) =>
      s' = s /\ Forall (fun child => OidIsValid child = true) slots
  | (_, Raised _) => True
  | (_, Crashed) => False
  end.
Proof.
  induction slots as [|child rest IH]; intros s;
    cbn [check_children_assigned].
  { cbn. auto. }
  destruct (OidIsValid child) eqn:Hv; cbn [negb].
  - rewrite bind_ret. specialize (IH s).
    destruct (check_children_assigned rest s) as [s' [[]| |]];
      [|exact IH..].
    destruct IH as [-> F]. auto.
  - rewrite bind_assoc. unfold DisablePathman, modify_state.
    unfold mbind at 1, pathman_bind at 1. rewrite bind_elog. exact I.
Qed.

(** [fill_prel_with_partitions] is the allocation of the arrays, then the
    loop, then the last steps. *)
Lemma fill_prel_unfold E relid partitions n st p :
  lookup_prel relid st = Some p ->
  exists s1,
    lookup_prel relid s1 = Some (allocated E n p) /\
    bounds s1 = bounds st /\
    fill_prel_with_partitions E relid partitions n st =
      (fill_prel_loop E relid n 0 (take n partitions);;
       fill_prel_finish E relid) s1.
Proof.
  intros L. unfold fill_prel_with_partitions, fill_prel_finish.
  rewrite !bind_assign.
  erewrite bind_read by (repeat apply lookup_prel_assign_Some; exact L).
  unfold allocated.
  cbn [parttype set_children_count set_has_null_partition set_ranges
       set_children].
  destruct (parttype p) eqn:Hpt.
  all: rewrite ?bind_assign, ?bind_ret.
  all: match goal with |- exists s1, _ /\ _ /\ ?m ?s = _ => exists s end.
  all: split; [repeat apply lookup_prel_assign_Some; exact L|].
  all: split; reflexivity.
Qed.

Lemma fill_prel_finish_run E relid n s q :
  lookup_prel relid s = Some q -> has_arrays n q ->
  match fill_prel_finish E relid s with
  | (s', Done _) =>
      lookup_prel relid s' = Some (finalized E q) /\
      (USE_ASSERT_CHECKING E = true -> parttype q = PT_HASH ->
       forall slots, children q = Some slots ->
         Forall (fun child => OidIsValid child = true)
                (take (children_count q) slots))
  | (_, Raised _) => USE_ASSERT_CHECKING E = true /\ parttype q = PT_HASH
  | (_, Crashed) => False
  end.
Proof.
  intros L ((ch & Hch & _) & _ & _). unfold fill_prel_finish.
  erewrite bind_read by exact L.
  assert (Hfin : exists s3,
    lookup_prel relid s3 = Some (finalized E q) /\
    forall k : unit -> Pathman unit,
      (match parttype q with
       | PT_RANGE =>
           assign_prel relid (fun p =>
             set_ranges
               ((fun l =>
                   qsort_range_entries E p
                     (take (PrelRangePartitionsCount E p) l)
                   ++ drop (PrelRangePartitionsCount E p) l) <$> ranges p) p);;
           assign_prel relid (fun p =>
             set_children
               ((fun ch =>
                   foldl (fun ch '(i, re) => <[i := child_oid re]> ch) ch
                         (imap (fun i re => (i, re))
                            (take (PrelRangePartitionsCount E p)
                                  (default [] (ranges p)))))
                <$> children p) p)
       | _ => mret tt
       end ≫= k) s = k tt s3).
  { unfold finalized. destruct (parttype q).
    all: try (exists s; split; [exact L|]; intros k; apply bind_ret).
    eexists. split; [|intros k; rewrite bind_assoc, !bind_assign;
                       reflexivity].
    cbv zeta.
    erewrite lookup_prel_assign_Some
      by (apply lookup_prel_assign_Some; exact L).
    reflexivity. }
  destruct Hfin as (s3 & L3 & ->).
  pose proof (same_meta_finalized E q) as (_ & _ & _ & Hpt & _).
  destruct (USE_ASSERT_CHECKING E).
  2:{ split; [exact L3|]. discriminate. }
  erewrite bind_read by exact L3. rewrite <- Hpt.
  destruct (parttype q) eqn:Hpt2.
  all: try (split; [exact L3|]; intros; discriminate).
  assert (Hq : finalized E q = q)
    by (unfold finalized; rewrite Hpt2; reflexivity).
  rewrite Hq in *. rewrite Hch.
  pose proof (check_children_run (take (children_count q) ch) s3) as Hc.
  destruct (check_children_assigned (take (children_count q) ch) s3)
    as [s' [[]| |]]; [|auto|exact Hc].
  destruct Hc as [-> Hall]. split; [exact L3|].
  intros _ _ slots [= <-]. exact Hall.
Qed.

(** A run of [fill_prel_with_partitions] that returns. *)
Lemma fill_prel_done E relid partitions n st st' p :
  lookup_prel relid st = Some p ->
  fill_prel_with_partitions E relid partitions n st = (st', Done tt) ->
  exists s1 s2 q2,
    lookup_prel relid s1 = Some (allocated E n p) /\ bounds s1 = bounds st /\
    fill_prel_loop E relid n 0 (take n partitions) s1 = (s2, Done tt) /\
    lookup_prel relid s2 = Some q2 /\
    lookup_prel relid st' = Some (finalized E q2) /\
    (USE_ASSERT_CHECKING E = true -> parttype q2 = PT_HASH ->
     forall slots, children q2 = Some slots ->
       Forall (fun child => OidIsValid child = true)
              (take (children_count q2) slots)).
Proof.
  intros L Hrun.
  destruct (fill_prel_unfold E relid partitions n st p L)
    as (s1 & L1 & Hb & Heq).
  rewrite Heq in Hrun. clear Heq.
  destruct (fill_prel_loop_entry E relid n (take n partitions) 0 s1 _ L1)
    as (q2 & L2 & [_ A2]).
  specialize (A2 (has_arrays_allocated E n p)).
  unfold mbind at 1, pathman_bind at 1 in Hrun.
  destruct (fill_prel_loop E relid n 0 (take n partitions) s1)
    as [s2 [[]| |]] eqn:Hloop; try discriminate.
  cbn [fst] in L2.
  pose proof (fill_prel_finish_run E relid n s2 q2 L2 A2) as Hfin.
  rewrite Hrun in Hfin. destruct Hfin as [L3 Hall].
  exists s1, s2, q2. split; [exact L1|]. split; [exact Hb|].
  split; [exact Hloop|]. split; [exact L2|]. split; [exact L3|exact Hall].
Qed.

(** A run of [fill_prel_with_partitions] that crashes does so in the
    loop. *)
Lemma fill_prel_crashed E relid partitions n st st' p :
  lookup_prel relid st = Some p ->
  fill_prel_with_partitions E relid partitions n st = (st', Crashed) ->
  exists s1,
    lookup_prel relid s1 = Some (allocated E n p) /\ bounds s1 = bounds st /\
    fill_prel_loop E relid n 0 (take n partitions) s1 = (st', Crashed).
Proof.
  intros L Hrun.
  destruct (fill_prel_unfold E relid partitions n st p L)
    as (s1 & L1 & Hb & Heq).
  rewrite Heq in Hrun. clear Heq.
  destruct (fill_prel_loop_entry E relid n (take n partitions) 0 s1 _ L1)
    as (q2 & L2 & [_ A2]).
  specialize (A2 (has_arrays_allocated E n p)).
  unfold mbind at 1, pathman_bind at 1 in Hrun.
  destruct (fill_prel_loop E relid n 0 (take n partitions) s1)
    as [s2 [[]| |]] eqn:Hloop; try discriminate.
  - cbn [fst] in L2.
    pose proof (fill_prel_finish_run E relid n s2 q2 L2 A2) as Hfin.
    rewrite Hrun in Hfin. contradiction.
  - injection Hrun as <-. exists s1. split; [exact L1|].
    split; [exact Hb|exact Hloop].
Qed.

Lemma assign_after_insert {B} relid f x (k : unit -> Pathman B) st :
  (assign_prel relid f ≫= k)
    (with_caches (with_partitioned_rels (insert relid x)) st) =
  k tt (with_caches (with_partitioned_rels (insert relid (f x))) st).
Proof.
  rewrite bind_assign, with_rels_compose. f_equal.
  apply with_rels_ext. unfold compose. apply alter_insert_eq.
Qed.

Lemma cache_parents_eq relid children : forall st,
  foldr (fun child rest => cache_parent_of_partition child relid;; rest)
        (mret tt) children st =
  (with_caches (with_parent_cache (with_children_cached relid children)) st,
   Done tt).
Proof.
  induction children as [|c l IH]; intros st; cbn [foldr].
  - unfold mret, pathman_ret. f_equal. symmetry. apply with_parents_id.
    reflexivity.
  - erewrite bind_done by reflexivity. rewrite IH. reflexivity.
Qed.

(** A refresh that gets as far as filling the entry, in closed form. *)
Lemma refresh_reaches_filling E relid values allow st :
  reaches_filling E relid values allow ->
  refresh_pathman_relation_info E relid values allow st =
    match fill_prel_with_partitions E relid
            (find_inheritance_children_array E relid allow).2
            (length (find_inheritance_children_array E relid allow).2)
            (prepared E relid values st) with
    | (s3, Done _) =>
        (completed E relid
           (find_inheritance_children_array E relid allow).2 s3,
         Done (Some relid))
    | (s3, Raised msg) => (resources_freed relid s3, Raised msg)
    | (s3, Crashed) => (s3, Crashed)
    end.
Proof.
  intros (Hlock & Hex & Hone & [[tm coll] Hty] & Hfound).
  unfold refresh_pathman_relation_info.
  rewrite (bind_done _ _ _ _ _ (invalidate_enter_eq E relid st)).
  rewrite Hlock, Hex. cbn [negb]. cbv zeta.
  rewrite !assign_after_insert. rewrite Hone. cbn [negb]. rewrite bind_ret.
  rewrite !assign_after_insert. rewrite Hty.
  rewrite bind_assoc, !assign_after_insert.
  destruct (find_inheritance_children_array E relid allow)
    as [status prel_children].
  cbn [fst snd] in *. subst status.
  match goal with |- (_ ≫= _) ?s = _ =>
    assert (Heq : s = prepared E relid values st)
      by (unfold prepared, prepared_entry; cbv zeta; rewrite Hty;
          reflexivity);
    rewrite Heq; clear Heq
  end.
  unfold mbind at 1, pathman_bind at 1.
  pose proof (fill_prel_guarded_spec E relid prel_children
                (prepared E relid values st)) as Hg.
  destruct (fill_prel_with_partitions E relid prel_children
              (length prel_children) (prepared E relid values st))
    as [s3 [[]|msg|]]; rewrite Hg; [|reflexivity..].
  rewrite (bind_done _ _ _ _ _ (cache_parents_eq relid prel_children s3)).
  unfold completed.
  destruct (read_pathman_params E relid); rewrite !bind_assign; reflexivity.
Qed.

(** Only a refresh that gets as far as filling the entry returns it. *)
Lemma refresh_returns_entry E relid values allow st st' prel :
  refresh_pathman_relation_info E relid values allow st =
    (st', Done (Some prel)) ->
  reaches_filling E relid values allow.
Proof.
  unfold refresh_pathman_relation_info, reaches_filling.
  rewrite (bind_done _ _ _ _ _ (invalidate_enter_eq E relid st)).
  destruct (allow && negb (ConditionalLockRelationOid E relid));
    [discriminate|].
  destruct (SearchSysCacheExists_RELOID E relid); cbn [negb].
  2:{ erewrite bind_done by apply remove_eq. discriminate. }
  cbv zeta. rewrite !assign_after_insert.
  destruct (expr_references_one_table E _); cbn [negb];
    [|rewrite bind_elog; discriminate].
  rewrite bind_ret, !assign_after_insert.
  destruct (SearchSysCache_TYPEOID E _) as [[tm coll]|];
    [|rewrite bind_elog; discriminate].
  destruct (find_inheritance_children_array E relid allow)
    as [[] prel_children]; cbn [fst].
  - rewrite bind_assoc, !assign_after_insert.
    erewrite bind_done by apply remove_eq. discriminate.
  - rewrite bind_assoc, !assign_after_insert. discriminate.
  - intros _. repeat split; eauto.
Qed.

(** The entry a refresh returns. *)
Lemma refresh_rebuilt E relid values allow st st' prel :
  refresh_pathman_relation_info E relid values allow st =
    (st', Done (Some prel)) ->
  exists p, lookup_prel relid st' = Some p /\
            rebuilt E relid values allow st p.
Proof.
  intros Hrun. pose proof (refresh_returns_entry _ _ _ _ _ _ _ Hrun) as Hr.
  rewrite (refresh_reaches_filling _ _ _ _ _ Hr) in Hrun.
  set (prel_children := (find_inheritance_children_array E relid allow).2)
    in *.
  set (p0 := prepared_entry E relid values st).
  assert (L0 : lookup_prel relid (prepared E relid values st) = Some p0)
    by apply lookup_prel_insert.
  destruct (fill_prel_with_partitions E relid prel_children
              (length prel_children) (prepared E relid values st))
    as [s3 [[]|msg|]] eqn:Hfill; try discriminate.
  injection Hrun as <- _.
  destruct (fill_prel_done _ _ _ _ _ _ _ L0 Hfill)
    as (s1 & s2 & q2 & L1 & Hb1 & Hloop & L2 & L3 & Hall).
  rewrite take_ge in Hloop by lia.
  destruct (fill_prel_loop_done E relid (length prel_children) st p0
              prel_children 0 s1 s2 _ Hloop L1) as (bs & F2 & L2').
  { apply same_meta_allocated. }
  { intros Hon. rewrite Hb1. split; [|auto].
    intros c b Hc. unfold bound_obtained. rewrite Hon.
    change (bounds (prepared E relid values st)) with (bounds st) in Hc.
    rewrite Hc. reflexivity. }
  rewrite L2 in L2'. injection L2' as ->.
  eexists. split.
  { unfold completed. repeat apply lookup_prel_assign_Some. exact L3. }
  exists bs. split; [exact F2|]. split; [reflexivity|].
  cbn [parttype children children_count set_valid set_enable_parent].
  intros Hon Hh. pose proof (same_meta_finalized E
    (placed_all (length prel_children) 0 bs
       (allocated E (length prel_children) p0))) as (_ & _ & _ & Hpt & _).
  rewrite <- Hpt in Hh.
  assert (Hq : forall q, parttype q = PT_HASH -> finalized E q = q)
    by (intros q Hq; unfold finalized; rewrite Hq; reflexivity).
  rewrite (Hq _ Hh). apply Hall; assumption.
Qed.

(** A refresh does not return when a child with a malformed constraint
    has its bound derived. *)
Lemma refresh_fails E relid values allow st child :
  reaches_filling E relid values allow ->
  child ∈ (find_inheritance_children_array E relid allow).2 ->
  bound_not_cached E child st ->
  (forall prel, same_meta (prepared_entry E relid values st) prel ->
                constraint_malformed E child prel) ->
  match refresh_pathman_relation_info E relid values allow st with
  | (_, Raised _) => True
  | (_, Crashed) =>
      exists c, c ∈ (find_inheritance_children_array E relid allow).2 /\
                crash_cause E st (cfg_parttype values) c
  | (_, Done _) => False
  end.
Proof.
  intros Hr Hin Hnc Hbad.
  rewrite (refresh_reaches_filling _ _ _ _ _ Hr).
  set (prel_children := (find_inheritance_children_array E relid allow).2)
    in *.
  set (p0 := prepared_entry E relid values st) in *.
  assert (L0 : lookup_prel relid (prepared E relid values st) = Some p0)
    by apply lookup_prel_insert.
  assert (Hinv : forall s1, bounds s1 = bounds st ->
    pg_pathman_enable_bounds_cache E = true ->
    (forall c b, bounds s1 !! c = Some b -> bound_obtained E st p0 c b) /\
    (forall c b, bounds st !! c = Some b -> bounds s1 !! c = Some b)).
  { intros s1 Hb1 Hon. rewrite Hb1. split; [|auto].
    intros c b Hc. unfold bound_obtained. rewrite Hon, Hc. reflexivity. }
  destruct (fill_prel_with_partitions E relid prel_children
              (length prel_children) (prepared E relid values st))
    as [s3 [[]|msg|]] eqn:Hfill; [|exact I|].
  - destruct (fill_prel_done _ _ _ _ _ _ _ L0 Hfill)
      as (s1 & s2 & q2 & L1 & Hb1 & Hloop & _).
    rewrite take_ge in Hloop by lia.
    revert Hloop.
    apply (fill_prel_loop_fails E relid (length prel_children) st p0 child
             prel_children 0 s1 s2 _ L1);
      [apply same_meta_allocated|apply Hinv; exact Hb1| |exact Hin|exact Hbad].
    destruct Hnc as [Hoff|Hnone]; [left; exact Hoff|right].
    fold (bounds s1). rewrite Hb1. exact Hnone.
  - destruct (fill_prel_crashed _ _ _ _ _ _ _ L0 Hfill)
      as (s1 & L1 & Hb1 & Hloop).
    rewrite take_ge in Hloop by lia.
    destruct (fill_prel_loop_crashed E relid (length prel_children) st p0
                prel_children 0 s1 s3 _ Hloop L1) as (c & Hc & Hcause);
      [apply same_meta_allocated|apply has_arrays_allocated
      |apply Hinv; exact Hb1|].
    exists c. split; [exact Hc|]. exact Hcause.
Qed.



(** A run of the above: the second partition has a malformed constraint;
    filling leaves the children array half built, the refresh frees it
    and the expression. *)
Example refresh_fails_on_second_partition :
  let E := sample_backend 5 in
  let before :=
    mk_state [] [] false
      (mk_caches {[ 10 := sample_prel 10 PT_HASH false ]} ∅ ∅ true) in
  let filled := fill_prel_with_partitions E 10 [11; 12] 2 before in
  let refreshed := refresh_pathman_relation_info E 10 sample_row false before in
  filled.2 = Raised "wrong constraint format for HASH partition" /\
  children <$> lookup_prel 10 filled.1 = Some (Some [11; 0]) /\
  refreshed.2 = Raised "wrong constraint format for HASH partition" /\
  children <$> lookup_prel 10 refreshed.1 = Some None /\
  ranges <$> lookup_prel 10 refreshed.1 = Some None /\
  expr_cstr <$> lookup_prel 10 refreshed.1 = Some None /\
  expr <$> lookup_prel 10 refreshed.1 = Some None /\
  valid <$> lookup_prel 10 refreshed.1 = Some false.
Proof. vm_compute. repeat split; reflexivity. Qed.

(** A refresh that returns: partition 11 has the hash remainder 1 and
    partition 12 the remainder 0, and each is in the slot of its
    remainder. *)
Example refresh_places_the_children :
  let E :=
    with_catalog
      (fun partition =>
         if partition =? 11 then ConstraintExpr "hash:1"%string
         else ConstraintExpr "hash:0"%string)
      (inherits_parent (sample_backend 5))
      (validate_range_constraint (sample_backend 5))
      (sample_backend 5) in
  let before := mk_state [] [] false (mk_caches ∅ ∅ ∅ true) in
  let refreshed := refresh_pathman_relation_info E 10 sample_row false before in
  refreshed.2 = Done (Some 10) /\
  valid <$> lookup_prel 10 refreshed.1 = Some true /\
  children_count <$> lookup_prel 10 refreshed.1 = Some 2%nat /\
  children <$> lookup_prel 10 refreshed.1 = Some (Some [12; 11]) /\
  parents refreshed.1 !! 11 = Some 10 /\ parents refreshed.1 !! 12 = Some 10.
Proof. vm_compute. repeat split; reflexivity. Qed.

(** Two partitions on the same hash remainder leave a slot of the
    children array unassigned: a build with USE_ASSERT_CHECKING raises the
    error of the check, a build without it returns the entry. *)
Example refresh_checks_the_slots_of_a_hash_table :
  let before := mk_state [] [] false (mk_caches ∅ ∅ ∅ true) in
  let checked :=
    refresh_pathman_relation_info (with_assert_checking true same_remainder)
      10 sample_row false before in
  let unchecked :=
    refresh_pathman_relation_info (with_assert_checking false same_remainder)
      10 sample_row false before in
  checked.2 = Raised children_unassigned /\
  valid <$> lookup_prel 10 checked.1 = Some false /\
  children <$> lookup_prel 10 checked.1 = Some None /\
  pg_pathman_enable (caches checked.1) = false /\
  unchecked.2 = Done (Some 10) /\
  valid <$> lookup_prel 10 unchecked.1 = Some true /\
  children <$> lookup_prel 10 unchecked.1 = Some (Some [12; 0]).
Proof. vm_compute. repeat split; reflexivity. Qed.

(** The cached bound of partition 11 is a RANGE bound, the table is
    partitioned by HASH: the bound is stored through the null [ranges]
    pointer. *)
Example refresh_crashes_on_a_range_bound_of_a_hash_table :
  let E := sample_backend 5 in
  let before :=
    mk_state [] [] false
      (mk_caches ∅ ∅
         {[ 11 := mk_pbin 11 PT_RANGE 0 (FINITE 0) (FINITE 10) true ]}
         true) in
  let refreshed := refresh_pathman_relation_info E 10 sample_row false before in
  refreshed.2 = Crashed /\
  valid <$> lookup_prel 10 refreshed.1 = Some false /\
  crash_cause E before PT_HASH 11.
Proof.
  vm_compute. repeat split; try reflexivity.
  right. split; [reflexivity|]. eexists. split; [reflexivity|].
  split; [reflexivity|discriminate].
Qed.

(** *** The arrays of a RANGE table *)

Lemma init_children_lookup (l : list RangeEntry) : forall k (ch : list Oid),
  let ch' :=
    foldl (fun ch '(i, re) => <[i := child_oid re]> ch) ch
          (imap (fun i re => ((k + i)%nat, re)) l) in
  (forall j, (j < k)%nat -> ch' !! j = ch !! j) /\
  (forall i re, l !! i = Some re -> (k + i < length ch)%nat ->
     ch' !! (k + i)%nat = Some (child_oid re)).
Proof.
  induction l as [|x l IH]; intros k ch; cbn zeta.
  { split; [reflexivity|]. intros i re H. destruct i; discriminate. }
  rewrite imap_cons. cbn [foldl].
  assert (Hext : imap ((fun i re => ((k + i)%nat, re)) ∘ S) l =
                 imap (fun i re => ((S k + i)%nat, re)) l).
  { apply imap_ext. intros i re _. cbn. f_equal. lia. }
  rewrite Hext. clear Hext.
  destruct (IH (S k) (<[(k + 0)%nat := child_oid x]> ch)) as [Hlow Hhigh].
  split.
  - intros j Hj. rewrite Hlow by lia. apply list_lookup_insert_ne. lia.
  - intros [|i] re Hre Hlen.
    + injection Hre as <-. rewrite Hlow by lia.
      apply list_lookup_insert_eq. exact Hlen.
    + replace (k + S i)%nat with (S k + i)%nat by lia.
      apply Hhigh; [exact Hre|]. rewrite length_insert. lia.
Qed.

(** X26.  The two arrays of a RANGE table.  When
    [fill_prel_with_partitions] returns for a RANGE-partitioned entry, the
    entry has a children array of [parts_count] slots and a ranges array,
    its other fields are as before, and the children array mirrors the
    ranges array: slot [i] of the children holds the partition of range
    [i], for every [i] below the number of range partitions. *)
Theorem fill_prel_range_children E relid partitions n st st' p :
  (forall q c, PrelRangePartitionsCount E (set_children c q) =
               PrelRangePartitionsCount E q) ->
  lookup_prel relid st = Some p -> parttype p = PT_RANGE ->
  fill_prel_with_partitions E relid partitions n st = (st', Done tt) ->
  exists p' ch rg,
    lookup_prel relid st' = Some p' /\ same_meta p p' /\
    children p' = Some ch /\ ranges p' = Some rg /\
    length ch = n /\ children_count p' = n /\
    forall i re,
      (i < PrelRangePartitionsCount E p')%nat -> (i < n)%nat ->
      rg !! i = Some re -> ch !! i = Some (child_oid re).
Proof.
  intros Hcount L Hpt. unfold fill_prel_with_partitions.
  rewrite !bind_assign.
  erewrite bind_read by (repeat apply lookup_prel_assign_Some; exact L).
  cbn [parttype set_children_count set_has_null_partition set_ranges
       set_children].
  rewrite Hpt, bind_assign.
  match goal with |- (_ ≫= _) ?s = _ -> _ => set (s1 := s) end.
  assert (L1 : exists q1, lookup_prel relid s1 = Some q1 /\ same_meta p q1 /\
                          has_arrays n q1).
  { eexists. split;
      [subst s1; repeat apply lookup_prel_assign_Some; exact L|].
    split; [unfold same_meta; cbn; tauto|].
    unfold has_arrays. cbn.
    split; [eexists; split; [reflexivity|apply length_replicate]|].
    split; [reflexivity|eauto]. }
  destruct L1 as (q1 & L1 & M1 & A1). clearbody s1.
  destruct (fill_prel_loop_entry E relid n (take n partitions) 0 s1 q1 L1)
    as (q2 & L2 & [M2 A2]).
  specialize (A2 A1).
  unfold mbind at 1, pathman_bind at 1.
  destruct (fill_prel_loop E relid n 0 (take n partitions) s1)
    as [s2 [[]| |]]; try discriminate.
  cbn [fst] in L2.
  assert (M : same_meta p q2) by (eapply same_meta_trans; eauto).
  assert (Hpt2 : parttype q2 = PT_RANGE).
  { destruct M as (_ & _ & _ & <- & _). exact Hpt. }
  erewrite bind_read by exact L2. rewrite Hpt2, bind_assoc, !bind_assign.
  destruct (USE_ASSERT_CHECKING E);
    [erewrite bind_read
       by (erewrite lookup_prel_assign_Some
             by (apply lookup_prel_assign_Some; exact L2); reflexivity);
     cbn [parttype set_children set_ranges]; rewrite Hpt2|].
  all: intros [= <-].
  all: destruct A2 as ((ch2 & Hch2 & Hlen2) & Hcc2 & Hrg2).
  all: destruct (Hrg2 Hpt2) as [rg2 Hrg2'].
  all: eexists _, _, _.
  all: split;
    [erewrite lookup_prel_assign_Some
       by (apply lookup_prel_assign_Some; exact L2); reflexivity|].
  all: split;
    [eapply same_meta_trans; [exact M|]; unfold same_meta; cbn; tauto|].
  all: cbn [children ranges set_children set_ranges children_count].
  all: rewrite Hch2, Hrg2'; cbn [fmap option_fmap option_map default].
  all: split; [reflexivity|]; split; [reflexivity|].
  all: split; [rewrite foldl_insert_length; exact Hlen2|].
  all: split; [exact Hcc2|].
  all: intros i re Hi Hn Hre; rewrite Hcount in Hi.
  all: match goal with
  | |- foldl _ ?ch (imap _ (take ?c ?l)) !! ?j = Some (child_oid ?r) =>
      destruct (init_children_lookup (take c l) 0 ch) as [_ H];
      apply (H j r); [rewrite lookup_take_lt by exact Hi; exact Hre|lia]
  end.
Qed.


Lemma fill_prel_range_children_witness :
  let E := range_backend in
  let st :=
    mk_state [] [] false
      (mk_caches {[ 10 := sample_prel 10 PT_RANGE false ]} ∅ ∅ true) in
  exists st' p',
    fill_prel_with_partitions E 10 [11; 12] 2 st = (st', Done tt) /\
    lookup_prel 10 st' = Some p' /\
    children p' = Some [11; 12] /\
    ranges p' =
      Some [mk_range_entry 11 (FINITE 10) (FINITE 20);
            mk_range_entry 12 MINUS_INFINITY (FINITE 10)].
Proof.
  intros E st.
  assert (Hrun :
    fill_prel_with_partitions E 10 [11; 12] 2 st =
    ((fill_prel_with_partitions E 10 [11; 12] 2 st).1, Done tt)).
  { vm_compute. reflexivity. }
  assert (Hcount : forall q c,
            PrelRangePartitionsCount E (set_children c q) =
            PrelRangePartitionsCount E q) by reflexivity.
  destruct (fill_prel_range_children E 10 [11; 12] 2 st _
              (sample_prel 10 PT_RANGE false) Hcount eq_refl eq_refl Hrun)
    as (p' & ch & rg & L' & _).
  eexists _, p'. split; [exact Hrun|]. split; [exact L'|].
  revert L'. vm_compute. intros [= <-]. split; reflexivity.
Defined.

End RelationInfoFacts.
